(** * kgrok: the port-specification parser and the session-multiplexing tunnel

    A shallow embedding of [tunnel.go]: [ParsePorts], the orchestrator
    [Tunnel], the per-session reader [ReadFromSession], the two per-pair
    loops [ReceiveData] and [SendData], and [handleStreamData].

    Go values are modelled as the code has them: a [string] is a sequence
    of bytes, [uint16]/[uint64] are [Z] with the wrap-around written out,
    an [error] is an optional error value ([None] is Go's [nil]), a byte
    slice is a [list byte].  What the code takes from its dependencies
    (go-xerrors, google/uuid, ktunnel's sessions, gRPC streams) is either
    modelled after them or left as a parameter, as said where it is done;
    the answers of blocking calls are inputs.

    Part 7 adds the cluster side: [GenerateYAML] and [YieldKubeDef], the
    methods of [Client] ([DefaultNS], [dynamicResource], [KubeApply],
    [KubeDump], [KubeDelete], [WaitReady], [PortForward]) and [run]. *)

From Stdlib Require Import ZArith String Ascii List Bool Lia DecimalString DecimalPos.
From stdpp Require Import gmap.
Import ListNotations.

Local Open Scope string_scope.
Local Open Scope list_scope.
Local Open Scope Z_scope.

(** ** Part 1: port specifications *)

Module Ports.

(** [type ForwardedPort struct { Local, Remote uint16 }] *)
Record ForwardedPort : Type := mkForwardedPort { Local : Z; Remote : Z }.

(** *** [strings.Split(s, sep)] for a one-byte separator: the pieces of [s]
    between the occurrences of [sep], in order; one more piece than there
    are separators, so the result is never empty. *)
Fixpoint Split (s : string) (sep : ascii) : list string :=
  match s with
  | EmptyString => [EmptyString]
  | String c rest =>
      if Ascii.eqb c sep then EmptyString :: Split rest sep
      else match Split rest sep with
           | piece :: pieces => String c piece :: pieces
           | [] => [String c EmptyString]
           end
  end.

(** *** [strconv.ParseUint(s, base, bitSize)] for [2 <= base <= 36] *)

Inductive NumErrKind : Type := ErrSyntax | ErrRange.

(** [*strconv.NumError{Func, Num, Err}] *)
Record NumError : Type := mkNumError { Func : string; Num : string; Err : NumErrKind }.

Definition maxUint64 : Z := 2 ^ 64 - 1.

(** [lower(c) = c | ('x' - 'X')] *)
Definition lower (c : Z) : Z := Z.lor c 32.

(** The value of one byte as a digit: ['0'..'9'], else a letter (either
    case) counted from 10, else no digit at all. *)
Definition digit_of (c : Z) : option Z :=
  if (48 <=? c) && (c <=? 57) then Some (c - 48)
  else if (97 <=? lower c) && (lower c <=? 122) then Some (lower c - 97 + 10)
  else None.

(** The digit loop of [ParseUint]; [n] is the [uint64] accumulator. *)
Fixpoint ParseUint_loop (cs : string) (base cutoff maxVal n : Z) : Z * option NumErrKind :=
  match cs with
  | EmptyString => (n, None)
  | String c rest =>
      match digit_of (Z.of_N (N_of_ascii c)) with
      | None => (0, Some ErrSyntax)
      | Some d =>
          if d >=? base then (0, Some ErrSyntax)
          else if n >=? cutoff then (maxVal, Some ErrRange)
          else
            let n' := (n * base) mod 2 ^ 64 in
            let n1 := (n' + d) mod 2 ^ 64 in
            if (n1 <? n') || (n1 >? maxVal) then (maxVal, Some ErrRange)
            else ParseUint_loop rest base cutoff maxVal n1
      end
  end.

Definition ParseUint (s : string) (base bitSize : Z) : Z * option NumError :=
  match s with
  | EmptyString => (0, Some (mkNumError "ParseUint" s ErrSyntax))
  | _ =>
      let cutoff := maxUint64 / base + 1 in
      let maxVal := 2 ^ bitSize - 1 in
      match ParseUint_loop s base cutoff maxVal 0 with
      | (n, None) => (n, None)
      | (n, Some k) => (n, Some (mkNumError "ParseUint" s k))
      end
  end.

(** *** The errors [ParsePorts] builds with [fmt.Errorf]; each constructor
    carries the arguments of its format string. *)
Inductive PortError : Type :=
| ErrInvalidFormat (portString : string)
    (* "invalid port format '%s'" *)
| ErrParsingLocal (localString : string) (err : NumError)
    (* "error parsing local port '%s': %s" *)
| ErrParsingRemote (remoteString : string) (err : NumError)
    (* "error parsing remote port '%s': %s" *)
| ErrRemoteZero.
    (* "remote port must be > 0" *)

Definition uint16 (n : Z) : Z := n mod 2 ^ 16.

(** The body of the [for _, portString := range ports] loop: the pair to
    append, or the error to return. *)
Definition parsePort (portString : string) : ForwardedPort + PortError :=
  let parts := Split portString ":"%char in
  let strs :=
    match parts with
    | [p0] => Some (p0, p0)
    | [p0; p1] => Some (if String.eqb p0 "" then "0" else p0, p1)
    | _ => None
    end in
  match strs with
  | None => inr (ErrInvalidFormat portString)
  | Some (localString, remoteString) =>
      match ParseUint localString 10 16 with
      | (_, Some err) => inr (ErrParsingLocal localString err)
      | (localPort, None) =>
          match ParseUint remoteString 10 16 with
          | (_, Some err) => inr (ErrParsingRemote remoteString err)
          | (remotePort, None) =>
              if remotePort =? 0 then inr ErrRemoteZero
              else inl (mkForwardedPort (uint16 localPort) (uint16 remotePort))
          end
      end
  end.

(** The loop of [ParsePorts], with [forwards] as its accumulator: an error
    returns [(nil, err)] at once. *)
Fixpoint ParsePorts_loop (ports : list string) (forwards : list ForwardedPort)
  : list ForwardedPort * option PortError :=
  match ports with
  | [] => (forwards, None)
  | portString :: rest =>
      match parsePort portString with
      | inr err => ([], Some err)
      | inl fp => ParsePorts_loop rest (forwards ++ [fp])
      end
  end.

Definition ParsePorts (ports : list string) : list ForwardedPort * option PortError :=
  ParsePorts_loop ports [].

End Ports.

(** ** Part 2: what the tunnel takes from Go and from its dependencies *)

(** Go's [[]byte]. *)
Abbreviation bytes := (list Byte.byte).

(** *** Error values.  [error] is the Go interface type: [None] is [nil]. *)
Inductive err : Type :=
| Canceled                          (* context.Canceled *)
| DeadlineExceeded                  (* context.DeadlineExceeded *)
| EOF                               (* io.EOF *)
| Msg (text : string)               (* an error that only carries a message *)
| Wrapped (wrapper inner : err)     (* one error wrapping another *)
| Joined (first second : err).      (* a list of errors *)

Abbreviation error := (option err).

(** [errors.Is(e, target)]: [e] itself, or something it wraps or lists. *)
Fixpoint err_eqb (a b : err) : bool :=
  match a, b with
  | Canceled, Canceled | DeadlineExceeded, DeadlineExceeded | EOF, EOF => true
  | Msg s, Msg t => String.eqb s t
  | Wrapped a1 a2, Wrapped b1 b2 | Joined a1 a2, Joined b1 b2 =>
      err_eqb a1 b1 && err_eqb a2 b2
  | _, _ => false
  end.

Fixpoint err_Is (e target : err) : bool :=
  err_eqb e target ||
  match e with
  | Wrapped w i => err_Is w target || err_Is i target
  | Joined a b => err_Is a target || err_Is b target
  | _ => false
  end.

Definition errors_Is (e : error) (target : err) : bool :=
  match e with
  | Some e => err_Is e target
  | None => false
  end.

(** [xerrors.New(msg, cause)] as the tunnel calls it, with a message first:
    never nil; the message wraps the cause when there is one. *)
Definition xerrors_New (msg : string) (cause : error) : error :=
  match cause with
  | Some c => Some (Wrapped (Msg msg) c)
  | None => Some (Msg msg)
  end.

(** [xerrors.WithWrapper] and [xerrors.Append] belong to go-xerrors, which is
    not part of the repository.  The tunnel hands them nil operands, and
    what they answer then is the library's business: both are taken as
    parameters. *)
Class XErrors : Type := {
  WithWrapper : error -> error -> error;   (* xerrors.WithWrapper(wrapper, err) *)
  Append : error -> error -> error         (* xerrors.Append(err, e) *)
}.

(** Two libraries that agree on non-nil operands and differ on nil ones:
    [xerrors_strict] answers nil as soon as the wrapped error is nil,
    [xerrors_lenient] skips whichever operand is nil. *)
Definition Append_skip_nil (a b : error) : error :=
  match a, b with
  | Some x, Some y => Some (Joined x y)
  | Some x, None => Some x
  | None, b => b
  end.

Definition xerrors_strict : XErrors :=
  {| WithWrapper := fun w e =>
       match w, e with
       | Some w, Some e => Some (Wrapped w e)
       | None, Some e => Some e
       | _, None => None
       end;
     Append := Append_skip_nil |}.

Definition xerrors_lenient : XErrors :=
  {| WithWrapper := fun w e =>
       match w, e with
       | Some w, Some e => Some (Wrapped w e)
       | None, e => e
       | w, None => w
       end;
     Append := Append_skip_nil |}.

(** go-xerrors, as the tunnel links it, answers nil for a nil wrapped
    error whatever the wrapper is, as [xerrors_strict] does. *)
Definition nil_stays_nil (X : XErrors) : Prop :=
  forall wrapper : error, @WithWrapper X wrapper None = None.

(** *** [context.Context], as far as the tunnel looks at it: whether [Done]
    is closed, what [Err()] reports, and the recorded cause. *)
Record Context : Type := mkContext {
  Done : bool;
  Err : error;      (* ctx.Err() *)
  Cause : error      (* context.Cause(ctx) *)
}.

Definition Background : Context := mkContext false None None.

(** The [cancel(cause)] of [context.WithCancelCause]: the first call wins; a
    nil cause is recorded as [context.Canceled]; [Err()] is
    [context.Canceled] either way. *)
Definition cancel (ctx : Context) (cause : error) : Context :=
  if Done ctx then ctx
  else mkContext true (Some Canceled)
         (match cause with Some c => Some c | None => Some Canceled end).

(** A child context follows its parent: once the parent is done, the child
    is done with the parent's [Err()] and cause, unless it was already. *)
Definition propagate (ctx parent : Context) : Context :=
  if Done ctx then ctx
  else if Done parent then mkContext true (Err parent) (Cause parent)
  else ctx.

(** *** [bytes.Buffer]: the unread bytes. *)
Definition Buffer : Type := bytes.

Definition Buffer_Len (b : Buffer) : nat := length b.

(** [b.Read(p)]: the new buffer, the new contents of [p], [n] and [err].
    An empty buffer answers [io.EOF] unless [p] is empty too. *)
Definition Buffer_Read (b : Buffer) (p : bytes) : Buffer * bytes * nat * error :=
  match b with
  | [] => ([], p, 0%nat, if Nat.eqb (length p) 0 then None else Some EOF)
  | _ =>
      let n := Nat.min (length p) (length b) in
      (skipn n b, firstn n b ++ skipn n p, n, None)
  end.

(** [b.Write(p)]: appends all of [p]; [err] is always nil. *)
Definition Buffer_Write (b : Buffer) (p : bytes) : Buffer * nat * error :=
  (b ++ p, length p, None).

(** [make([]byte, n)] *)
Definition make_bytes (n : nat) : bytes := repeat Byte.x00 n.

(** *** [uuid.UUID]: 128 bits.  [uuid.Parse] and [UUID.String] belong to
    google/uuid; [uuid_Parse] answers an id and an error (on an error the id
    is whatever placeholder the library leaves). *)
Definition UUID : Type := N.

Class UUIDs : Type := {
  uuid_Parse : string -> UUID * error;
  uuid_String : UUID -> string
}.

(** A stand-in for google/uuid on which the examples run: it writes an id
    as a decimal numeral and reads one back. *)
Definition uuid_decimal : UUIDs :=
  {| uuid_Parse := fun s =>
       match NilZero.uint_of_string s with
       | Some d => (N.of_uint d, None)
       | None => (0%N, Some (Msg "invalid UUID format"))
       end;
     uuid_String := fun id => NilZero.string_of_uint (N.to_uint id) |}.

(** ** Part 3: frames, sessions and the world the tunnel's tasks share *)

Inductive TunnelScheme : Type := TCP | UDP.

(** [pb.SocketDataRequest], the outbound frame. *)
Record SocketDataRequest : Type := mkRequest {
  Port : Z;
  RequestId : string;
  LogLevel : Z;
  Data : bytes;
  ShouldClose : bool;
  Scheme : TunnelScheme
}.

(** [pb.SocketDataResponse], the inbound frame. *)
Record SocketDataResponse : Type := mkResponse {
  resp_RequestId : string;
  resp_Data : bytes;
  resp_ShouldClose : bool
}.

(** [common.Session] of ktunnel.  The mutex is followed through the
    [Lock]/[Unlock] events of the trace; [Closed] says that [Close()] ran,
    which cancels [session.Context] and closes [session.Conn]. *)
Record Session : Type := mkSession {
  Id : UUID;
  Buf : Buffer;
  Open : bool;
  Closed : bool
}.

(** What a task does that another task, the peer or the local socket can
    see, in the order it does it, and what the Send Loop takes out of a
    session for a frame.  Log output is left out. *)
Inductive event : Type :=
| Lock (id : UUID)                        (* session.Lock() *)
| Unlock (id : UUID)                      (* session.Unlock() *)
| StreamRecv                              (* st.Recv() *)
| StreamSend (f : SocketDataRequest) (err : error)
                                          (* st.Send(f), and what it answered *)
| StreamCloseSend                         (* st.CloseSend() *)
| DialTimeout (port : Z) (millis : Z)     (* net.DialTimeout("tcp", ":port", ...) *)
| ConnRead (id : UUID)                    (* session.Conn.Read(buff) *)
| ConnWrite (id : UUID) (data : bytes)    (* session.Conn.Write(data) *)
| Publish (id : UUID)                     (* sessionsOut <- session *)
| GoReadFromSession (id : UUID)           (* go ReadFromSession(session, sessionsOut) *)
| SessionClose (id : UUID)                (* session.Close() *)
| BufRead (id : UUID) (taken : bytes)     (* session.Buf.Len() and
                                             session.Buf.Read(bytes): the bytes taken *)
| OpenRead (id : UUID) (open : bool).     (* session.Open, read for a frame *)

(** ktunnel keeps every session in one process-wide map under its id; a
    [*common.Session] is modelled by that id.  The Receive Loop reaches a
    session through the map, from which the timers of [Close()] delete
    ids five seconds after the call: the map a turn of the Receive Loop
    finds is the one of the world the turn starts from, and what the
    theorems say of a turn they say for every world.  The reader of a
    session and the Send Loop hold the session itself, which stays what it
    is when its id leaves the map: their turns find it in the world they
    start from. *)
Record World : Type := mkWorld {
  openSessions : gmap UUID Session;
  trace : list event
}.

(** *** The monad of a task: it threads the world; dereferencing a session
    that is not there is Go's nil dereference. *)
Inductive Res (A : Type) : Type :=
| Ok (a : A) (w : World)
| Panic.
Arguments Ok {A} a w.
Arguments Panic {A}.

Definition M (A : Type) : Type := World -> Res A.

#[global] Instance M_ret : MRet M := fun A a w => Ok a w.

#[global] Instance M_bind : MBind M := fun A B k m w =>
  match m w with
  | Ok a w' => k a w'
  | Panic => Panic
  end.

Definition emit (e : event) : M unit :=
  fun w => Ok tt (mkWorld (openSessions w) (trace w ++ [e])).

(** [*session] *)
Definition deref (sid : UUID) : M Session :=
  fun w => match openSessions w !! sid with
           | Some s => Ok s w
           | None => Panic
           end.

Definition store (sid : UUID) (s : Session) : M unit :=
  fun w => Ok tt (mkWorld (<[sid := s]> (openSessions w)) (trace w)).

Definition set_Open (b : bool) (s : Session) : Session :=
  mkSession (Id s) (Buf s) b (Closed s).

Definition set_Buf (b : Buffer) (s : Session) : Session :=
  mkSession (Id s) b (Open s) (Closed s).

(** What [Close()] leaves of a session: closed, and not open. *)
Definition set_Closed (s : Session) : Session :=
  mkSession (Id s) (Buf s) false true.

(** [common.GetSession(id)] *)
Definition GetSession (id : UUID) : M (option Session) :=
  fun w => Ok (openSessions w !! id) w.

(** [common.NewSessionFromStream(id, conn)]: a fresh open session with an
    empty buffer, registered under [id]. *)
Definition NewSessionFromStream (id : UUID) : M UUID :=
  store id (mkSession id [] true false) ;; mret id.

(** [session.Close()]: it closes the connection and cancels the context of
    the session and sets [Open] to false.  It also starts a timer that
    deletes the id of the session from the registry five seconds later;
    the timer is a task of its own and fires between turns, see [World]. *)
Definition Session_Close (sid : UUID) : M unit :=
  s ← deref sid;
  emit (SessionClose sid) ;;
  store sid (set_Closed s).

(** How one turn of a [for] loop ends: the next turn, or [return r]. *)
Inductive ctl (R : Type) : Type :=
| Continue
| Return (r : R).
Arguments Continue {R}.
Arguments Return {R} r.

(** ** Part 4: the tasks of [tunnel.go]

    A blocking call answers what its environment makes it answer; every
    turn of a loop takes the answers of its calls as a record. *)

Section Tasks.
Context `{XE : XErrors} `{UU : UUIDs}.

(** [session.Buf.Write(p)].  [bytes.Buffer.Write] never reports an error;
    [ReadFromSession] has a branch for one all the same, so the reported
    error is an input: [None] is [bytes.Buffer], [Some e] a write that
    failed and appended nothing. *)
Definition Session_Buf_Write (fault : error) (b : Buffer) (p : bytes)
  : Buffer * nat * error :=
  match fault with
  | None => Buffer_Write b p
  | Some e => (b, 0%nat, Some e)
  end.

(** *** [handleStreamData(m, session)] *)
Definition handleStreamData (m : SocketDataResponse) (session : UUID)
    (Conn_Write : error) : M unit :=
  s ← deref session;
  if negb (Open s) then
    Session_Close session
  else
    let data := resp_Data m in
    if (0 <? length data)%nat then
      emit (Lock session) ;;
      emit (ConnWrite session data) ;;
      emit (Unlock session) ;;
      match Conn_Write with
      | Some _ => Session_Close session
      | None => mret tt
      end
    else mret tt.

(** *** [ReadFromSession(session, sessionsOut)] *)

Record ReadEnv : Type := mkReadEnv {
  conn_Read : bytes * error;     (* buff[0:br] and err of conn.Read(buff) *)
  Buf_Write_fault : error        (* see [Session_Buf_Write] *)
}.

(** [session.Open = false] of the read-error branch (no lock is taken). *)
Definition ReadFromSession_failed (session : UUID) : M unit :=
  s ← deref session;
  store session (set_Open false s).

(** The critical section of the [default] case; answers [err]. *)
Definition ReadFromSession_append (session : UUID) (chunk : bytes)
    (fault : error) : M error :=
  emit (Lock session) ;;
  s ← deref session;
  err ← (if (0 <? length chunk)%nat then
           let '(b, _, err) := Session_Buf_Write fault (Buf s) chunk in
           store session (set_Buf b s) ;; mret err
         else mret None);
  emit (Unlock session) ;;
  mret err.

(** One turn of the [for] loop. *)
Definition ReadFromSession_turn (session : UUID) (env : ReadEnv) : M (ctl unit) :=
  emit (ConnRead session) ;;
  let '(chunk, err) := conn_Read env in
  match err with
  | Some _ =>
      ReadFromSession_failed session ;;
      emit (Publish session) ;;
      mret (Return tt)
  | None =>
      s ← deref session;
      if Closed s then                      (* case <-session.Context.Done() *)
        mret (Return tt)
      else
        err ← ReadFromSession_append session chunk (Buf_Write_fault env);
        match err with
        | Some _ => mret (Return tt)
        | None => emit (Publish session) ;; mret Continue
        end
  end.

(** *** [ReceiveData(st, sessionsOut, port)] *)

Record RecvEnv : Type := mkRecvEnv {
  st_Recv : SocketDataResponse * error;
  st_Context : Context;          (* st.Context() when the select is reached *)
  st_CloseSend : error;
  net_DialTimeout : error;       (* nil: the local connection is there *)
  st_Send : error;
  Conn_Write : error
}.

Definition is_nil (e : error) : bool :=
  match e with None => true | Some _ => false end.

(** One turn of the [for] loop. *)
Definition ReceiveData_turn (port : Z) (env : RecvEnv) : M (ctl error) :=
  emit StreamRecv ;;
  let '(m, err) := st_Recv env in
  match err with
  | Some _ => mret (Return (xerrors_New "error reading from stream" err))
  | None =>
      if Done (st_Context env) then
        let err := Err (st_Context env) in
        if errors_Is err Canceled || is_nil err then
          emit StreamCloseSend ;;
          mret (Return (st_CloseSend env))
        else
          emit StreamCloseSend ;;
          mret (Return (WithWrapper err (st_CloseSend env)))
      else
        let '(requestId, _) := uuid_Parse (resp_RequestId m) in
        found ← GetSession requestId;
        match found with
        | None =>
            (* new session *)
            emit (DialTimeout port 500) ;;
            match net_DialTimeout env with
            | Some _ =>
                (* close the remote connection *)
                let resp := mkRequest 0 (uuid_String requestId) 0 [] true TCP in
                emit (StreamSend resp (st_Send env)) ;;
                mret Continue
            | None =>
                session ← NewSessionFromStream requestId;
                emit (GoReadFromSession session) ;;
                handleStreamData m session (Conn_Write env) ;;
                mret Continue
            end
        | Some _ =>
            (if resp_ShouldClose m then
               s ← deref requestId;
               store requestId (set_Open false s)
             else mret tt) ;;
            handleStreamData m requestId (Conn_Write env) ;;
            mret Continue
        end
  end.

(** The loop, over the answers of its turns: [Some r] when it returned [r],
    [None] when it is still waiting in [st.Recv()] after the last of them. *)
Fixpoint ReceiveData (port : Z) (envs : list RecvEnv) : M (option error) :=
  match envs with
  | [] => mret None
  | env :: envs' =>
      c ← ReceiveData_turn port env;
      match c with
      | Return r => mret (Some r)
      | Continue => ReceiveData port envs'
      end
  end.

(** *** [SendData(stream, sessions)] *)

(** Which case of the [select] fires; when both are ready Go picks one. *)
Inductive SendSelect : Type :=
| Select_Done                       (* case <-stream.Context().Done() *)
| Select_session (session : UUID).  (* case session := <-sessions *)

Record SendEnv : Type := mkSendEnv {
  selected : SendSelect;
  stream_Context : Context;
  stream_Send : error
}.

(** From [session.Lock()] to [session.Unlock()]: the frame to send, or the
    error of [session.Buf.Read], on which the source returns at once. *)
Definition SendData_drain (session : UUID) : M (SocketDataRequest + err) :=
  emit (Lock session) ;;
  s ← deref session;
  let bys := Buffer_Len (Buf s) in
  let '(b, bytes_, n, err) := Buffer_Read (Buf s) (make_bytes bys) in
  emit (BufRead session (firstn n bytes_)) ;;
  store session (set_Buf b s) ;;
  match err with
  | Some e => mret (inr e)
  | None =>
      s ← deref session;
      emit (OpenRead session (Open s)) ;;
      let resp := mkRequest 0 (uuid_String (Id s)) 0 bytes_ (negb (Open s)) TCP in
      emit (Unlock session) ;;
      mret (inl resp)
  end.

(** One turn of the [for] loop. *)
Definition SendData_turn (env : SendEnv) : M (ctl error) :=
  match selected env with
  | Select_Done =>
      let err := Err (stream_Context env) in
      if errors_Is err Canceled then mret (Return None)
      else mret (Return err)
  | Select_session session =>
      r ← SendData_drain session;
      match r with
      | inr e => mret (Return (Some e))
      | inl resp =>
          emit (StreamSend resp (stream_Send env)) ;;
          match stream_Send env with
          | Some e => mret (Return (Some e))
          | None => mret Continue
          end
      end
  end.

Fixpoint SendData (envs : list SendEnv) : M (option error) :=
  match envs with
  | [] => mret None
  | env :: envs' =>
      c ← SendData_turn env;
      match c with
      | Return r => mret (Some r)
      | Continue => SendData envs'
      end
  end.

(** *** [Tunnel(ctx, port, fps)] *)

(** What happens around one forwarding pair. *)
Record PairEnv : Type := mkPairEnv {
  parent_then : Context;          (* the caller's context when the pair's turn starts *)
  client_InitTunnel : error;
  stream_Send_req : SocketDataRequest -> error;   (* stream.Send(req) *)
  ReceiveData_returns : error;    (* what the pair's ReceiveData returns *)
  SendData_returns : error        (* what the pair's SendData returns *)
}.

Record TunnelEnv : Type := mkTunnelEnv {
  grpc_Dial : error;
  parent_at_Wait : Context;       (* the caller's context when wg.Wait() returns *)
  finished : list nat             (* which of the Send Loops still running ends
                                     next, each time one ends: its place among
                                     those still running *)
}.

Definition int32 (n : Z) : Z := (n + 2 ^ 31) mod 2 ^ 32 - 2 ^ 31.

(** The frame that initiates a pair: the remote port and the scheme. *)
Definition Tunnel_req (fp : Ports.ForwardedPort) : SocketDataRequest :=
  mkRequest (int32 (Ports.Remote fp)) "" 0 [] false TCP.

(** [context.WithCancelCause(parent)] *)
Definition WithCancelCause (parent : Context) : Context :=
  propagate Background parent.

(** The [for _, fp := range fps] loop: the shared context after it and the
    pairs whose two goroutines were started.  A failure cancels with its
    cause and breaks. *)
Fixpoint Tunnel_launch (fps : list (Ports.ForwardedPort * PairEnv))
    (ctx : Context) (launched : list PairEnv) : Context * list PairEnv :=
  match fps with
  | [] => (ctx, launched)
  | (fp, env) :: fps' =>
      let ctx := propagate ctx (parent_then env) in
      match client_InitTunnel env with
      | Some _ =>
          (cancel ctx (xerrors_New "failed initializing tunnel" (client_InitTunnel env)),
           launched)
      | None =>
          match stream_Send_req env (Tunnel_req fp) with
          | Some _ =>
              (cancel ctx (xerrors_New "failed sending initial tunnel request"
                             (stream_Send_req env (Tunnel_req fp))),
               launched)
          | None => Tunnel_launch fps' ctx (launched ++ [env])
          end
      end
  end.

(** [wg.Wait()] returns when every launched Send Loop has ended, and each
    of them, as it ends, does [errs = xerrors.Append(errs, err)] under the
    mutex, once.  [running] are the Send Loops that have not ended yet,
    [n] of them; [next] says which ends next (a place past the last one
    counts from the first again). *)
Fixpoint Tunnel_wait (n : nat) (running : list PairEnv) (next : list nat)
    (errs : error) : error :=
  match n with
  | O => errs
  | S n' =>
      let k := (hd 0 next mod length running)%nat in
      match running !! k with
      | Some env =>
          Tunnel_wait n' (delete k running) (tl next)
                      (Append errs (SendData_returns env))
      | None => errs
      end
  end.

Definition Tunnel_errs (launched : list PairEnv) (next : list nat) : error :=
  Tunnel_wait (length launched) launched next None.

(** The shared context when [Tunnel] returns. *)
Definition Tunnel_ctx (parent : Context) (fps : list (Ports.ForwardedPort * PairEnv))
    (env : TunnelEnv) : Context :=
  propagate (fst (Tunnel_launch fps (WithCancelCause parent) [])) (parent_at_Wait env).

Definition Tunnel (parent : Context) (port : Z)
    (fps : list (Ports.ForwardedPort * PairEnv)) (env : TunnelEnv) : error :=
  match grpc_Dial env with
  | Some _ => xerrors_New "failed to dial" (grpc_Dial env)
  | None =>
      let launched := snd (Tunnel_launch fps (WithCancelCause parent) []) in
      WithWrapper (Cause (Tunnel_ctx parent fps env))
                  (Tunnel_errs launched (finished env))
  end.

End Tasks.

(** ** Part 5: one session between its reader and the Send Loop

    [ReadFromSession] and [SendData] run concurrently and meet at the
    unbuffered channel of ready sessions and at the session's lock.  A
    state of the system is the shared world and the place each of the two
    tasks is at; a step is one task moving to its next blocking point, by
    the code of Part 4.  What a task does between [session.Lock()] and
    [session.Unlock()] is one step: the lock makes it so for the buffer,
    which nothing touches outside it.  [ReceiveData], running beside them,
    may mark the session closed or write to its socket at any time, and
    frames of other sessions may go out on the same stream.  Under the id
    of the session itself the Receive Loop sends nothing while the
    registry holds the session: its one send answers a frame whose id
    [GetSession] did not find.  The system follows the session for as
    long as the registry holds it; the timer of [Close()], which drops
    it, is not among the steps. *)

Inductive reader_pc : Type :=
| R_Read                      (* about to call conn.Read(buff) *)
| R_Select (chunk : bytes)    (* conn.Read answered (chunk, nil); at the select *)
| R_Publish (final : bool)    (* blocked in [sessionsOut <- session];
                                 [final]: on the read-error branch *)
| R_Returned                  (* returned after the final publish *)
| R_Dropped (chunk : bytes).  (* returned with [chunk] read and not buffered *)

Inductive sender_pc : Type :=
| S_Select                           (* at the select *)
| S_Received                         (* has the session; about to lock it *)
| S_Send (resp : SocketDataRequest)  (* unlocked; about to stream.Send(resp) *)
| S_Failed (resp : SocketDataRequest)(* stream.Send(resp) failed; returned *)
| S_Returned.                        (* returned for another reason *)

Record System : Type := mkSystem {
  world : World;
  reader : reader_pc;
  sender : sender_pc;
  conn_log : list bytes         (* what conn.Read has answered, in order *)
}.

Section OneSession.
Context `{XE : XErrors} `{UU : UUIDs}.
Variable session : UUID.

Inductive step : System -> System -> Prop :=
| step_read_ok w w' spc log chunk :
    emit (ConnRead session) w = Ok tt w' ->
    step (mkSystem w R_Read spc log)
         (mkSystem w' (R_Select chunk) spc (log ++ [chunk]))
| step_read_err w w' spc log :
    (emit (ConnRead session) ;; ReadFromSession_failed session) w = Ok tt w' ->
    step (mkSystem w R_Read spc log)
         (mkSystem w' (R_Publish true) spc log)
| step_select_done w s spc log chunk :
    openSessions w !! session = Some s -> Closed s = true ->
    step (mkSystem w (R_Select chunk) spc log)
         (mkSystem w (R_Dropped chunk) spc log)
| step_append w w' s spc log chunk :
    openSessions w !! session = Some s -> Closed s = false ->
    ReadFromSession_append session chunk None w = Ok None w' ->
    step (mkSystem w (R_Select chunk) spc log)
         (mkSystem w' (R_Publish false) spc log)
| step_append_fault w w' s spc log chunk fault e :
    openSessions w !! session = Some s -> Closed s = false ->
    ReadFromSession_append session chunk fault w = Ok (Some e) w' ->
    step (mkSystem w (R_Select chunk) spc log)
         (mkSystem w' (R_Dropped chunk) spc log)
| step_handoff w w' final log :
    emit (Publish session) w = Ok tt w' ->
    step (mkSystem w (R_Publish final) S_Select log)
         (mkSystem w' (if final then R_Returned else R_Read) S_Received log)
| step_drain w w' rpc log resp :
    SendData_drain session w = Ok (inl resp) w' ->
    step (mkSystem w rpc S_Received log)
         (mkSystem w' rpc (S_Send resp) log)
| step_drain_err w w' rpc log e :
    SendData_drain session w = Ok (inr e) w' ->
    step (mkSystem w rpc S_Received log)
         (mkSystem w' rpc S_Returned log)
| step_send w w' rpc log resp :
    emit (StreamSend resp None) w = Ok tt w' ->
    step (mkSystem w rpc (S_Send resp) log)
         (mkSystem w' rpc S_Select log)
| step_send_failed w w' rpc log resp e :
    emit (StreamSend resp (Some e)) w = Ok tt w' ->
    step (mkSystem w rpc (S_Send resp) log)
         (mkSystem w' rpc (S_Failed resp) log)
| step_sender_done w rpc log :
    step (mkSystem w rpc S_Select log)
         (mkSystem w rpc S_Returned log)
| step_remote_close w w' s rpc spc log :
    openSessions w !! session = Some s ->
    store session (set_Open false s) w = Ok tt w' ->
    step (mkSystem w rpc spc log) (mkSystem w' rpc spc log)
| step_handle w w' rpc spc log m cw :
    handleStreamData m session cw w = Ok tt w' ->
    step (mkSystem w rpc spc log) (mkSystem w' rpc spc log)
| step_other_frame w w' rpc spc log f err :
    RequestId f <> uuid_String session ->
    emit (StreamSend f err) w = Ok tt w' ->
    step (mkSystem w rpc spc log) (mkSystem w' rpc spc log).

Inductive reachable (s0 : System) : System -> Prop :=
| reach_refl : reachable s0 s0
| reach_step s s' : reachable s0 s -> step s s' -> reachable s0 s'.

(** The frames that went out for the session: the sends that succeeded
    with its id. *)
Definition frames_of (t : list event) : list SocketDataRequest :=
  omap (fun e => match e with
                 | StreamSend f None =>
                     if String.eqb (RequestId f) (uuid_String session)
                     then Some f else None
                 | _ => None
                 end) t.

(** The payloads sent for the session, in the order of the frames. *)
Definition sent (w : World) : bytes := concat (map Data (frames_of (trace w))).

(** The session as [NewSessionFromStream] leaves it, nothing sent for it
    yet, the reader about to read and the Send Loop at its select. *)
Definition initial (s : System) : Prop :=
  openSessions (world s) !! session = Some (mkSession session [] true false) /\
  frames_of (trace (world s)) = [] /\
  reader s = R_Read /\ sender s = S_Select /\ conn_log s = [].


(** The payload the Send Loop has taken out of the buffer and not sent. *)
Definition in_flight (spc : sender_pc) : bytes :=
  match spc with
  | S_Send resp | S_Failed resp => Data resp
  | _ => []
  end.

(** The chunk the reader has read and not put into the buffer. *)
Definition unbuffered (rpc : reader_pc) : bytes :=
  match rpc with
  | R_Select chunk | R_Dropped chunk => chunk
  | _ => []
  end.


End OneSession.

(** ** Part 6: the words of the specification *)

Module Spec.
Import Ports.

(** A port number as a specification writes one: decimal digits, at least
    one, read in base ten, the value fitting in 16 bits. *)
Definition is_digit (c : ascii) : bool :=
  let n := Z.of_N (N_of_ascii c) in (48 <=? n) && (n <=? 57).

Fixpoint all_digits (s : string) : bool :=
  match s with
  | EmptyString => true
  | String c rest => is_digit c && all_digits rest
  end.

Fixpoint decimal (s : string) (acc : Z) : Z :=
  match s with
  | EmptyString => acc
  | String c rest => decimal rest (acc * 10 + (Z.of_N (N_of_ascii c) - 48))
  end.

Definition port_number (s : string) (v : Z) : Prop :=
  s <> "" /\ all_digits s = true /\ decimal s 0 = v /\ v <= 65535.

(** The three well-formed shapes, and the pair each one stands for. *)
Inductive denotes : string -> ForwardedPort -> Prop :=
| denotes_REMOTE s r :
    port_number s r -> 0 < r ->
    denotes s (mkForwardedPort r r)
| denotes_LOCAL_REMOTE l r vl vr :
    port_number l vl -> port_number r vr -> 0 < vr ->
    denotes (l ++ ":" ++ r) (mkForwardedPort vl vr)
| denotes_colon_REMOTE r vr :
    port_number r vr -> 0 < vr ->
    denotes (":" ++ r) (mkForwardedPort 0 vr).

(** The two kinds of error of the specification. *)
Definition FormatError (e : PortError) : Prop :=
  match e with
  | ErrInvalidFormat _ | ErrParsingLocal _ _ | ErrParsingRemote _ _ => True
  | ErrRemoteZero => False
  end.

Definition ValidationError (e : PortError) : Prop := e = ErrRemoteZero.

(** The text an error message quotes. *)
Definition names (e : PortError) (text : string) : Prop :=
  match e with
  | ErrInvalidFormat s | ErrParsingLocal s _ | ErrParsingRemote s _ => s = text
  | ErrRemoteZero => False
  end.

(** The number of colons of a spec. *)
Fixpoint colons (s : string) : nat :=
  match s with
  | EmptyString => 0
  | String c rest => ((if Ascii.eqb c ":" then 1 else 0) + colons rest)%nat
  end.

(** The local and the remote text of a spec with at most one colon. *)
Definition local_text (spec : string) : string :=
  match Split spec ":" with
  | [p0; _] => if String.eqb p0 "" then "0" else p0
  | _ => spec
  end.

Definition remote_text (spec : string) : string :=
  match Split spec ":" with
  | [_; p1] => p1
  | _ => spec
  end.

(** What lets a spec fail with a given error. *)
Definition explains (spec : string) (e : PortError) : Prop :=
  match e with
  | ErrInvalidFormat s => s = spec /\ (2 <= colons spec)%nat
  | ErrParsingLocal s nerr =>
      (colons spec <= 1)%nat /\ s = local_text spec /\ Num nerr = s /\
      forall v, ~ port_number s v
  | ErrParsingRemote s nerr =>
      (colons spec <= 1)%nat /\ (exists v, port_number (local_text spec) v) /\
      s = remote_text spec /\ Num nerr = s /\ forall v, ~ port_number s v
  | ErrRemoteZero =>
      (colons spec <= 1)%nat /\ (exists v, port_number (local_text spec) v) /\
      port_number (remote_text spec) 0
  end.

End Spec.

(** *** The orchestrator, in the words of the specification *)

Module TunnelSpec.

(** Every pair initiates: its duplex channel opens and takes the first
    frame. *)
Definition all_initiated (fps : list (Ports.ForwardedPort * PairEnv)) : Prop :=
  Forall (fun p => client_InitTunnel (snd p) = None /\
                   stream_Send_req (snd p) (Tunnel_req (fst p)) = None) fps.

(** The caller's context is not done while these pairs take their turn. *)
Definition parent_quiet (fps : list (Ports.ForwardedPort * PairEnv)) : Prop :=
  Forall (fun p => Done (parent_then (snd p)) = false) fps.

(** No Send Loop returned an error. *)
Definition no_SendData_error (fps : list (Ports.ForwardedPort * PairEnv)) : Prop :=
  Forall (fun p => SendData_returns (snd p) = None) fps.

(** The same pair with the same answers, but for what its Receive Loop
    returns. *)
Definition same_but_ReceiveData (p q : Ports.ForwardedPort * PairEnv) : Prop :=
  fst p = fst q /\
  parent_then (snd p) = parent_then (snd q) /\
  client_InitTunnel (snd p) = client_InitTunnel (snd q) /\
  stream_Send_req (snd p) = stream_Send_req (snd q) /\
  SendData_returns (snd p) = SendData_returns (snd q).

(** A context cancelled by a plain [cancel()] of the caller. *)
Definition plainly_cancelled : Context := mkContext true (Some Canceled) (Some Canceled).

(** The one pair of a tunnel whose server cannot be reached: its duplex
    channel does not open. *)
Definition one_pair_failing : list (Ports.ForwardedPort * PairEnv) :=
  [(Ports.mkForwardedPort 8080 8080,
    mkPairEnv Background (Some (Msg "unavailable")) (fun _ => None) None None)].

End TunnelSpec.

(** *** What [handleStreamData] leaves behind, from the session [s] it
    finds: whether it closes the session, and the events of its run. *)
Definition handleStreamData_closes (m : SocketDataResponse) (s : Session)
    (Conn_Write : error) : bool :=
  negb (Open s) || ((0 <? length (resp_Data m))%nat && negb (is_nil Conn_Write)).

Definition handleStreamData_trace (m : SocketDataResponse) (session : UUID)
    (s : Session) (Conn_Write : error) : list event :=
  if negb (Open s) then [SessionClose session]
  else if (0 <? length (resp_Data m))%nat then
    [Lock session; ConnWrite session (resp_Data m); Unlock session] ++
    (if is_nil Conn_Write then [] else [SessionClose session])
  else [].

(** *** A session on which the examples run: session 7, fresh, its reader
    about to read and the Send Loop at its select. *)
Definition fresh_session : Session := mkSession 7%N [] true false.

Definition fresh_system : System :=
  mkSystem (mkWorld {[7%N := fresh_session]} []) R_Read S_Select [].

(** *** The lock discipline, in the words of the specification *)

Module LockSpec.

(** The blocking calls of the tasks: the ones C4 lists (a send on the
    duplex channel, a read of the local socket, a write to it) and the
    others they make: a receive on the duplex channel and its half-close,
    the dial of the local port, the publication of a session on the
    readiness channel. *)
Definition blocking_io (e : event) : bool :=
  match e with
  | StreamRecv | StreamSend _ _ | StreamCloseSend | DialTimeout _ _
  | ConnRead _ | ConnWrite _ _ | Publish _ => true
  | _ => false
  end.

(** The same without the write to the local socket. *)
Definition blocking_but_write (e : event) : bool :=
  match e with
  | ConnWrite _ _ => false
  | _ => blocking_io e
  end.

(** [released_before io held t]: along [t], starting with the locks [held]
    taken, no event that [io] picks happens while a lock is taken; the
    locks still taken at the end are returned. *)
Fixpoint released_before (io : event -> bool) (held : list UUID) (t : list event)
  : option (list UUID) :=
  match t with
  | [] => Some held
  | Lock id :: t' => released_before io (id :: held) t'
  | Unlock id :: t' =>
      released_before io (List.filter (fun x => negb (N.eqb x id)) held) t'
  | e :: t' =>
      if io e && negb (Nat.eqb (length held) 0) then None
      else released_before io held t'
  end.

(** The discipline holds along [t], and ends with every lock released. *)
Definition disciplined (io : event -> bool) (t : list event) : Prop :=
  released_before io [] t = Some [].

End LockSpec.

(** ** Part 7: the cluster side: the template, the definitions, the client
    and [run]

    The Kubernetes client, the YAML reader and decoder and the template
    engine are dependencies; what they answer is an input, held by the
    records below.  The calls that reach the cluster or the terminal are
    logged in the order in which they are made. *)

Module Kube.

(** *** Two functions of Go's library *)

(** [strings.TrimLeft(s, cutset)] for a cutset of ASCII bytes: the leading
    bytes of [s] that are in the cutset are dropped. *)
Fixpoint in_cutset (cutset : string) (c : ascii) : bool :=
  match cutset with
  | EmptyString => false
  | String x rest => Ascii.eqb x c || in_cutset rest c
  end.

Fixpoint TrimLeft (s cutset : string) : string :=
  match s with
  | EmptyString => s
  | String c rest => if in_cutset cutset c then TrimLeft rest cutset else s
  end.

(** [fmt.Sprintf("%d", n)] and [fmt.Sprintf("%d:%d", a, b)] *)
Definition Sprintf_d (n : Z) : string := NilZero.string_of_int (Z.to_int n).

Definition Sprintf_d_d (a b : Z) : string :=
  (Sprintf_d a ++ ":" ++ Sprintf_d b)%string.

(** *** [KubeDef = unstructured.Unstructured], by the accessors the code
    uses. *)
Record KubeDef : Type := mkKubeDef {
  APIVersion : string;     (* with Kind: GetObjectKind().GroupVersionKind() *)
  Kind : string;           (* GetKind() *)
  Name : string;           (* GetName() *)
  Namespace : string       (* GetNamespace() *)
}.

Definition SetNamespace (ns : string) (kd : KubeDef) : KubeDef :=
  mkKubeDef (APIVersion kd) (Kind kd) (Name kd) ns.

(** [meta.RESTMapping], as far as it is looked at. *)
Inductive RESTScopeName : Type := RESTScopeNameNamespace | RESTScopeNameRoot.

Record RESTMapping : Type := mkRESTMapping {
  Resource : string;
  Scope_Name : RESTScopeName     (* mapping.Scope.Name() *)
}.

(** [dynamic.ResourceInterface]: a resource, within a namespace or
    cluster-wide. *)
Record ResourceInterface : Type := mkResourceInterface {
  dr_Resource : string;
  dr_Namespace : option string
}.

(** The calls that reach the cluster or the terminal. *)
Inductive call : Type :=
| Apply (dr : ResourceInterface) (name : string) (kd : KubeDef) (answer : error)
                                    (* dr.Apply(ctx, name, kd, fm) *)
| Delete (dr : ResourceInterface) (name : string) (answer : error)
                                    (* dr.Delete(ctx, name, deleteOpts) *)
| Printf (doc : bytes)              (* fmt.Printf("---\n%s", buf) of KubeDump *)
| Watch (ns selector : string)      (* the watch of WaitReady *)
| ForwardPorts (host path : string) (ports : list string)
                                    (* go forwarder.ForwardPorts() *)
| RunTunnel (port : Z) (fps : list Ports.ForwardedPort).
                                    (* Tunnel(ctx, port, forwardedPorts) *)

(** An event of a watch, by its object: an [*unstructured.Unstructured],
    looked at through the phase (if there) and the err that
    [NestedString(..., "status", "phase")] answers for it; or an object
    of another type, as the [*metav1.Status] of an error event is. *)
Inductive WatchEvent : Type :=
| Unstructured (phase : option string) (err : error)
| OtherObject.

(** [*dynamic.DynamicClient]: what the cluster answers, which may depend on
    the calls made before. *)
Record Dynamic : Type := mkDynamic {
  dr_Apply : list call -> ResourceInterface -> string -> KubeDef -> error;
  dr_Delete : list call -> ResourceInterface -> string -> error;
  dr_Watch : list call -> string -> string -> error * list WatchEvent
    (* the error of Watch; then the events, until the channel is closed *)
}.

(** [type Client struct].  The mapper answers by apiVersion and kind. *)
Record Client : Type := mkClient {
  namespace : string;
  DynamicClient : Dynamic;
  Config_Host : string;                        (* c.Config.Host *)
  ClientConfig_Namespace : string * error;     (* ns and err of c.ClientConfig.Namespace() *)
  Mapper_RESTMapping : string -> string -> RESTMapping + err
}.

(** *** [(c *Client) DefaultNS(kd)]: the definition as it is left, and the
    error. *)
Definition DefaultNS (c : Client) (kd : KubeDef) : KubeDef * error :=
  if negb (String.eqb (Namespace kd) "") then (kd, None)
  else if negb (String.eqb (namespace c) "") then
    (SetNamespace (namespace c) kd, None)
  else
    let '(ns, err) := ClientConfig_Namespace c in
    (SetNamespace ns kd, err).

(** *** [NewClient(namespace)] *)
Record Kubeconfig : Type := mkKubeconfig {
  localCfg_ClientConfig : string + err;        (* restCfg, by its Host *)
  localCfg_Namespace : string * error;
  NewDiscoveryClientForConfig : (string -> string -> RESTMapping + err) + err;
                                               (* dc, by the mapper built on it *)
  dynamic_NewForConfig : Dynamic + err
}.

Definition NewClient (namespace : string) (k : Kubeconfig) : Client + err :=
  match localCfg_ClientConfig k with
  | inr err => inr err
  | inl restCfg =>
      match NewDiscoveryClientForConfig k with
      | inr err => inr err
      | inl mapper =>
          match dynamic_NewForConfig k with
          | inr err => inr err
          | inl client =>
              inl (mkClient namespace client restCfg (localCfg_Namespace k) mapper)
          end
      end
  end.

(** *** [(c *Client) WaitReady(pod)]

    The [range] over the events: the error returned, nil after the
    [break] and at the end of the events.  [None] is the panic of the
    type assertion of [event.Object] to [*unstructured.Unstructured] on an
    object of another type. *)
Fixpoint WaitReady_range (events : list WatchEvent) : option error :=
  match events with
  | [] => Some None
  | OtherObject :: _ => None
  | Unstructured phase err :: rest =>
      match err, phase with
      | Some e, _ => Some (Some e)
      | None, None => WaitReady_range rest                  (* !ok: continue *)
      | None, Some phase =>
          if String.eqb phase "Running" then Some None      (* break *)
          else WaitReady_range rest
      end
  end.

(** The error returned and the log; [None] is a panic. *)
Definition WaitReady (c : Client) (pod : KubeDef) (log : list call)
  : option (error * list call) :=
  let selector := ("metadata.name=" ++ Name pod)%string in
  let log' := log ++ [Watch (Namespace pod) selector] in
  match dr_Watch (DynamicClient c) log (Namespace pod) selector with
  | (Some err, _) => Some (Some err, log')
  | (None, events) =>
      match WaitReady_range events with
      | Some err => Some (err, log')
      | None => None
      end
  end.

(** *** [(c *Client) dynamicResource(kd)]: [dr] or [err], and the
    definition as it is left. *)
Definition dynamicResource (c : Client) (kd : KubeDef)
  : (ResourceInterface + err) * KubeDef :=
  match Mapper_RESTMapping c (APIVersion kd) (Kind kd) with
  | inr err => (inr err, kd)
  | inl mapping =>
      match Scope_Name mapping with
      | RESTScopeNameNamespace =>
          (* namespaced resources should specify the namespace *)
          match DefaultNS c kd with
          | (kd, Some err) => (inr err, kd)
          | (kd, None) =>
              (inl (mkResourceInterface (Resource mapping) (Some (Namespace kd))), kd)
          end
      | RESTScopeNameRoot =>
          (* for cluster-wide resources *)
          (inl (mkResourceInterface (Resource mapping) None), SetNamespace "" kd)
      end
  end.

(** *** [YieldKubeDef(buffer)]

    The multi-document reader answers the documents of the buffer one by
    one and then an error, [io.EOF] at the end of the buffer.  The
    iterator hands [(kd, err)] to [yield], the body of the [range] loop,
    which answers whether it wants more; [kd] is nil only beside the error
    of the reader. *)
Inductive yielded : Type :=
| Decoded (kd : KubeDef) (err : error)   (* yield(&kd, err) *)
| Unread (err : err).                    (* yield(nil, err) *)

(** What the decoding of a buffer takes from its libraries. *)
Record YAMLLib : Type := mkYAMLLib {
  multidocReader : bytes -> list bytes * err;
                     (* the answers of Read(): the documents, then the error *)
  decoder_Decode : bytes -> KubeDef * error;
  yaml_Marshal : KubeDef -> bytes * error
}.

Section Iterator.
Variable L : YAMLLib.
Context {S : Type}.
Variable yield : yielded -> S -> S * bool.

(** [None]: [buf[0]] of an empty document panics. *)
Fixpoint YieldKubeDef_loop (docs : list bytes) (final : err) (s : S) : option S :=
  match docs with
  | [] =>
      if err_eqb final EOF then Some s
      else Some (fst (yield (Unread final) s))
  | buf :: rest =>
      match buf with
      | [] => None
      | b :: _ =>
          if Byte.eqb b Byte.x0a then       (* empty YAML (this is line break) *)
            YieldKubeDef_loop rest final s
          else
            match decoder_Decode L buf with
            | (kd, Some err) => Some (fst (yield (Decoded kd (Some err)) s))
            | (kd, None) =>
                let '(s', more) := yield (Decoded kd None) s in
                if more then YieldKubeDef_loop rest final s' else Some s'
            end
      end
  end.

Definition YieldKubeDef (buffer : bytes) (s : S) : option S :=
  let '(docs, final) := multidocReader L buffer in
  YieldKubeDef_loop docs final s.

End Iterator.

(** *** [(c *Client) KubeApply(yaml)] *)

(** The state of the loop: [kds], the log, and what was returned, if
    anything was; a nil map is [None]. *)
Record ApplyState : Type := mkApplyState {
  kds : gmap string KubeDef;
  apply_log : list call;
  returned : option (option (gmap string KubeDef) * error)
}.

(** The body of the [range] loop. *)
Definition KubeApply_body (c : Client) (y : yielded) (st : ApplyState)
  : ApplyState * bool :=
  let return_ r := (mkApplyState (kds st) (apply_log st) (Some r), false) in
  match y with
  | Unread err | Decoded _ (Some err) => return_ (Some (kds st), Some err)
  | Decoded kd None =>
      match dynamicResource c kd with
      | (inr err, _) => return_ (Some (kds st), Some err)
      | (inl dr, kd) =>
          let answer := dr_Apply (DynamicClient c) (apply_log st) dr (Name kd) kd in
          let log := apply_log st ++ [Apply dr (Name kd) kd answer] in
          match answer with
          | Some err => (mkApplyState (kds st) log (Some (None, Some err)), false)
          | None => (mkApplyState (<[Kind kd := kd]> (kds st)) log None, true)
          end
      end
  end.

(** The map (or nil), the error and the log; [None] is a panic. *)
Definition KubeApply (L : YAMLLib) (c : Client) (yaml : bytes) (log : list call)
  : option (option (gmap string KubeDef) * error * list call) :=
  match YieldKubeDef L (KubeApply_body c) yaml (mkApplyState ∅ log None) with
  | None => None
  | Some st =>
      match returned st with
      | Some (m, err) => Some (m, err, apply_log st)
      | None => Some (Some (kds st), None, apply_log st)
      end
  end.

(** *** [(c *Client) KubeDump(buffer)] *)
Definition KubeDump_body (L : YAMLLib) (c : Client) (y : yielded)
    (st : list call * error) : (list call * error) * bool :=
  match y with
  | Unread err | Decoded _ (Some err) => ((fst st, Some err), false)
  | Decoded kd None =>
      match dynamicResource c kd with
      | (inr err, _) => ((fst st, Some err), false)
      | (inl _, kd) =>
          match yaml_Marshal L kd with
          | (_, Some err) => ((fst st, Some err), false)
          | (buf, None) => ((fst st ++ [Printf buf], None), true)
          end
      end
  end.

Definition KubeDump (L : YAMLLib) (c : Client) (buffer : bytes) (log : list call)
  : option (error * list call) :=
  match YieldKubeDef L (KubeDump_body L c) buffer (log, None) with
  | None => None
  | Some (log, err) => Some (err, log)
  end.

(** *** [(c *Client) KubeDelete(kds)]

    [items] are the definitions of the map in the order in which the
    [range] over it meets them.  The result is the error returned early,
    or the errors handed to [xerrors.Append], one per deletion, the nil
    ones among them. *)
Fixpoint KubeDelete_range (c : Client) (items : list KubeDef) (errs : list error)
    (log : list call) : (err + list error) * list call :=
  match items with
  | [] => (inr errs, log)
  | kd :: rest =>
      match dynamicResource c kd with
      | (inr err, _) => (inl err, log)
      | (inl dr, kd) =>
          let answer := dr_Delete (DynamicClient c) log dr (Name kd) in
          KubeDelete_range c rest (errs ++ [answer]) (log ++ [Delete dr (Name kd) answer])
      end
  end.

Definition KubeDelete (c : Client) (items : list KubeDef) (log : list call)
  : (err + list error) * list call :=
  KubeDelete_range c items [] log.

(** *** [(c *Client) PortForward(ctx, pod, port)] *)

(** Which case of the [select] fires. *)
Inductive ForwardSelect : Type :=
| Select_ready                      (* case <-ready *)
| Select_errChan (err : error).     (* case err := <-errChan *)

Record ForwardEnv : Type := mkForwardEnv {
  spdy_RoundTripperFor : error;
  portforward_New : error;
  forward_select : ForwardSelect;
  errOut : string                   (* errOut.String() *)
}.

(** [portforward.ErrLostConnectionToPod] *)
Definition ErrLostConnectionToPod : err := Msg "lost connection to pod".

Definition hostIP (c : Client) : string := TrimLeft (Config_Host c) "htps:/".

Definition PortForward (c : Client) (pod : KubeDef) (port : Z) (env : ForwardEnv)
    (log : list call) : error * list call :=
  match spdy_RoundTripperFor env with
  | Some err => (Some err, log)
  | None =>
      let path := ("/api/v1/namespaces/" ++ Namespace pod ++ "/pods/" ++ Name pod
                   ++ "/portforward")%string in
      let ports := [Sprintf_d_d port port] in
      match portforward_New env with
      | Some err => (Some err, log)
      | None =>
          let log := log ++ [ForwardPorts (hostIP c) path ports] in
          match forward_select env with
          | Select_ready => (None, log)
          | Select_errChan err =>
              if errors_Is err ErrLostConnectionToPod then (err, log)
              else (xerrors_New (errOut env) None, log)
          end
      end
  end.

(** *** [GenerateYAML(path, args)] *)
Record Args : Type := mkArgs {
  args_Port : Z;
  args_Name : string;
  args_ForwardedPorts : list Ports.ForwardedPort
}.

Record TemplateEnv : Type := mkTemplateEnv {
  Stdin_Stat : Z * error;           (* info.Size() and err of os.Stdin.Stat() *)
  ReadAll_Stdin : bytes * error;    (* io.ReadAll(os.Stdin) *)
  ReadFile : string -> bytes * error;
  Execute : bytes -> Args -> option (bytes * error)
    (* the template text parsed and executed on args: what is written to
       the buffer, and err; None when it does not parse, and Must panics *)
}.

(** [tplt] is the package's variable, the default template unless it was
    overwritten.  The result is [buffer] (nil is [None]) and [err]; [None]
    is a panic. *)
Definition GenerateYAML (tplt : bytes) (path : string) (args : Args)
    (env : TemplateEnv) : option (option bytes * error) :=
  match Stdin_Stat env with
  | (_, Some err) => Some (None, Some err)
  | (size, None) =>
      let read : bytes * error :=
        if 0 <? size then ReadAll_Stdin env
        else if negb (String.eqb path "") then ReadFile env path
        else (tplt, None) in
      match read with
      | (_, Some err) => Some (None, Some err)
      | (tplt, None) =>
          match Execute env tplt args with
          | None => None
          | Some (buffer, err) => Some (Some buffer, err)
          end
      end
  end.

(** *** [run(portMapping)] *)

Definition name : string := "kgrok".
Definition port : Z := 28688.

(** The flags of the command line. *)
Record Flags : Type := mkFlags {
  flag_template : string;     (* path *)
  flag_namespace : string;    (* namespace *)
  flag_dry_run : bool         (* dryRun *)
}.

Section Run.
Context `{XE : XErrors}.

Record RunEnv : Type := mkRunEnv {
  tplt : bytes;
  template_env : TemplateEnv;
  kubeconfig : Kubeconfig;
  yaml_lib : YAMLLib;
  range_kds : list KubeDef -> list KubeDef;
    (* the order in which a range over the map meets its definitions *)
  forward_env : ForwardEnv;
  interrupt : Context;              (* ctx at the call of Tunnel *)
  pair_env : nat -> PairEnv;        (* around the i-th forwarded port *)
  tunnel_env : TunnelEnv
}.

(** From the result of [KubeApply] to the [return]; [None] is the panic
    of [WaitReady]. *)
Definition run_deployed (env : RunEnv) (client : Client)
    (forwardedPorts : list Ports.ForwardedPort)
    (definitions : option (gmap string KubeDef)) (err : error) (log : list call)
  : option (error * list call) :=
  match err with
  | Some err => Some (Some err, log)
  | None =>
      match definitions ≫= (.!! "Pod") with
      | None => Some (Some (Msg "no pod deployed aborting"), log)
      | Some pod =>
          match WaitReady client pod log with
          | None => None
          | Some (Some err, log) => Some (Some err, log)
          | Some (None, log) =>
              match PortForward client pod port (forward_env env) log with
              | (Some err, log) => Some (Some err, log)
              | (None, log) =>
                  Some (Tunnel (interrupt env) port
                          (imap (fun i fp => (fp, pair_env env i)) forwardedPorts)
                          (tunnel_env env),
                        log ++ [RunTunnel port forwardedPorts])
              end
          end
      end
  end.

(** [defer func() { client.KubeDelete(definitions) }()]: the definitions of
    the map as the range meets them; a nil map has none. *)
Definition deferred_items (env : RunEnv) (definitions : option (gmap string KubeDef))
  : list KubeDef :=
  match definitions with
  | Some m => range_kds env (map snd (map_to_list m))
  | None => []
  end.

(** The error returned and the log; [None] is a panic, which ends the
    program after the deferred call, if the [defer] was reached. *)
Definition run (flags : Flags) (env : RunEnv) (portMapping : list string)
  : option (option (Ports.PortError + err) * list call) :=
  match Ports.ParsePorts portMapping with
  | (_, Some err) => Some (Some (inl err), [])
  | (forwardedPorts, None) =>
      let args := mkArgs port name forwardedPorts in
      match GenerateYAML (tplt env) (flag_template flags) args (template_env env) with
      | None => None
      | Some (_, Some err) => Some (Some (inr err), [])
      | Some (None, None) => None        (* reading from a nil buffer *)
      | Some (Some yaml, None) =>
          match NewClient (flag_namespace flags) (kubeconfig env) with
          | inr err => Some (Some (inr err), [])
          | inl client =>
              if flag_dry_run flags then
                match KubeDump (yaml_lib env) client yaml [] with
                | None => None
                | Some (err, log) => Some (option_map inr err, log)
                end
              else
                match KubeApply (yaml_lib env) client yaml [] with
                | None => None
                | Some (definitions, err, log) =>
                    match run_deployed env client forwardedPorts definitions err log with
                    | None => None
                    | Some (err, log) =>
                        let '(_, log) :=
                          KubeDelete client (deferred_items env definitions) log in
                        Some (option_map inr err, log)
                    end
                end
          end
      end
  end.

End Run.

End Kube.

(** ** Part 8: more words for what the tasks do *)

(** A turn of the Receive Loop stops the loop when [st.Recv()] fails or
    the context of the stream is found done. *)
Definition stops (env : RecvEnv) : bool :=
  negb (is_nil (snd (st_Recv env))) || Done (st_Context env).

(** Among the frames sent for a session, one that says [ShouldClose] is
    followed only by frames that say so too. *)
Definition close_is_final (fs : list SocketDataRequest) : Prop :=
  forall pre f post,
    fs = pre ++ f :: post -> ShouldClose f = true ->
    Forall (fun g => ShouldClose g = true) post.

(** Session 7 once its connection has ended and the Send Loop has sent
    what it was handed: the reader found the end of the connection at its
    first read, published the session and returned; the Send Loop took
    the session, found nothing in its buffer and sent the one frame. *)
Definition ended_system : System :=
  mkSystem
    (mkWorld (<[7%N := mkSession 7%N [] false false]>
                (<[7%N := mkSession 7%N [] false false]> {[7%N := fresh_session]}))
             [ConnRead 7%N; Publish 7%N; Lock 7%N; BufRead 7%N []; OpenRead 7%N false;
              Unlock 7%N; StreamSend (mkRequest 0 "7" 0 [] true TCP) None])
    R_Returned S_Select [].

(** Session 7 registered at the peer's second try: the dial for the
    first frame under its id failed and the Receive Loop answered with a
    frame that says [ShouldClose]; the dial for the next frame under the
    same id succeeded. *)
Definition redialled_system : System :=
  mkSystem
    (mkWorld {[7%N := fresh_session]}
             [StreamRecv; DialTimeout 8080 500;
              StreamSend (mkRequest 0 "7" 0 [] true TCP) None;
              StreamRecv; DialTimeout 8080 500; GoReadFromSession 7%N])
    R_Read S_Select [].

(** That session once its reader has read one byte and then the end of
    the connection, and the Send Loop has sent what it was handed. *)
Definition redialled_ended : System :=
  mkSystem
    (mkWorld (<[7%N := mkSession 7%N [] false false]>
                (<[7%N := mkSession 7%N [] false false]>
                   (<[7%N := mkSession 7%N [] true false]>
                      (<[7%N := mkSession 7%N [Byte.x68] true false]>
                         {[7%N := fresh_session]}))))
             [StreamRecv; DialTimeout 8080 500;
              StreamSend (mkRequest 0 "7" 0 [] true TCP) None;
              StreamRecv; DialTimeout 8080 500; GoReadFromSession 7%N;
              ConnRead 7%N; Lock 7%N; Unlock 7%N; Publish 7%N;
              Lock 7%N; BufRead 7%N [Byte.x68]; OpenRead 7%N true; Unlock 7%N;
              StreamSend (mkRequest 0 "7" 0 [Byte.x68] false TCP) None;
              ConnRead 7%N; Publish 7%N;
              Lock 7%N; BufRead 7%N []; OpenRead 7%N false; Unlock 7%N;
              StreamSend (mkRequest 0 "7" 0 [] true TCP) None])
    R_Returned S_Select [[Byte.x68]].

Section Closing.
Context `{UU : UUIDs}.
Variable session : UUID.

(** The session as [NewSessionFromStream] has just registered it, its
    reader about to read and the Send Loop at its select, whatever went
    out under its id before: the Receive Loop answers a frame whose dial
    fails with a frame of its own under that id, and the peer may try the
    id again. *)
Definition registered (sys : System) : Prop :=
  openSessions (world sys) !! session = Some (mkSession session [] true false) /\
  reader sys = R_Read /\ sender sys = S_Select.

(** What holds of every state the system of Part 5 can reach from one
    whose trace is [t0], about the [Open] flag of the session and the
    [ShouldClose] of the frames sent for it since: the flag only goes from
    true to false, a frame is cut with the flag of its time, and the
    reader's last publication is of a session that is not open any
    more. *)
Definition closing (t0 : list event) (sys : System) : Prop :=
  exists s t,
    trace (world sys) = t0 ++ t /\
    openSessions (world sys) !! session = Some s /\
    Id s = session /\
    let fs := frames_of session t in
    close_is_final fs /\
    (Exists (fun f => ShouldClose f = true) fs -> Open s = false) /\
    (forall resp, sender sys = S_Send resp ->
       RequestId resp = uuid_String session /\
       (ShouldClose resp = true -> Open s = false) /\
       (Exists (fun f => ShouldClose f = true) fs -> ShouldClose resp = true)) /\
    (reader sys = R_Publish true \/ reader sys = R_Returned -> Open s = false) /\
    (reader sys = R_Returned ->
       match sender sys with
       | S_Send resp => ShouldClose resp = true
       | S_Select | S_Returned =>
           exists pre f, fs = pre ++ [f] /\ ShouldClose f = true
       | _ => True
       end).

End Closing.

(** *** Words about the cluster side *)

Module KubeSpec.
Import Kube.

(** A document that begins with a line break. *)
Definition blank (buf : bytes) : bool :=
  match buf with
  | b :: _ => Byte.eqb b Byte.x0a
  | [] => false
  end.

(** A body of the [range] loop that keeps what it is handed and always
    asks for more. *)
Definition collect (y : yielded) (ys : list yielded) : list yielded * bool :=
  (ys ++ [y], true).

(** The definitions whose [Apply] the cluster accepted, in the order of
    the log. *)
Definition applied (log : list call) : list KubeDef :=
  omap (fun c => match c with
                 | Apply _ _ kd None => Some kd
                 | _ => None
                 end) log.

(** The map of [KubeApply] after these definitions: under each kind, the
    last of them of that kind. *)
Definition kept (defs : list KubeDef) : gmap string KubeDef :=
  fold_left (fun m kd => <[Kind kd := kd]> m) defs ∅.

(** The last of [defs] of its kind. *)
Definition last_of_kind (defs : list KubeDef) (kd : KubeDef) : Prop :=
  exists pre post,
    defs = pre ++ kd :: post /\ Forall (fun x => Kind x <> Kind kd) post.

(** An [Apply] the cluster accepted, of a definition whose namespace is
    settled, to the interface that [dynamicResource] answers for it. *)
Definition accepted (c : Client) (x : call) : Prop :=
  exists dr kd, x = Apply dr (Name kd) kd None /\ dynamicResource c kd = (inl dr, kd).

(** The [Delete] of a definition: by its name, on the interface that
    [dynamicResource] answers for it. *)
Definition deletes (c : Client) (kd : KubeDef) (x : call) : Prop :=
  exists dr a, fst (dynamicResource c kd) = inl dr /\ x = Delete dr (Name kd) a.

(** A [Delete] that undoes an [Apply] of the log: of the same name on the
    same interface. *)
Definition undoes (log : list call) (kd : KubeDef) (x : call) : Prop :=
  exists dr a, x = Delete dr (Name kd) a /\ In (Apply dr (Name kd) kd None) log.

(** What the cluster answered to a call. *)
Definition answer_of (x : call) : error :=
  match x with
  | Apply _ _ _ a | Delete _ _ a => a
  | _ => None
  end.

(** What [KubeApply] returns, from the log [log0] on: the map, the error
    and the log. *)
Definition KubeApply_returns (c : Client) (log0 : list call)
    (res : option (gmap string KubeDef)) (err : error) (log : list call) : Prop :=
  exists calls,
    log = log0 ++ calls /\
    match res with
    | Some m => Forall (accepted c) calls /\ m = kept (applied calls)
    | None =>
        exists calls0 dr kd x,
          calls = calls0 ++ [Apply dr (Name kd) kd (Some x)] /\ err = Some x /\
          Forall (accepted c) calls0 /\ dynamicResource c kd = (inl dr, kd)
    end.

Definition is_Apply (c : call) : Prop :=
  match c with Apply _ _ _ _ => True | _ => False end.

Definition is_Delete (c : call) : Prop :=
  match c with Delete _ _ _ => True | _ => False end.

Definition is_Printf (c : call) : Prop :=
  match c with Printf _ => True | _ => False end.

(** An event of the watch over which [WaitReady] goes on: its object is
    unstructured and its phase is read, or is not there, and is not
    Running. *)
Definition waits (ev : WatchEvent) : Prop :=
  exists phase, ev = Unstructured phase None /\ phase <> Some "Running".

Definition is_Unstructured (ev : WatchEvent) : Prop :=
  match ev with Unstructured _ _ => True | OtherObject => False end.

(** The calls of [run] between the last [Apply] and the first [Delete],
    when none of them fails. *)
Definition deployed_calls (pod : KubeDef) (host : string)
    (fps : list Ports.ForwardedPort) : list call :=
  [Watch (Namespace pod) ("metadata.name=" ++ Name pod)%string;
   ForwardPorts host
     ("/api/v1/namespaces/" ++ Namespace pod ++ "/pods/" ++ Name pod ++ "/portforward")%string
     [Sprintf_d_d port port];
   RunTunnel port fps].

(** *** A cluster on which the examples run.  A buffer is its documents,
    one per byte; a document is a service ([s]), a pod ([p]) or a
    cluster role ([r]), all named kgrok; pods live in namespaces, as
    services do, and cluster roles do not.  The cluster refuses to apply
    whatever [refused] picks. *)
Definition example_decode (buf : bytes) : KubeDef * error :=
  match buf with
  | [b] =>
      if Byte.eqb b Byte.x73 then (mkKubeDef "v1" "Service" "kgrok" "", None)
      else if Byte.eqb b Byte.x70 then (mkKubeDef "v1" "Pod" "kgrok" "", None)
      else if Byte.eqb b Byte.x72 then
        (mkKubeDef "rbac.authorization.k8s.io/v1" "ClusterRole" "kgrok" "", None)
      else (mkKubeDef "" "" "" "", Some (Msg "cannot decode"))
  | _ => (mkKubeDef "" "" "" "", Some (Msg "cannot decode"))
  end.

Definition example_lib : YAMLLib :=
  mkYAMLLib (fun buffer => (map (fun b => [b]) buffer, EOF))
            example_decode
            (fun kd => ([], None)).

Definition example_mapper (apiVersion kind : string) : RESTMapping + err :=
  if String.eqb kind "Service" then inl (mkRESTMapping "services" RESTScopeNameNamespace)
  else if String.eqb kind "Pod" then inl (mkRESTMapping "pods" RESTScopeNameNamespace)
  else if String.eqb kind "ClusterRole" then
    inl (mkRESTMapping "clusterroles" RESTScopeNameRoot)
  else inr (Msg "no matches for kind").

Definition example_dynamic (refused : KubeDef -> bool) : Dynamic :=
  mkDynamic (fun _ _ _ kd => if refused kd then Some (Msg "forbidden") else None)
            (fun _ _ _ => None)
            (fun _ _ _ => (None, [Unstructured (Some "Pending") None;
                                  Unstructured (Some "Running") None])).

Definition example_client (refused : KubeDef -> bool) : Client :=
  mkClient "" (example_dynamic refused) "https://10.0.0.1:6443" ("default", None)
           example_mapper.

Definition example_kubeconfig (refused : KubeDef -> bool) : Kubeconfig :=
  mkKubeconfig (inl "https://10.0.0.1:6443") ("default", None) (inl example_mapper)
               (inl (example_dynamic refused)).

(** What [run] does on that cluster for a service and a pod, when nothing
    fails and the tunnel ends. *)
Definition example_log : list call :=
  [Apply (mkResourceInterface "services" (Some "default")) "kgrok"
         (mkKubeDef "v1" "Service" "kgrok" "default") None;
   Apply (mkResourceInterface "pods" (Some "default")) "kgrok"
         (mkKubeDef "v1" "Pod" "kgrok" "default") None;
   Watch "default" "metadata.name=kgrok";
   ForwardPorts "10.0.0.1:6443" "/api/v1/namespaces/default/pods/kgrok/portforward"
                ["28688:28688"];
   RunTunnel 28688 [Ports.mkForwardedPort 8080 8080];
   Delete (mkResourceInterface "services" (Some "default")) "kgrok" None;
   Delete (mkResourceInterface "pods" (Some "default")) "kgrok" None].

(** The definitions on the standard input, rendered as they are; the
    tunnel starts, and ends without an error when it is interrupted. *)
Definition example_env (stdin : bytes) (refused : KubeDef -> bool) : RunEnv :=
  mkRunEnv []
           (mkTemplateEnv (Z.of_nat (length stdin), None) (stdin, None)
                          (fun _ => ([], Some (Msg "no such file")))
                          (fun tplt _ => Some (tplt, None)))
           (example_kubeconfig refused)
           example_lib
           (fun l => l)
           (mkForwardEnv None None Select_ready "")
           Background
           (fun _ => mkPairEnv Background None (fun _ => None) None None)
           (mkTunnelEnv None Background []).

End KubeSpec.

(** * Theorems *)

(** ** The parser *)

Module PortsFacts.
Import Ports Spec.

Lemma Split_nonempty s sep : Split s sep <> [].
Proof.
  destruct s as [|c s]; simpl; [discriminate|].
  destruct (Ascii.eqb c sep); [discriminate|].
  destruct (Split s sep); discriminate.
Qed.

Lemma length_Split s : length (Split s ":") = S (colons s).
Proof.
  induction s as [|c s IH]; simpl; [reflexivity|].
  destruct (Ascii.eqb c ":"); simpl; [now rewrite IH|].
  destruct (Split s ":") eqn:E; simpl in *; congruence.
Qed.

Lemma is_digit_not_colon c : is_digit c = true -> Ascii.eqb c ":" = false.
Proof.
  intros H. destruct (Ascii.eqb_spec c ":") as [->|]; [|reflexivity].
  discriminate H.
Qed.

Lemma Split_digits s : all_digits s = true -> Split s ":" = [s].
Proof.
  induction s as [|c s IH]; simpl; [reflexivity|].
  intros [Hc Hs]%andb_prop. rewrite (is_digit_not_colon _ Hc), (IH Hs). reflexivity.
Qed.

Lemma Split_colon r : all_digits r = true -> Split (":" ++ r) ":" = [""; r].
Proof.
  intros Hr. change (":" ++ r)%string with (String ":" r). simpl.
  now rewrite (Split_digits _ Hr).
Qed.

Lemma Split_digits_colon l r :
  all_digits l = true -> all_digits r = true -> Split (l ++ ":" ++ r) ":" = [l; r].
Proof.
  intros Hl Hr. induction l as [|c l IH].
  - now apply Split_colon.
  - simpl in Hl. apply andb_prop in Hl as [Hc Hl].
    change (String c l ++ ":" ++ r)%string with (String c (l ++ ":" ++ r)%string). simpl.
    rewrite (is_digit_not_colon _ Hc). now rewrite (IH Hl).
Qed.

Lemma digit_of_digit c :
  is_digit c = true ->
  digit_of (Z.of_N (N_of_ascii c)) = Some (Z.of_N (N_of_ascii c) - 48).
Proof. unfold is_digit, digit_of. intros ->. reflexivity. Qed.

Lemma digit_of_below_ten c d :
  digit_of c = Some d -> d < 10 -> 48 <= c <= 57 /\ d = c - 48.
Proof.
  unfold digit_of. destruct ((48 <=? c) && (c <=? 57)) eqn:E.
  - intros [= <-] _. apply andb_prop in E as [?%Z.leb_le ?%Z.leb_le]. lia.
  - destruct ((97 <=? lower c) && (lower c <=? 122)) eqn:E'; [|discriminate].
    intros [= <-] ?. apply andb_prop in E' as [?%Z.leb_le _]. lia.
Qed.

Lemma decimal_ge s : all_digits s = true -> forall n, 0 <= n -> n <= decimal s n.
Proof.
  induction s as [|c s IH]; simpl; [lia|].
  intros [Hc Hs]%andb_prop n Hn.
  unfold is_digit in Hc. apply andb_prop in Hc as [?%Z.leb_le ?%Z.leb_le].
  specialize (IH Hs (n * 10 + (Z.of_N (N_of_ascii c) - 48))). lia.
Qed.

(** The digit loop on decimal digits whose value fits. *)
Lemma ParseUint_loop_digits s :
  all_digits s = true -> forall n, 0 <= n -> decimal s n <= 65535 ->
  ParseUint_loop s 10 (maxUint64 / 10 + 1) (2 ^ 16 - 1) n = (decimal s n, None).
Proof.
  induction s as [|c s IH]; simpl; [reflexivity|].
  intros [Hc Hs]%andb_prop n Hn Hv.
  rewrite (digit_of_digit _ Hc).
  unfold is_digit in Hc. apply andb_prop in Hc as [?%Z.leb_le ?%Z.leb_le].
  set (d := Z.of_N (N_of_ascii c) - 48) in *.
  assert (Hd : 0 <= d <= 9) by (unfold d; lia).
  pose proof (decimal_ge s Hs (n * 10 + d) ltac:(lia)) as Hge.
  assert (Hn' : n * 10 + d <= 65535) by lia.
  destruct (d >=? 10) eqn:E1; [apply Z.geb_le in E1; lia|].
  destruct (n >=? maxUint64 / 10 + 1) eqn:E2.
  { apply Z.geb_le in E2. change (maxUint64 / 10 + 1) with 1844674407370955162 in E2. lia. }
  rewrite (Z.mod_small (n * 10)) by (change (2 ^ 64) with 18446744073709551616; lia).
  rewrite (Z.mod_small (n * 10 + d)) by (change (2 ^ 64) with 18446744073709551616; lia).
  destruct (n * 10 + d <? n * 10) eqn:E3; [apply Z.ltb_lt in E3; lia|].
  destruct (n * 10 + d >? 2 ^ 16 - 1) eqn:E4.
  { apply Z.gtb_lt in E4. change (2 ^ 16 - 1) with 65535 in E4. lia. }
  simpl. apply IH; [assumption|lia|assumption].
Qed.

(** Conversely, the digit loop ends without an error only on such digits. *)
Lemma ParseUint_loop_ok s : forall n v,
  0 <= n <= 65535 ->
  ParseUint_loop s 10 (maxUint64 / 10 + 1) (2 ^ 16 - 1) n = (v, None) ->
  all_digits s = true /\ v = decimal s n /\ v <= 65535.
Proof.
  induction s as [|c s IH]; simpl; intros n v Hn.
  - intros [= <-]. repeat split; lia.
  - destruct (digit_of (Z.of_N (N_of_ascii c))) as [d|] eqn:Ed; [|discriminate].
    destruct (d >=? 10) eqn:E1; [discriminate|].
    destruct (n >=? maxUint64 / 10 + 1) eqn:E2; [discriminate|].
    assert (d < 10) as Hd.
    { destruct (Z.geb_spec d 10); [discriminate|lia]. }
    destruct (digit_of_below_ten _ _ Ed Hd) as [Hc ->].
    rewrite (Z.mod_small (n * 10)) by (change (2 ^ 64) with 18446744073709551616; lia).
    rewrite (Z.mod_small (n * 10 + _)) by (change (2 ^ 64) with 18446744073709551616; lia).
    destruct (_ || _) eqn:E3; [discriminate|].
    apply orb_false_elim in E3 as [_ E4].
    assert (n * 10 + (Z.of_N (N_of_ascii c) - 48) <= 65535) as Hle.
    { destruct (Z.gtb_spec (n * 10 + (Z.of_N (N_of_ascii c) - 48)) (2 ^ 16 - 1));
        [discriminate|]. change (2 ^ 16 - 1) with 65535 in *. lia. }
    intros H. apply IH in H as (Hs & -> & Hv); [|lia].
    repeat split; try assumption.
    unfold is_digit. apply andb_true_intro.
    split; [apply andb_true_intro; split; apply Z.leb_le; lia|assumption].
Qed.

(** [strconv.ParseUint(s, 10, 16)] succeeds exactly on the port numbers. *)
Lemma ParseUint_port s v :
  ParseUint s 10 16 = (v, None) <-> port_number s v.
Proof.
  unfold port_number. split.
  - destruct s as [|c s]; [discriminate|].
    unfold ParseUint.
    destruct (ParseUint_loop _ _ _ _ _) as [n [k|]] eqn:E; [discriminate|].
    intros [= <-]. apply ParseUint_loop_ok in E as (? & ? & ?); [|lia].
    repeat split; auto; discriminate.
  - intros (Hne & Hd & Hv & Hle). destruct s as [|c s]; [contradiction|].
    unfold ParseUint. rewrite ParseUint_loop_digits; [now subst|assumption|lia|lia].
Qed.

Lemma ParseUint_error s :
  (forall v, ~ port_number s v) ->
  exists n k, ParseUint s 10 16 = (n, Some (mkNumError "ParseUint" s k)).
Proof.
  intros H. destruct (ParseUint s 10 16) as [n [e|]] eqn:E.
  - exists n. unfold ParseUint in E. destruct s as [|c s].
    + injection E as <- <-. eauto.
    + destruct (ParseUint_loop _ _ _ _ _) as [n' [k|]]; [|discriminate].
      injection E as <- <-. eauto.
  - apply ParseUint_port in E. now apply H in E.
Qed.

Lemma uint16_port v : 0 <= v <= 65535 -> uint16 v = v.
Proof. intros H. unfold uint16. apply Z.mod_small. change (2 ^ 16) with 65536. lia. Qed.

Lemma port_number_range s v : port_number s v -> 0 <= v <= 65535.
Proof.
  intros (_ & Hd & <- & Hle). split; [|assumption].
  now apply (decimal_ge s Hd 0).
Qed.

Lemma port_number_fun s v v' : port_number s v -> port_number s v' -> v = v'.
Proof. intros (_ & _ & <- & _) (_ & _ & <- & _). reflexivity. Qed.

Lemma parsePort_denotes spec fp : denotes spec fp -> parsePort spec = inl fp.
Proof.
  intros H. unfold parsePort. destruct H as [s r Hs Hr|l r vl vr Hl Hr Hpos|r vr Hr Hpos].
  - destruct (Hs) as (_ & Hd & _). rewrite (Split_digits _ Hd).
    pose proof (port_number_range _ _ Hs).
    apply ParseUint_port in Hs. rewrite Hs.
    destruct (Z.eqb_spec r 0); [lia|]. now rewrite !uint16_port by lia.
  - destruct (Hl) as (Hne & Hdl & _). destruct (Hr) as (_ & Hdr & _).
    rewrite (Split_digits_colon _ _ Hdl Hdr).
    destruct (String.eqb_spec l ""); [contradiction|].
    pose proof (port_number_range _ _ Hl). pose proof (port_number_range _ _ Hr).
    apply ParseUint_port in Hl, Hr. rewrite Hl, Hr.
    destruct (Z.eqb_spec vr 0); [lia|]. now rewrite !uint16_port by lia.
  - destruct (Hr) as (_ & Hdr & _). rewrite (Split_colon _ Hdr). cbn -[ParseUint uint16].
    pose proof (port_number_range _ _ Hr).
    apply ParseUint_port in Hr. rewrite Hr.
    change (ParseUint "0" 10 16) with (0, @None NumError). cbv iota.
    destruct (Z.eqb_spec vr 0); [lia|]. now rewrite !uint16_port by lia.
Qed.

Lemma ParsePorts_loop_denotes ports fps :
  Forall2 denotes ports fps ->
  forall acc, ParsePorts_loop ports acc = (acc ++ fps, None).
Proof.
  induction 1 as [|spec fp ports fps Hd _ IH]; intros acc; simpl.
  - now rewrite app_nil_r.
  - rewrite (parsePort_denotes _ _ Hd), IH, <- app_assoc. reflexivity.
Qed.

(** C7.  Every sequence of well-formed specs parses to the full sequence
    of the pairs they stand for: a bare REMOTE gives the same value twice,
    LOCAL:REMOTE gives both, :REMOTE gives local 0. *)
Theorem ParsePorts_well_formed ports fps :
  Forall2 denotes ports fps -> ParsePorts ports = (fps, None).
Proof. intros H. exact (ParsePorts_loop_denotes ports fps H []). Qed.

Lemma ParsePorts_well_formed_witness :
  ParsePorts ["8080"; ":5000"; "3000:80"] =
  ([mkForwardedPort 8080 8080; mkForwardedPort 0 5000; mkForwardedPort 3000 80], None).
Proof.
  apply ParsePorts_well_formed.
  constructor; [|constructor; [|constructor; [|constructor]]].
  - apply (denotes_REMOTE "8080" 8080); [|lia].
    repeat split; [discriminate|lia].
  - apply (denotes_colon_REMOTE "5000" 5000); [|lia].
    repeat split; [discriminate|lia].
  - apply (denotes_LOCAL_REMOTE "3000" "80" 3000 80); [| |lia];
      (repeat split; [discriminate|lia]).
Defined.

(** *** Errors *)

Lemma Split_no_colon spec : colons spec = 0%nat -> Split spec ":" = [spec].
Proof.
  induction spec as [|c s IH]; simpl; [reflexivity|].
  destruct (Ascii.eqb c ":"); [discriminate|]. simpl. intros H. now rewrite (IH H).
Qed.

Lemma Split_shape spec :
  match Split spec ":" with
  | [] => False
  | [p0] => colons spec = 0%nat /\ p0 = spec
  | [p0; p1] => colons spec = 1%nat
  | _ => (2 <= colons spec)%nat
  end.
Proof.
  pose proof (length_Split spec) as HL.
  destruct (Split spec ":") as [|p0 [|p1 [|p2 ps]]] eqn:E; simpl in HL; try lia.
  assert (colons spec = 0%nat) as H0 by lia. split; [assumption|].
  rewrite (Split_no_colon _ H0) in E. congruence.
Qed.

Lemma ParsePorts_loop_cases ports : forall acc,
  (exists fps, ParsePorts_loop ports acc = (acc ++ fps, None) /\
               Forall2 (fun p fp => parsePort p = inl fp) ports fps) \/
  (exists before spec after e,
      ports = before ++ spec :: after /\
      Forall (fun p => exists fp, parsePort p = inl fp) before /\
      parsePort spec = inr e /\
      ParsePorts_loop ports acc = ([], Some e)).
Proof.
  induction ports as [|p ports IH]; intros acc; simpl.
  - left. exists []. rewrite app_nil_r. split; [reflexivity|constructor].
  - destruct (parsePort p) as [fp|e] eqn:E.
    + destruct (IH (acc ++ [fp])) as [(fps & H1 & H2)|(b & sp & a & e & -> & Hb & Hs & H)].
      * left. exists (fp :: fps). rewrite H1, <- app_assoc. split; [reflexivity|].
        constructor; assumption.
      * right. exists (p :: b), sp, a, e. repeat split; try assumption.
        constructor; [eauto|assumption].
    + right. exists [], p, ports, e. repeat split; try assumption. constructor.
Qed.

(** What one spec gives, case by case. *)
Lemma parsePort_cases spec :
  ((2 <= colons spec)%nat -> parsePort spec = inr (ErrInvalidFormat spec)) /\
  ((colons spec <= 1)%nat ->
   (forall v, ~ port_number (local_text spec) v) ->
   exists nerr, parsePort spec = inr (ErrParsingLocal (local_text spec) nerr) /\
                Num nerr = local_text spec) /\
  ((colons spec <= 1)%nat ->
   forall vl, port_number (local_text spec) vl ->
   ((forall v, ~ port_number (remote_text spec) v) ->
    exists nerr, parsePort spec = inr (ErrParsingRemote (remote_text spec) nerr) /\
                 Num nerr = remote_text spec) /\
   (port_number (remote_text spec) 0 -> parsePort spec = inr ErrRemoteZero) /\
   (forall vr, port_number (remote_text spec) vr -> 0 < vr ->
               parsePort spec = inl (mkForwardedPort vl vr))).
Proof.
  unfold parsePort, local_text, remote_text.
  pose proof (Split_shape spec) as HS.
  destruct (Split spec ":") as [|p0 [|p1 [|p2 ps]]] eqn:E; [contradiction| | |].
  - destruct HS as [H0 ->]. split; [lia|]. split.
    + intros _ Hno. destruct (ParseUint_error _ Hno) as (n & k & ->). eauto.
    + intros _ vl Hl. pose proof (port_number_range _ _ Hl) as Hrg.
      pose proof Hl as Hl'. apply ParseUint_port in Hl'. rewrite Hl'.
      split; [intros Hno; now apply Hno in Hl|]. split.
      * intros Hz. rewrite (port_number_fun _ _ _ Hl Hz). reflexivity.
      * intros vr Hr Hpos. rewrite (port_number_fun _ _ _ Hl Hr).
        destruct (Z.eqb_spec vr 0); [lia|]. pose proof (port_number_range _ _ Hr).
        now rewrite !uint16_port by lia.
  - split; [lia|]. split.
    + intros _ Hno. destruct (ParseUint_error _ Hno) as (n & k & ->). eauto.
    + intros _ vl Hl. pose proof (port_number_range _ _ Hl) as Hrg.
      pose proof Hl as Hl'. apply ParseUint_port in Hl'. rewrite Hl'.
      split; [|split].
      * intros Hno. destruct (ParseUint_error _ Hno) as (n & k & ->). eauto.
      * intros Hz. apply ParseUint_port in Hz. now rewrite Hz.
      * intros vr Hr Hpos. pose proof (port_number_range _ _ Hr).
        apply ParseUint_port in Hr. rewrite Hr.
        destruct (Z.eqb_spec vr 0); [lia|]. now rewrite !uint16_port by lia.
  - split; [reflexivity|]. split; intros; lia.
Qed.

Lemma ParseUint_fails s n nerr :
  ParseUint s 10 16 = (n, Some nerr) -> Num nerr = s /\ forall v, ~ port_number s v.
Proof.
  intros H. split.
  - unfold ParseUint in H. destruct s as [|c s]; [now injection H as <- <-|].
    destruct (ParseUint_loop _ _ _ _ _) as [n' [k|]]; [|discriminate].
    now injection H as <- <-.
  - intros v Hv. apply ParseUint_port in Hv. congruence.
Qed.

(** An error comes out of a spec only in the case that explains it. *)
Lemma parsePort_explains spec e : parsePort spec = inr e -> explains spec e.
Proof.
  unfold parsePort, explains, local_text, remote_text.
  pose proof (Split_shape spec) as HS.
  destruct (Split spec ":") as [|p0 [|p1 [|p2 ps]]] eqn:E; [contradiction| | |].
  - destruct HS as [H0 ->].
    destruct (ParseUint spec 10 16) as [n [nerr|]] eqn:EL.
    + intros [= <-]. destruct (ParseUint_fails _ _ _ EL). repeat split; auto; lia.
    + destruct (Z.eqb_spec n 0) as [->|]; [|discriminate].
      intros [= <-]. apply ParseUint_port in EL.
      split; [lia|]. split; [eauto|assumption].
  - set (l := if String.eqb p0 "" then "0" else p0) in *.
    destruct (ParseUint l 10 16) as [n [nerr|]] eqn:EL.
    + intros [= <-]. destruct (ParseUint_fails _ _ _ EL). repeat split; auto; lia.
    + apply ParseUint_port in EL.
      destruct (ParseUint p1 10 16) as [m [nerr|]] eqn:ER.
      * intros [= <-]. destruct (ParseUint_fails _ _ _ ER).
        split; [lia|]. split; [eauto|]. repeat split; assumption.
      * destruct (Z.eqb_spec m 0) as [->|]; [|discriminate].
        intros [= <-]. apply ParseUint_port in ER.
        split; [lia|]. split; [eauto|assumption].
  - intros [= <-]. split; [reflexivity|assumption].
Qed.

(** C8, as the code has it.  [ParsePorts] answers either the full sequence,
    one pair per spec and no error, or no pair at all and the error of the
    first spec that fails.  A spec with two colons or more is refused as a
    whole; otherwise the local text is parsed first and the remote text
    second, and the error quotes the text that failed, not the spec; a
    remote value of 0 is refused once both texts have parsed. *)
Theorem ParsePorts_all_or_first_error :
  (forall ports,
      (exists fps, ParsePorts ports = (fps, None) /\
                   Forall2 (fun p fp => parsePort p = inl fp) ports fps) \/
      (exists before spec after e,
          ports = before ++ spec :: after /\
          Forall (fun p => exists fp, parsePort p = inl fp) before /\
          parsePort spec = inr e /\ explains spec e /\
          ParsePorts ports = ([], Some e))) /\
  (forall spec,
      ((2 <= colons spec)%nat -> parsePort spec = inr (ErrInvalidFormat spec)) /\
      ((colons spec <= 1)%nat ->
       (forall v, ~ port_number (local_text spec) v) ->
       exists nerr, parsePort spec = inr (ErrParsingLocal (local_text spec) nerr) /\
                    Num nerr = local_text spec) /\
      ((colons spec <= 1)%nat ->
       forall vl, port_number (local_text spec) vl ->
       ((forall v, ~ port_number (remote_text spec) v) ->
        exists nerr, parsePort spec = inr (ErrParsingRemote (remote_text spec) nerr) /\
                     Num nerr = remote_text spec) /\
       (port_number (remote_text spec) 0 -> parsePort spec = inr ErrRemoteZero) /\
       (forall vr, port_number (remote_text spec) vr -> 0 < vr ->
                   parsePort spec = inl (mkForwardedPort vl vr)))).
Proof.
  split.
  - intros ports. unfold ParsePorts.
    destruct (ParsePorts_loop_cases ports []) as [H|(b & sp & a & e & ? & ? & Hs & ?)].
    + left. exact H.
    + right. exists b, sp, a, e. repeat split; try assumption.
      now apply parsePort_explains.
  - exact parsePort_cases.
Qed.

Lemma ParsePorts_all_or_first_error_witness :
  parsePort "1:2:3" = inr (ErrInvalidFormat "1:2:3") /\
  parsePort "80:0" = inr ErrRemoteZero.
Proof.
  split.
  - apply (proj2 ParsePorts_all_or_first_error "1:2:3"). simpl. lia.
  - apply (proj2 ParsePorts_all_or_first_error "80:0") with (vl := 80).
    + simpl. lia.
    + repeat split; [discriminate|lia].
    + repeat split; [discriminate|lia].
Defined.

(** C8 as it is worded does not hold: the error for ["abc:80"] quotes
    [abc], not the spec, and ["x:0"], whose remote value is 0, is refused
    for its local text, not for the 0. *)
Lemma ParsePorts_error_quotes_the_text_not_the_spec :
  (exists e, snd (ParsePorts ["abc:80"]) = Some e /\
             FormatError e /\ ~ names e "abc:80") /\
  (port_number (remote_text "x:0") 0 /\
   exists e, snd (ParsePorts ["x:0"]) = Some e /\ ~ ValidationError e).
Proof.
  split.
  - eexists. split; [reflexivity|]. split; [exact I|]. simpl. discriminate.
  - split.
    + repeat split; [discriminate|lia].
    + eexists. split; [reflexivity|]. unfold ValidationError. discriminate.
Qed.

End PortsFacts.

(** ** The orchestrator *)

Module TunnelFacts.
Import TunnelSpec.

Lemma propagate_done ctx parent : Done ctx = true -> propagate ctx parent = ctx.
Proof. unfold propagate. now intros ->. Qed.

Lemma propagate_quiet ctx parent : Done parent = false -> propagate ctx parent = ctx.
Proof. unfold propagate. intros ->. now destruct (Done ctx). Qed.

Lemma cancel_done ctx cause : Done ctx = true -> cancel ctx cause = ctx.
Proof. unfold cancel. now intros ->. Qed.

Section WithLibrary.
Context `{XE : XErrors}.

(** Once the shared context is done nothing changes it: the first
    cancellation wins. *)
Lemma Tunnel_launch_done fps : forall ctx launched,
  Done ctx = true -> fst (Tunnel_launch fps ctx launched) = ctx.
Proof.
  induction fps as [|[fp env] fps IH]; intros ctx launched Hd; simpl; [reflexivity|].
  rewrite (propagate_done _ _ Hd).
  destruct (client_InitTunnel env); simpl; [now apply cancel_done|].
  destruct (stream_Send_req env _); simpl; [now apply cancel_done|].
  now apply IH.
Qed.

(** When every pair initiates, every pair is launched. *)
Lemma Tunnel_launch_all fps : forall ctx launched,
  all_initiated fps ->
  snd (Tunnel_launch fps ctx launched) = launched ++ map snd fps.
Proof.
  induction fps as [|[fp env] fps IH]; intros ctx launched Hi; simpl.
  - now rewrite app_nil_r.
  - inversion Hi as [|? ? [Hinit Hsend] Hi']; subst. simpl in *.
    rewrite Hinit, Hsend, IH, <- app_assoc by assumption. reflexivity.
Qed.

Lemma Tunnel_launch_quiet fps : forall ctx launched,
  all_initiated fps -> parent_quiet fps ->
  fst (Tunnel_launch fps ctx launched) = ctx.
Proof.
  induction fps as [|[fp env] fps IH]; intros ctx launched Hi Hq; simpl; [reflexivity|].
  inversion Hi as [|? ? [Hinit Hsend] Hi']; subst.
  inversion Hq as [|? ? Hp Hq']; subst. simpl in *.
  rewrite Hinit, Hsend, (propagate_quiet _ _ Hp). now apply IH.
Qed.

(** The first pair that fails to initiate cancels with its cause, and no
    pair after it is launched. *)
Lemma Tunnel_launch_failure before fp env after : forall ctx launched,
  all_initiated before -> parent_quiet (before ++ [(fp, env)]) ->
  Done ctx = false ->
  (client_InitTunnel env <> None \/ stream_Send_req env (Tunnel_req fp) <> None) ->
  Tunnel_launch (before ++ (fp, env) :: after) ctx launched =
  (mkContext true (Some Canceled)
     (match client_InitTunnel env with
      | Some _ => xerrors_New "failed initializing tunnel" (client_InitTunnel env)
      | None => xerrors_New "failed sending initial tunnel request"
                  (stream_Send_req env (Tunnel_req fp))
      end),
   launched ++ map snd before).
Proof.
  induction before as [|[fp0 env0] before IH]; intros ctx launched Hi Hq Hd Hf; simpl.
  - inversion Hq as [|? ? Hp _]; subst. simpl in Hp.
    rewrite (propagate_quiet _ _ Hp), app_nil_r. unfold cancel. rewrite Hd.
    destruct (client_InitTunnel env) as [e|]; [reflexivity|].
    destruct (stream_Send_req env _) as [e|]; [reflexivity|].
    destruct Hf; congruence.
  - inversion Hi as [|? ? [Hinit Hsend] Hi']; subst.
    inversion Hq as [|? ? Hp Hq']; subst. simpl in *.
    rewrite Hinit, Hsend, (propagate_quiet _ _ Hp), IH, <- app_assoc by assumption.
    reflexivity.
Qed.

(** With no error among them, the Send Loops' results append to what the
    library makes of nil and nil. *)
Lemma Tunnel_wait_nil n : forall running next,
  Append None None = None ->
  Forall (fun env => SendData_returns env = None) running ->
  Tunnel_wait n running next None = None.
Proof.
  induction n as [|n IH]; intros running next HA Hr; cbn [Tunnel_wait]; [reflexivity|].
  destruct (running !! _) as [env|] eqn:E; [|reflexivity].
  rewrite (Forall_lookup_1 _ _ _ _ Hr E), HA.
  apply IH; [exact HA|]. now apply Forall_delete.
Qed.

Lemma Tunnel_errs_nil launched next :
  Append None None = None ->
  Forall (fun env => SendData_returns env = None) launched ->
  Tunnel_errs launched next = None.
Proof. intros HA Hl. now apply Tunnel_wait_nil. Qed.

(** Every launched Send Loop has its result appended, once: the results
    are appended in some order of the launched pairs. *)
Lemma Tunnel_wait_order n : forall running next errs,
  n = length running ->
  exists order,
    Permutation order running /\
    Tunnel_wait n running next errs =
    fold_left (fun errs env => Append errs (SendData_returns env)) order errs.
Proof.
  induction n as [|n IH]; intros running next errs Hn; cbn [Tunnel_wait].
  - destruct running; [|discriminate]. now exists [].
  - assert (hd 0 next mod length running < length running)%nat as Hk
      by (apply Nat.mod_upper_bound; lia).
    destruct (lookup_lt_is_Some_2 _ _ Hk) as [env E]. rewrite E.
    destruct (IH (delete (hd 0 next mod length running)%nat running) (tl next)
                 (Append errs (SendData_returns env))) as (order & Hp & ->).
    { rewrite length_delete by eauto. lia. }
    exists (env :: order). split; [|reflexivity].
    rewrite Hp. symmetry. now apply delete_Permutation.
Qed.

(** The launched pairs are the first ones of the list. *)
Lemma Tunnel_launch_prefix fps : forall ctx launched,
  exists k, snd (Tunnel_launch fps ctx launched) = launched ++ map snd (firstn k fps).
Proof.
  induction fps as [|[fp env] fps IH]; intros ctx launched; simpl.
  - exists 0%nat. now rewrite app_nil_r.
  - destruct (client_InitTunnel env); [exists 0%nat; simpl; now rewrite app_nil_r|].
    destruct (stream_Send_req env _); [exists 0%nat; simpl; now rewrite app_nil_r|].
    destruct (IH (propagate ctx (parent_then env)) (launched ++ [env])) as [k Hk].
    exists (S k). rewrite Hk, <- app_assoc. reflexivity.
Qed.

Lemma launched_no_SendData_error fps ctx :
  no_SendData_error fps ->
  Forall (fun env => SendData_returns env = None) (snd (Tunnel_launch fps ctx [])).
Proof.
  intros H. destruct (Tunnel_launch_prefix fps ctx []) as [k ->]. simpl.
  apply Forall_fmap. eapply Forall_take in H. exact H.
Qed.

Context `{UU : UUIDs}.

(** C1.  [Tunnel] loses the failure it recorded.  When a pair fails to
    initiate (its duplex channel does not open, or does not take the
    first frame), [Tunnel] cancels the shared context with that failure as
    the cause and goes on to return
    [xerrors.WithWrapper(context.Cause(ctx), errs)].  The Send Loops
    launched before the failure end without an error, so [errs] is nil,
    and go-xerrors answers nil for a nil wrapped error: the cause of the
    context is the failure, and [Tunnel] returns nil. *)
Theorem Tunnel_loses_the_initiation_failure parent port before fp e after env :
  nil_stays_nil XE -> Append None None = None ->
  grpc_Dial env = None -> Done parent = false ->
  all_initiated before -> parent_quiet (before ++ [(fp, e)]) ->
  no_SendData_error before ->
  client_InitTunnel e <> None \/ stream_Send_req e (Tunnel_req fp) <> None ->
  let fps := before ++ (fp, e) :: after in
  Cause (Tunnel_ctx parent fps env) =
    match client_InitTunnel e with
    | Some _ => xerrors_New "failed initializing tunnel" (client_InitTunnel e)
    | None => xerrors_New "failed sending initial tunnel request"
                (stream_Send_req e (Tunnel_req fp))
    end /\
  Cause (Tunnel_ctx parent fps env) <> None /\
  Tunnel parent port fps env = None.
Proof.
  intros Hnil HA Hdial Hd Hi Hq Hn Hf fps. subst fps.
  assert (Cause (Tunnel_ctx parent (before ++ (fp, e) :: after) env) =
          match client_InitTunnel e with
          | Some _ => xerrors_New "failed initializing tunnel" (client_InitTunnel e)
          | None => xerrors_New "failed sending initial tunnel request"
                      (stream_Send_req e (Tunnel_req fp))
          end) as Hcause.
  { unfold Tunnel_ctx, WithCancelCause. rewrite (propagate_quiet _ _ Hd).
    rewrite Tunnel_launch_failure by auto. reflexivity. }
  split; [exact Hcause|]. split.
  - rewrite Hcause. destruct (client_InitTunnel e) as [x|]; [discriminate|].
    destruct (stream_Send_req e (Tunnel_req fp)) as [x|]; [discriminate|].
    destruct Hf as [Hf|Hf]; now contradiction Hf.
  - unfold Tunnel. rewrite Hdial. unfold WithCancelCause.
    rewrite (propagate_quiet _ _ Hd), Tunnel_launch_failure by auto. cbn [snd app].
    rewrite Tunnel_errs_nil; [apply Hnil|exact HA|].
    apply Forall_fmap. exact Hn.
Qed.

(** The Receive Loops' results reach neither the shared context nor the
    accumulated errors. *)
Lemma Tunnel_launch_same_but_ReceiveData fps fps' :
  Forall2 same_but_ReceiveData fps fps' ->
  forall ctx launched launched',
    Forall2 (fun e e' => SendData_returns e = SendData_returns e') launched launched' ->
    fst (Tunnel_launch fps ctx launched) = fst (Tunnel_launch fps' ctx launched') /\
    Forall2 (fun e e' => SendData_returns e = SendData_returns e')
            (snd (Tunnel_launch fps ctx launched))
            (snd (Tunnel_launch fps' ctx launched')).
Proof.
  induction 1 as [|[fp e] [fp' e'] fps fps' (Hfp & Hp & Hi & Hs & Hr) _ IH];
    intros ctx launched launched' Hl; simpl in *.
  - auto.
  - rewrite <- Hfp, <- Hp, <- Hi, <- Hs.
    destruct (client_InitTunnel e); [auto|].
    destruct (stream_Send_req e _); [auto|].
    apply IH. apply Forall2_app; [assumption|]. constructor; [assumption|constructor].
Qed.

Lemma Tunnel_wait_same n : forall running running' next errs,
  Forall2 (fun e e' => SendData_returns e = SendData_returns e') running running' ->
  Tunnel_wait n running next errs = Tunnel_wait n running' next errs.
Proof.
  induction n as [|n IH]; intros running running' next errs Hr; cbn [Tunnel_wait];
    [reflexivity|].
  rewrite <- (Forall2_length _ _ _ Hr).
  destruct (running !! _) as [e|] eqn:E.
  - destruct (Forall2_lookup_l _ _ _ _ _ Hr E) as (e' & -> & ->).
    apply IH. now apply Forall2_delete.
  - apply lookup_ge_None in E. rewrite (Forall2_length _ _ _ Hr) in E at 1.
    apply lookup_ge_None in E. now rewrite E.
Qed.

Lemma Tunnel_errs_same launched launched' next :
  Forall2 (fun e e' => SendData_returns e = SendData_returns e') launched launched' ->
  Tunnel_errs launched next = Tunnel_errs launched' next.
Proof.
  intros Hl. unfold Tunnel_errs. rewrite <- (Forall2_length _ _ _ Hl).
  now apply Tunnel_wait_same.
Qed.

(** C9.  What a pair's [ReceiveData] returns is discarded: it changes
    neither the shared context nor what [Tunnel] returns, which, once
    [grpc.Dial] has succeeded, is made of the cancellation cause and of
    the results of the launched Send Loops only, each appended once. *)
Theorem Tunnel_discards_ReceiveData parent port fps fps' env :
  Forall2 same_but_ReceiveData fps fps' ->
  Tunnel_ctx parent fps env = Tunnel_ctx parent fps' env /\
  Tunnel parent port fps env = Tunnel parent port fps' env /\
  (grpc_Dial env = None ->
   exists order,
     Permutation order (snd (Tunnel_launch fps (WithCancelCause parent) [])) /\
     Tunnel parent port fps env =
       WithWrapper (Cause (Tunnel_ctx parent fps env))
         (fold_left (fun errs e => Append errs (SendData_returns e)) order None)).
Proof.
  intros H.
  destruct (Tunnel_launch_same_but_ReceiveData fps fps' H (WithCancelCause parent) [] [])
    as [Hctx Hl]; [constructor|].
  unfold Tunnel, Tunnel_ctx. rewrite Hctx.
  split; [reflexivity|]. split.
  - destruct (grpc_Dial env); [reflexivity|].
    now rewrite (Tunnel_errs_same _ _ _ Hl).
  - intros ->. rewrite <- Hctx.
    destruct (Tunnel_wait_order
                (length (snd (Tunnel_launch fps (WithCancelCause parent) [])))
                (snd (Tunnel_launch fps (WithCancelCause parent) []))
                (finished env) None eq_refl) as (order & Hp & Ho).
    exists order. split; [exact Hp|]. unfold Tunnel_errs. now rewrite Ho.
Qed.

End WithLibrary.

Lemma Tunnel_loses_the_initiation_failure_witness :
  Cause (Tunnel_ctx Background one_pair_failing
                    (mkTunnelEnv None Background [])) =
    Some (Wrapped (Msg "failed initializing tunnel") (Msg "unavailable")) /\
  Cause (Tunnel_ctx Background one_pair_failing
                    (mkTunnelEnv None Background [])) <> None /\
  Tunnel (XE := xerrors_strict) Background 28688 one_pair_failing
         (mkTunnelEnv None Background []) = None.
Proof.
  apply (Tunnel_loses_the_initiation_failure (XE := xerrors_strict) Background 28688 []
           (Ports.mkForwardedPort 8080 8080)
           (mkPairEnv Background (Some (Msg "unavailable")) (fun _ => None) None None)
           [] (mkTunnelEnv None Background [])).
  - intros wrapper. now destruct wrapper.
  - reflexivity.
  - reflexivity.
  - reflexivity.
  - constructor.
  - constructor; [reflexivity|constructor].
  - constructor.
  - left. discriminate.
Defined.

Lemma Tunnel_discards_ReceiveData_witness :
  Tunnel (XE := xerrors_strict) plainly_cancelled 28688
    [(Ports.mkForwardedPort 8080 8080,
      mkPairEnv Background None (fun _ => None) (Some (Msg "error reading from stream")) None)]
    (mkTunnelEnv None plainly_cancelled [0%nat]) =
  Tunnel (XE := xerrors_strict) plainly_cancelled 28688
    [(Ports.mkForwardedPort 8080 8080, mkPairEnv Background None (fun _ => None) None None)]
    (mkTunnelEnv None plainly_cancelled [0%nat]).
Proof.
  refine (proj1 (proj2 (Tunnel_discards_ReceiveData (XE := xerrors_strict)
                          plainly_cancelled 28688 _ _ _ _))).
  constructor; [|constructor]. repeat split.
Defined.

End TunnelFacts.

(** ** The turns of the loops *)

Module TurnFacts.
Import LockSpec.

(** *** Running a task *)

Lemma run_bind {A B} (m : M A) (k : A -> M B) w :
  (m ≫= k) w = match m w with Ok a w' => k a w' | Panic => Panic end.
Proof. reflexivity. Qed.

Lemma run_ret {A} (a : A) w : (mret a : M A) w = Ok a w.
Proof. reflexivity. Qed.

Lemma run_emit e w : emit e w = Ok tt (mkWorld (openSessions w) (trace w ++ [e])).
Proof. reflexivity. Qed.

Lemma run_deref sid s w : openSessions w !! sid = Some s -> deref sid w = Ok s w.
Proof. unfold deref. now intros ->. Qed.

Lemma run_store sid s w :
  store sid s w = Ok tt (mkWorld (<[sid := s]> (openSessions w)) (trace w)).
Proof. reflexivity. Qed.

(** One step of a task: a bind, an emitted event, a return or a store. *)
Ltac run_step :=
  first [rewrite run_bind | rewrite run_emit | rewrite run_ret | rewrite run_store];
  cbv beta iota; cbn [trace openSessions].
Ltac run := repeat run_step.

Lemma set_Buf_same s : set_Buf (Buf s) s = s.
Proof. now destruct s. Qed.

(** Reading into a slice as long as the buffer takes all of it, leaves
    nothing, and reports no error. *)
Lemma Buffer_Read_all b :
  Buffer_Read b (make_bytes (Buffer_Len b)) = ([], b, length b, None).
Proof.
  unfold Buffer_Read, Buffer_Len, make_bytes. destruct b as [|x b]; [reflexivity|].
  rewrite repeat_length, Nat.min_id.
  rewrite skipn_all, firstn_all.
  rewrite (skipn_all2 (repeat _ _)) by (rewrite repeat_length; lia).
  now rewrite app_nil_r.
Qed.

Section WithLibraries.
Context `{XE : XErrors} `{UU : UUIDs}.

Lemma run_SendData_drain sid s w :
  openSessions w !! sid = Some s ->
  SendData_drain sid w =
  Ok (inl (mkRequest 0 (uuid_String (Id s)) 0 (Buf s) (negb (Open s)) TCP))
     (mkWorld (<[sid := set_Buf [] s]> (openSessions w))
              (trace w ++ [Lock sid; BufRead sid (Buf s); OpenRead sid (Open s);
                           Unlock sid])).
Proof.
  intros Hs. unfold SendData_drain.
  rewrite run_bind, run_emit, run_bind, (run_deref sid s) by exact Hs.
  rewrite Buffer_Read_all, firstn_all. run.
  rewrite (run_deref sid (set_Buf [] s)) by (cbn; apply lookup_insert_eq).
  run. cbn [set_Buf Id Open]. rewrite <- !app_assoc. reflexivity.
Qed.

Lemma run_Session_Close sid s w :
  openSessions w !! sid = Some s ->
  Session_Close sid w =
  Ok tt (mkWorld (<[sid := set_Closed s]> (openSessions w))
                 (trace w ++ [SessionClose sid])).
Proof.
  intros Hs. unfold Session_Close.
  rewrite run_bind, (run_deref sid s) by exact Hs.
  rewrite run_bind, run_emit, run_store. reflexivity.
Qed.

Lemma run_handleStreamData m sid s cw w :
  openSessions w !! sid = Some s ->
  handleStreamData m sid cw w =
  Ok tt (mkWorld (if handleStreamData_closes m s cw
                  then <[sid := set_Closed s]> (openSessions w)
                  else openSessions w)
                 (trace w ++ handleStreamData_trace m sid s cw)).
Proof.
  intros Hs. unfold handleStreamData, handleStreamData_closes, handleStreamData_trace.
  rewrite run_bind, (run_deref sid s) by exact Hs.
  destruct (Open s); cbn [negb orb].
  - destruct (0 <? length (resp_Data m))%nat; cbn [andb].
    + run. destruct cw as [e|]; cbn [is_nil negb].
      * rewrite (run_Session_Close sid s) by exact Hs. cbn [trace openSessions].
        now rewrite <- !app_assoc.
      * run. rewrite <- !app_assoc, app_nil_r. reflexivity.
    + run. rewrite app_nil_r. now destruct w.
  - now rewrite (run_Session_Close sid s) by exact Hs.
Qed.

(** *** The Send Loop *)

(** C3, as the code has it.  For a session taken off the channel, one
    turn of [SendData] locks it, takes the whole of its buffer and reads
    its [Open] flag while it holds the lock, unlocks it, and only then
    sends the one frame made of them; the session is left with an empty
    buffer.  The loop goes on when the send succeeds and ends with the
    error of the send when it fails.  For a session already closed whose
    buffer is empty the turn changes nothing in the session, and the
    frame, which is sent all the same, has no payload and says
    [ShouldClose]. *)
Theorem SendData_drains_then_sends sid s senv w :
  openSessions w !! sid = Some s ->
  selected senv = Select_session sid ->
  let resp := mkRequest 0 (uuid_String (Id s)) 0 (Buf s) (negb (Open s)) TCP in
  let w' := mkWorld (<[sid := set_Buf [] s]> (openSessions w))
                    (trace w ++ [Lock sid; BufRead sid (Buf s); OpenRead sid (Open s);
                                 Unlock sid; StreamSend resp (stream_Send senv)]) in
  SendData_turn senv w =
    Ok (match stream_Send senv with
        | Some e => Return (Some e)
        | None => Continue
        end) w' /\
  (stream_Send senv = None ->
   forall rest, SendData (senv :: rest) w = SendData rest w') /\
  (forall e, stream_Send senv = Some e ->
   forall rest, SendData (senv :: rest) w = Ok (Some (Some e)) w') /\
  (Open s = false -> Buf s = [] ->
   openSessions w' = openSessions w /\
   resp = mkRequest 0 (uuid_String (Id s)) 0 [] true TCP).
Proof.
  intros Hs Hsel resp w'.
  assert (SendData_turn senv w =
          Ok (match stream_Send senv with
              | Some e => Return (Some e)
              | None => Continue
              end) w') as Hturn.
  { unfold SendData_turn. rewrite Hsel, run_bind, (run_SendData_drain sid s) by exact Hs.
    rewrite run_bind, run_emit. cbn [trace openSessions].
    subst w' resp. rewrite <- app_assoc.
    destruct (stream_Send senv); reflexivity. }
  split; [exact Hturn|]. split; [|split].
  - intros Hok rest. cbn [SendData]. rewrite run_bind, Hturn, Hok. reflexivity.
  - intros e He rest. cbn [SendData]. rewrite run_bind, Hturn, He. reflexivity.
  - intros Hopen Hbuf. subst w' resp. cbn [openSessions]. split.
    + rewrite <- Hbuf, set_Buf_same. now apply insert_id.
    + now rewrite Hopen, Hbuf.
Qed.

(** *** The Receive Loop *)

Lemma run_ReceiveData_recv_failed port env w m e :
  st_Recv env = (m, Some e) ->
  ReceiveData_turn port env w =
  Ok (Return (xerrors_New "error reading from stream" (Some e)))
     (mkWorld (openSessions w) (trace w ++ [StreamRecv])).
Proof. intros H. unfold ReceiveData_turn. run. rewrite H. now run. Qed.

Lemma run_ReceiveData_done port env w m :
  st_Recv env = (m, None) -> Done (st_Context env) = true ->
  ReceiveData_turn port env w =
  Ok (Return (if errors_Is (Err (st_Context env)) Canceled || is_nil (Err (st_Context env))
              then st_CloseSend env
              else WithWrapper (Err (st_Context env)) (st_CloseSend env)))
     (mkWorld (openSessions w) (trace w ++ [StreamRecv; StreamCloseSend])).
Proof.
  intros H Hd. unfold ReceiveData_turn. run. rewrite H, Hd.
  destruct (_ || _); run; now rewrite <- app_assoc.
Qed.

Lemma run_ReceiveData_dial_failed port env w m id perr derr :
  st_Recv env = (m, None) ->
  Done (st_Context env) = false ->
  uuid_Parse (resp_RequestId m) = (id, perr) ->
  openSessions w !! id = None ->
  net_DialTimeout env = Some derr ->
  ReceiveData_turn port env w =
  Ok Continue
     (mkWorld (openSessions w)
        (trace w ++ [StreamRecv; DialTimeout port 500;
                     StreamSend (mkRequest 0 (uuid_String id) 0 [] true TCP)
                                (st_Send env)])).
Proof.
  intros H Hd Hp Hnone Hdial.
  unfold ReceiveData_turn. run. rewrite H, Hd, Hp. run.
  unfold GetSession. cbn [openSessions]. rewrite Hnone. run. rewrite Hdial. run.
  now rewrite <- !app_assoc.
Qed.

(** C6.  A frame for an id the registry does not know, whose local dial
    (500 ms) fails, is answered by one send of the frame made of that id,
    [ShouldClose] and no payload; the registry is left as it was and the
    loop goes on, whatever that send answers. *)
Theorem ReceiveData_refuses_unknown_session port env w m id perr derr :
  st_Recv env = (m, None) ->
  Done (st_Context env) = false ->
  uuid_Parse (resp_RequestId m) = (id, perr) ->
  openSessions w !! id = None ->
  net_DialTimeout env = Some derr ->
  let reply := mkRequest 0 (uuid_String id) 0 [] true TCP in
  let w' := mkWorld (openSessions w)
                    (trace w ++ [StreamRecv; DialTimeout port 500;
                                 StreamSend reply (st_Send env)]) in
  ReceiveData_turn port env w = Ok Continue w' /\
  (forall rest, ReceiveData port (env :: rest) w = ReceiveData port rest w').
Proof.
  intros H Hd Hp Hnone Hdial reply w'.
  pose proof (run_ReceiveData_dial_failed port env w m id perr derr
                H Hd Hp Hnone Hdial) as Hturn.
  split; [exact Hturn|].
  intros rest. cbn [ReceiveData]. now rewrite run_bind, Hturn.
Qed.

Lemma run_ReceiveData_new_session port env w m id perr :
  st_Recv env = (m, None) ->
  Done (st_Context env) = false ->
  uuid_Parse (resp_RequestId m) = (id, perr) ->
  openSessions w !! id = None ->
  net_DialTimeout env = None ->
  exists sessions',
    ReceiveData_turn port env w =
    Ok Continue
       (mkWorld sessions'
          (trace w ++ [StreamRecv; DialTimeout port 500; GoReadFromSession id] ++
           handleStreamData_trace m id (mkSession id [] true false) (Conn_Write env))).
Proof.
  intros H Hd Hp Hnone Hdial. eexists.
  unfold ReceiveData_turn. run. rewrite H, Hd, Hp. run.
  unfold GetSession. cbn [openSessions]. rewrite Hnone. run. rewrite Hdial.
  unfold NewSessionFromStream. run.
  rewrite (run_handleStreamData m id (mkSession id [] true false))
    by (cbn [openSessions]; apply lookup_insert_eq).
  run. rewrite <- !app_assoc. reflexivity.
Qed.

Lemma run_ReceiveData_known port env w m id perr s0 :
  st_Recv env = (m, None) ->
  Done (st_Context env) = false ->
  uuid_Parse (resp_RequestId m) = (id, perr) ->
  openSessions w !! id = Some s0 ->
  exists sessions',
    ReceiveData_turn port env w =
    Ok Continue
       (mkWorld sessions'
          (trace w ++ StreamRecv ::
           handleStreamData_trace m id
             (if resp_ShouldClose m then set_Open false s0 else s0) (Conn_Write env))).
Proof.
  intros H Hd Hp Hs.
  unfold ReceiveData_turn. run. rewrite H, Hd, Hp. run.
  unfold GetSession. cbn [openSessions]. rewrite Hs. run.
  destruct (resp_ShouldClose m); eexists.
  - run. rewrite (run_deref id s0) by exact Hs. run.
    rewrite (run_handleStreamData m id (set_Open false s0))
      by (cbn [openSessions]; apply lookup_insert_eq).
    run. rewrite <- app_assoc. reflexivity.
  - run. rewrite (run_handleStreamData m id s0) by exact Hs.
    run. rewrite <- app_assoc. reflexivity.
Qed.

(** A turn that received a frame and did not find the context done goes on
    to the next turn. *)
Lemma ReceiveData_turn_continues port env w m :
  st_Recv env = (m, None) -> Done (st_Context env) = false ->
  exists w', ReceiveData_turn port env w = Ok Continue w'.
Proof.
  intros H Hd.
  destruct (uuid_Parse (resp_RequestId m)) as [id perr] eqn:Hp.
  destruct (openSessions w !! id) as [s0|] eqn:Hs.
  - destruct (run_ReceiveData_known port env w m id perr s0) as [? ->]; eauto.
  - destruct (net_DialTimeout env) as [derr|] eqn:Hdial.
    + eexists. eapply run_ReceiveData_dial_failed; eauto.
    + destruct (run_ReceiveData_new_session port env w m id perr) as [? ->]; eauto.
Qed.

(** C2, as the code has it.  A turn of [ReceiveData] returns in two cases
    only.  When [st.Recv()] fails, it returns that failure under the
    message "error reading from stream".  When a frame was received and
    the context is found done, it half-closes and returns: the result of
    the half-close itself if [Err()] is [context.Canceled] (as it is after
    any [cancel], with or without an error for a cause), that result
    wrapped in [Err()] otherwise.  In every other case, a failed dial
    included, the loop goes on. *)
Theorem ReceiveData_turn_returns port env w :
  (forall m e, st_Recv env = (m, Some e) ->
     ReceiveData_turn port env w =
     Ok (Return (xerrors_New "error reading from stream" (Some e)))
        (mkWorld (openSessions w) (trace w ++ [StreamRecv]))) /\
  (forall m, st_Recv env = (m, None) -> Done (st_Context env) = true ->
     ReceiveData_turn port env w =
     Ok (Return (if errors_Is (Err (st_Context env)) Canceled
                    || is_nil (Err (st_Context env))
                 then st_CloseSend env
                 else WithWrapper (Err (st_Context env)) (st_CloseSend env)))
        (mkWorld (openSessions w) (trace w ++ [StreamRecv; StreamCloseSend]))) /\
  (forall m cause, st_Recv env = (m, None) ->
     st_Context env = cancel Background cause ->
     ReceiveData_turn port env w =
     Ok (Return (st_CloseSend env))
        (mkWorld (openSessions w) (trace w ++ [StreamRecv; StreamCloseSend]))) /\
  (forall m, st_Recv env = (m, None) -> Done (st_Context env) = false ->
     exists w', ReceiveData_turn port env w = Ok Continue w').
Proof.
  split; [|split; [|split]].
  - intros m e. apply run_ReceiveData_recv_failed.
  - intros m. apply run_ReceiveData_done.
  - intros m cause H Hc.
    rewrite (run_ReceiveData_done port env w m H) by now rewrite Hc.
    now rewrite Hc.
  - intros m. apply ReceiveData_turn_continues.
Qed.

(** *** The reader *)

Lemma run_ReadFromSession_append sid s chunk fault w :
  openSessions w !! sid = Some s ->
  ReadFromSession_append sid chunk fault w =
  Ok (if (0 <? length chunk)%nat then fault else None)
     (mkWorld (<[sid := set_Buf (Buf s ++ (if is_nil fault then chunk else [])) s]>
                 (openSessions w))
              (trace w ++ [Lock sid; Unlock sid])).
Proof.
  intros Hs. unfold ReadFromSession_append. run.
  rewrite (run_deref sid s) by exact Hs. run.
  destruct chunk as [|b chunk]; cbn [length Nat.ltb Nat.leb].
  - run. rewrite <- app_assoc. destruct fault; cbn [is_nil];
      rewrite app_nil_r, set_Buf_same, insert_id by exact Hs; reflexivity.
  - unfold Session_Buf_Write, Buffer_Write. destruct fault as [e|]; cbn [is_nil]; run;
      rewrite <- app_assoc; [rewrite app_nil_r|]; reflexivity.
Qed.

Lemma run_ReadFromSession_failed sid s chunk e renv w :
  openSessions w !! sid = Some s ->
  conn_Read renv = (chunk, Some e) ->
  ReadFromSession_turn sid renv w =
  Ok (Return tt)
     (mkWorld (<[sid := set_Open false s]> (openSessions w))
              (trace w ++ [ConnRead sid; Publish sid])).
Proof.
  intros Hs Hr. unfold ReadFromSession_turn, ReadFromSession_failed. run.
  rewrite Hr. run. rewrite (run_deref sid s) by exact Hs. run.
  now rewrite <- app_assoc.
Qed.

Lemma run_ReadFromSession_done sid s chunk renv w :
  openSessions w !! sid = Some s ->
  conn_Read renv = (chunk, None) -> Closed s = true ->
  ReadFromSession_turn sid renv w =
  Ok (Return tt) (mkWorld (openSessions w) (trace w ++ [ConnRead sid])).
Proof.
  intros Hs Hr Hc. unfold ReadFromSession_turn. run.
  rewrite Hr. run. rewrite (run_deref sid s) by exact Hs. rewrite Hc. now run.
Qed.

Lemma run_ReadFromSession_read sid s chunk renv w :
  openSessions w !! sid = Some s ->
  conn_Read renv = (chunk, None) -> Closed s = false ->
  let fault := Buf_Write_fault renv in
  let failed := (0 <? length chunk)%nat && negb (is_nil fault) in
  ReadFromSession_turn sid renv w =
  Ok (if failed then Return tt else Continue)
     (mkWorld (<[sid := set_Buf (Buf s ++ (if is_nil fault then chunk else [])) s]>
                 (openSessions w))
              (trace w ++ [ConnRead sid; Lock sid; Unlock sid] ++
               (if failed then [] else [Publish sid]))).
Proof.
  intros Hs Hr Hc fault failed. subst fault failed.
  unfold ReadFromSession_turn. run.
  rewrite Hr. run. rewrite (run_deref sid s) by exact Hs. rewrite Hc.
  run. rewrite (run_ReadFromSession_append sid s) by exact Hs. run.
  destruct (0 <? length chunk)%nat, (Buf_Write_fault renv); cbn [is_nil negb andb]; run;
    rewrite <- !app_assoc; try rewrite app_nil_r; reflexivity.
Qed.

(** C10.  When the append to the session buffer reports an error, the
    reader returns at once: [Open] is as it was, the buffer too, and the
    session is not published, so nothing wakes the Send Loop for it.  A
    failed read of the connection, in contrast, sets [Open] to false and
    publishes the session once. *)
Theorem ReadFromSession_append_error_is_silent sid s chunk e renv w :
  openSessions w !! sid = Some s ->
  Closed s = false ->
  conn_Read renv = (chunk, None) ->
  chunk <> [] ->
  Buf_Write_fault renv = Some e ->
  ReadFromSession_turn sid renv w =
    Ok (Return tt)
       (mkWorld (openSessions w) (trace w ++ [ConnRead sid; Lock sid; Unlock sid])) /\
  (forall chunk' e' renv',
      conn_Read renv' = (chunk', Some e') ->
      ReadFromSession_turn sid renv' w =
      Ok (Return tt)
         (mkWorld (<[sid := set_Open false s]> (openSessions w))
                  (trace w ++ [ConnRead sid; Publish sid]))).
Proof.
  intros Hs Hc Hr Hne Hf. split.
  - rewrite (run_ReadFromSession_read sid s chunk) by assumption.
    rewrite Hf. cbn [is_nil negb].
    destruct chunk as [|b chunk]; [contradiction|]. cbn [length Nat.ltb Nat.leb andb].
    rewrite !app_nil_r, set_Buf_same, insert_id by exact Hs. reflexivity.
  - intros chunk' e' renv' Hr'. now apply (run_ReadFromSession_failed sid s chunk' e').
Qed.

(** *** The lock *)

Lemma disciplined_handleStreamData m sid s cw :
  disciplined blocking_but_write (handleStreamData_trace m sid s cw).
Proof.
  unfold disciplined, handleStreamData_trace.
  destruct (Open s), (0 <? length (resp_Data m))%nat, cw;
    cbn; rewrite ?N.eqb_refl; reflexivity.
Qed.

Lemma released_before_app io t1 t2 held :
  released_before io held (t1 ++ t2) =
  match released_before io held t1 with
  | Some held' => released_before io held' t2
  | None => None
  end.
Proof.
  revert held. induction t1 as [|e t1 IH]; intros held; [reflexivity|].
  destruct e; cbn; try apply IH;
    destruct (_ && _); try reflexivity; apply IH.
Qed.

Lemma disciplined_app io t1 t2 :
  disciplined io t1 -> disciplined io t2 -> disciplined io (t1 ++ t2).
Proof. unfold disciplined. intros H1 H2. now rewrite released_before_app, H1. Qed.

Lemma ReceiveData_turn_disciplined port env w :
  exists r w' t,
    ReceiveData_turn port env w = Ok r w' /\
    trace w' = trace w ++ t /\ disciplined blocking_but_write t.
Proof.
  destruct (st_Recv env) as [m [e|]] eqn:H.
  - do 3 eexists. split; [now apply (run_ReceiveData_recv_failed port env w m e)|].
    split; reflexivity.
  - destruct (Done (st_Context env)) eqn:Hd.
    + do 3 eexists. split; [now apply (run_ReceiveData_done port env w m)|].
      split; reflexivity.
    + destruct (uuid_Parse (resp_RequestId m)) as [id perr] eqn:Hp.
      destruct (openSessions w !! id) as [s0|] eqn:Hs.
      * destruct (run_ReceiveData_known port env w m id perr s0) as [ss ->]; auto.
        do 3 eexists. split; [reflexivity|]. split; [reflexivity|].
        apply (disciplined_app _ [StreamRecv]); [reflexivity|].
        apply disciplined_handleStreamData.
      * destruct (net_DialTimeout env) as [derr|] eqn:Hdial.
        -- do 3 eexists.
           split; [now apply (run_ReceiveData_dial_failed port env w m id perr derr)|].
           split; reflexivity.
        -- destruct (run_ReceiveData_new_session port env w m id perr) as [ss ->]; auto.
           do 3 eexists. split; [reflexivity|]. split; [reflexivity|].
           apply disciplined_app; [reflexivity|]. apply disciplined_handleStreamData.
Qed.

Lemma SendData_turn_disciplined senv w r w' :
  SendData_turn senv w = Ok r w' ->
  exists t, trace w' = trace w ++ t /\ disciplined blocking_io t.
Proof.
  unfold SendData_turn. destruct (selected senv) as [|sid] eqn:Hsel.
  - destruct (errors_Is _ _); intros [= _ <-]; exists []; now rewrite app_nil_r.
  - destruct (openSessions w !! sid) as [s|] eqn:Hs.
    + rewrite run_bind, (run_SendData_drain sid s) by exact Hs. run.
      intros Hr.
      exists [Lock sid; BufRead sid (Buf s); OpenRead sid (Open s); Unlock sid;
              StreamSend (mkRequest 0 (uuid_String (Id s)) 0 (Buf s) (negb (Open s)) TCP)
                         (stream_Send senv)].
      split.
      * destruct (stream_Send senv); injection Hr as _ <-; cbn [trace];
          rewrite <- app_assoc; reflexivity.
      * unfold disciplined. cbn. now rewrite N.eqb_refl.
    + unfold SendData_drain. run. unfold deref. cbn [openSessions]. rewrite Hs.
      discriminate.
Qed.

Lemma ReadFromSession_turn_disciplined sid renv w r w' :
  ReadFromSession_turn sid renv w = Ok r w' ->
  exists t, trace w' = trace w ++ t /\ disciplined blocking_io t.
Proof.
  destruct (openSessions w !! sid) as [s|] eqn:Hs.
  - destruct (conn_Read renv) as [chunk [e|]] eqn:Hr.
    + rewrite (run_ReadFromSession_failed sid s chunk e) by assumption.
      intros [= _ <-]. eexists. split; reflexivity.
    + destruct (Closed s) eqn:Hc.
      * rewrite (run_ReadFromSession_done sid s chunk) by assumption.
        intros [= _ <-]. eexists. split; reflexivity.
      * rewrite (run_ReadFromSession_read sid s chunk) by assumption.
        intros [= _ <-]. eexists. split; [reflexivity|].
        unfold disciplined. destruct (_ && _); cbn; now rewrite N.eqb_refl.
  - unfold ReadFromSession_turn, ReadFromSession_failed. run.
    destruct (conn_Read renv) as [chunk [e|]]; run; unfold deref; cbn [openSessions];
      rewrite Hs; discriminate.
Qed.

(** C4, as the code has it.  In a turn of any of the three loops no
    session lock is held across a receive, a send or a half-close on the
    duplex channel, the dial of the local port, a read of the local socket
    or the publication of a session, and every lock taken in the turn is
    released in it; in a turn of the Send Loop or of the reader none is
    held across a write to the local socket either.  [handleStreamData],
    which the Receive Loop runs, writes to the local socket with the
    session's lock held.  The lines the tasks print are not among the
    events, and the statement does not cover them: the reader, the Send
    Loop and [handleStreamData] each print one between [Lock] and
    [Unlock]. *)
Theorem locks_released_before_send_and_read :
  (forall port env w,
      exists r w' t,
        ReceiveData_turn port env w = Ok r w' /\
        trace w' = trace w ++ t /\ disciplined blocking_but_write t) /\
  (forall senv w r w',
      SendData_turn senv w = Ok r w' ->
      exists t, trace w' = trace w ++ t /\ disciplined blocking_io t) /\
  (forall sid renv w r w',
      ReadFromSession_turn sid renv w = Ok r w' ->
      exists t, trace w' = trace w ++ t /\ disciplined blocking_io t) /\
  (forall m sid s cw w,
      openSessions w !! sid = Some s -> Open s = true -> resp_Data m <> [] ->
      exists w' rest,
        handleStreamData m sid cw w = Ok tt w' /\
        trace w' =
          trace w ++ Lock sid :: ConnWrite sid (resp_Data m) :: Unlock sid :: rest).
Proof.
  split; [exact ReceiveData_turn_disciplined|].
  split; [exact SendData_turn_disciplined|].
  split; [exact ReadFromSession_turn_disciplined|].
  intros m sid s cw w Hs Ho Hd.
  rewrite (run_handleStreamData m sid s) by exact Hs.
  do 2 eexists. split; [reflexivity|]. cbn [trace].
  unfold handleStreamData_trace. rewrite Ho. cbn [negb].
  destruct (resp_Data m) as [|b data]; [contradiction|]. reflexivity.
Qed.

End WithLibraries.

(** *** The theorems at work *)

Lemma ReceiveData_turn_returns_witness :
  ReceiveData_turn (XE := xerrors_strict) (UU := uuid_decimal) 8080
    (mkRecvEnv (mkResponse "7" [] false, Some EOF) Background None None None None)
    (mkWorld ∅ []) =
  Ok (Return (Some (Wrapped (Msg "error reading from stream") EOF)))
     (mkWorld ∅ [StreamRecv]).
Proof.
  exact (proj1 (ReceiveData_turn_returns (XE := xerrors_strict) (UU := uuid_decimal)
                  8080
                  (mkRecvEnv (mkResponse "7" [] false, Some EOF) Background
                             None None None None)
                  (mkWorld ∅ [])) _ _ eq_refl).
Defined.

(** C2 as it is worded does not hold.  After a plain cancel the loop
    returns the error of a half-close that failed; and after a cancel
    whose cause is an error, [Err()] being [context.Canceled] all the
    same, it returns nil when the half-close succeeds, not that cause. *)
Lemma ReceiveData_returns_what_CloseSend_returns :
  ReceiveData_turn (XE := xerrors_lenient) (UU := uuid_decimal) 8080
    (mkRecvEnv (mkResponse "7" [] false, None)
               (cancel Background None)
               (Some (Msg "half-close failed")) None None None)
    (mkWorld ∅ []) =
  Ok (Return (Some (Msg "half-close failed")))
     (mkWorld ∅ [StreamRecv; StreamCloseSend]) /\
  ReceiveData_turn (XE := xerrors_lenient) (UU := uuid_decimal) 8080
    (mkRecvEnv (mkResponse "7" [] false, None)
               (cancel Background (Some (Msg "failed initializing tunnel")))
               None None None None)
    (mkWorld ∅ []) =
  Ok (Return None) (mkWorld ∅ [StreamRecv; StreamCloseSend]).
Proof. split; reflexivity. Qed.

Lemma SendData_drains_then_sends_witness :
  SendData_turn (UU := uuid_decimal)
    (mkSendEnv (Select_session 7%N) Background None)
    (mkWorld {[7%N := mkSession 7%N [Byte.x68; Byte.x69] true false]} []) =
  Ok Continue
     (mkWorld (<[7%N := mkSession 7%N [] true false]>
                 {[7%N := mkSession 7%N [Byte.x68; Byte.x69] true false]})
        [Lock 7%N; BufRead 7%N [Byte.x68; Byte.x69]; OpenRead 7%N true; Unlock 7%N;
         StreamSend (mkRequest 0 "7" 0 [Byte.x68; Byte.x69] false TCP) None]).
Proof.
  exact (proj1 (SendData_drains_then_sends (UU := uuid_decimal) 7%N _
                  (mkSendEnv (Select_session 7%N) Background None)
                  (mkWorld {[7%N := mkSession 7%N [Byte.x68; Byte.x69] true false]} [])
                  (lookup_singleton_eq _ _) eq_refl)).
Defined.

(** C3 as it is worded does not hold in its last clause.  Handed a
    session that is already closed and whose buffer is empty, the Send
    Loop still sends a frame, with no payload and [ShouldClose] set; and
    when that send fails the loop ends with the error of the send. *)
Lemma SendData_closed_session_still_sends :
  let w := mkWorld {[7%N := mkSession 7%N [] false true]} [] in
  let sent r := [Lock 7%N; BufRead 7%N []; OpenRead 7%N false; Unlock 7%N;
                 StreamSend (mkRequest 0 "7" 0 [] true TCP) r] in
  SendData (UU := uuid_decimal)
    [mkSendEnv (Select_session 7%N) Background (Some (Msg "broken pipe"))] w =
  Ok (Some (Some (Msg "broken pipe")))
     (mkWorld {[7%N := mkSession 7%N [] false true]}
              (sent (Some (Msg "broken pipe")))) /\
  SendData_turn (UU := uuid_decimal)
    (mkSendEnv (Select_session 7%N) Background None) w =
  Ok Continue (mkWorld {[7%N := mkSession 7%N [] false true]} (sent None)).
Proof.
  assert (forall r,
    SendData_turn (UU := uuid_decimal)
      (mkSendEnv (Select_session 7%N) Background r)
      (mkWorld {[7%N := mkSession 7%N [] false true]} []) =
    Ok (match r with Some e => Return (Some e) | None => Continue end)
       (mkWorld {[7%N := mkSession 7%N [] false true]}
          [Lock 7%N; BufRead 7%N []; OpenRead 7%N false; Unlock 7%N;
           StreamSend (mkRequest 0 "7" 0 [] true TCP) r])) as Hturn.
  { intros r. unfold SendData_turn. cbn [selected].
    rewrite run_bind,
      (run_SendData_drain (UU := uuid_decimal) 7%N (mkSession 7%N [] false true))
      by apply lookup_singleton_eq.
    rewrite run_bind, run_emit. cbn [trace openSessions stream_Send].
    change (set_Buf [] (mkSession 7%N [] false true)) with (mkSession 7%N [] false true).
    rewrite insert_singleton_eq. destruct r; reflexivity. }
  split.
  - cbn [SendData]. rewrite run_bind, Hturn. reflexivity.
  - apply Hturn.
Qed.

Lemma ReceiveData_refuses_unknown_session_witness :
  ReceiveData_turn (XE := xerrors_strict) (UU := uuid_decimal) 8080
    (mkRecvEnv (mkResponse "7" [Byte.x68] false, None) Background None
               (Some (Msg "connection refused")) None None)
    (mkWorld ∅ []) =
  Ok Continue
     (mkWorld ∅ [StreamRecv; DialTimeout 8080 500;
                 StreamSend (mkRequest 0 "7" 0 [] true TCP) None]).
Proof.
  exact (proj1 (ReceiveData_refuses_unknown_session
                  (XE := xerrors_strict) (UU := uuid_decimal) 8080
                  (mkRecvEnv (mkResponse "7" [Byte.x68] false, None) Background None
                             (Some (Msg "connection refused")) None None)
                  (mkWorld ∅ []) _ 7%N None (Msg "connection refused")
                  eq_refl eq_refl eq_refl (lookup_empty _) eq_refl)).
Defined.

Lemma ReadFromSession_append_error_is_silent_witness :
  ReadFromSession_turn 7%N
    (mkReadEnv ([Byte.x68], None) (Some (Msg "buffer too large")))
    (mkWorld {[7%N := mkSession 7%N [] true false]} []) =
  Ok (Return tt)
     (mkWorld {[7%N := mkSession 7%N [] true false]} [ConnRead 7%N; Lock 7%N; Unlock 7%N]).
Proof.
  exact (proj1 (ReadFromSession_append_error_is_silent 7%N _ [Byte.x68]
                  (Msg "buffer too large")
                  (mkReadEnv ([Byte.x68], None) (Some (Msg "buffer too large")))
                  (mkWorld {[7%N := mkSession 7%N [] true false]} [])
                  (lookup_singleton_eq _ _) eq_refl eq_refl
                  ltac:(discriminate) eq_refl)).
Defined.

Lemma locks_released_before_send_and_read_witness :
  exists w' rest,
    handleStreamData (mkResponse "7" [Byte.x68] false) 7%N (Some EOF)
      (mkWorld {[7%N := mkSession 7%N [] true false]} []) = Ok tt w' /\
    trace w' = [] ++ Lock 7%N :: ConnWrite 7%N [Byte.x68] :: Unlock 7%N :: rest.
Proof.
  exact (proj2 (proj2 (proj2
           (locks_released_before_send_and_read (XE := xerrors_strict) (UU := uuid_decimal))))
           (mkResponse "7" [Byte.x68] false) 7%N _ (Some EOF)
           (mkWorld {[7%N := mkSession 7%N [] true false]} [])
           (lookup_singleton_eq _ _) eq_refl ltac:(discriminate)).
Defined.

(** C4 as it is worded does not hold: [handleStreamData] takes the
    session's lock, writes the payload to the local socket and only then
    releases the lock. *)
Lemma handleStreamData_writes_with_the_lock_held :
  exists t,
    handleStreamData (mkResponse "7" [Byte.x68] false) 7%N None
      (mkWorld {[7%N := mkSession 7%N [] true false]} []) =
    Ok tt (mkWorld {[7%N := mkSession 7%N [] true false]} t) /\
    t = [Lock 7%N; ConnWrite 7%N [Byte.x68]; Unlock 7%N] /\
    released_before blocking_io [] t = None.
Proof.
  eexists. split; [|split; reflexivity].
  rewrite (run_handleStreamData _ 7%N (mkSession 7%N [] true false))
    by apply lookup_singleton_eq.
  reflexivity.
Qed.

End TurnFacts.

(** ** One session between its reader and the Send Loop *)

Module SessionFacts.
Import TurnFacts.

Section WithSession.
Context `{XE : XErrors} `{UU : UUIDs}.
Variable session : UUID.

Lemma frames_of_app t1 t2 :
  frames_of session (t1 ++ t2) = frames_of session t1 ++ frames_of session t2.
Proof. unfold frames_of. apply omap_app. Qed.


Lemma frames_of_handleStreamData m s cw :
  frames_of session (handleStreamData_trace m session s cw) = [].
Proof.
  unfold handleStreamData_trace.
  destruct (negb (Open s)), (0 <? length (resp_Data m))%nat, (is_nil cw); reflexivity.
Qed.






(** Every step keeps the system consistent. *)
Ltac settle s :=
  exists s;
  cbn [world reader sender conn_log in_flight unbuffered openSessions
       set_Open set_Buf set_Closed Buf Id Data RequestId].





(** Runs are built from their first step on. *)
Lemma reachable_from a b c :
  step session a b -> reachable session b c -> reachable session a c.
Proof.
  intros Hab Hbc. induction Hbc as [|c d _ IH Hcd].
  - eapply reach_step; [apply reach_refl|exact Hab].
  - eapply reach_step; eassumption.
Qed.

Lemma do_append w s spc log chunk :
  openSessions w !! session = Some s -> Closed s = false ->
  step session (mkSystem w (R_Select chunk) spc log)
       (mkSystem (mkWorld (<[session := set_Buf (Buf s ++ chunk) s]> (openSessions w))
                          (trace w ++ [Lock session; Unlock session]))
                 (R_Publish false) spc log).
Proof.
  intros Hs Hc. eapply step_append; [exact Hs|exact Hc|].
  rewrite (run_ReadFromSession_append session s) by exact Hs.
  now destruct (0 <? length chunk)%nat.
Qed.

Lemma do_drain w s rpc log :
  openSessions w !! session = Some s ->
  step session (mkSystem w rpc S_Received log)
       (mkSystem (mkWorld (<[session := set_Buf [] s]> (openSessions w))
                          (trace w ++ [Lock session; BufRead session (Buf s);
                                       OpenRead session (Open s); Unlock session]))
                 rpc
                 (S_Send (mkRequest 0 (uuid_String (Id s)) 0 (Buf s) (negb (Open s)) TCP))
                 log).
Proof.
  intros Hs. apply step_drain. now apply run_SendData_drain.
Qed.

Lemma do_read_err w s spc log :
  openSessions w !! session = Some s ->
  step session (mkSystem w R_Read spc log)
       (mkSystem (mkWorld (<[session := set_Open false s]> (openSessions w))
                          (trace w ++ [ConnRead session]))
                 (R_Publish true) spc log).
Proof.
  intros Hs. apply step_read_err. unfold ReadFromSession_failed. run.
  rewrite (run_deref session s) by exact Hs. now run.
Qed.


(** The steps are the turns of Part 4 cut at their blocking points: a turn
    of the reader that reads, buffers and publishes is three steps, and a
    turn of the Send Loop on the session it received is two. *)
Lemma ReadFromSession_turn_steps w w' s log chunk renv :
  openSessions w !! session = Some s -> Closed s = false ->
  conn_Read renv = (chunk, None) -> Buf_Write_fault renv = None ->
  ReadFromSession_turn session renv w = Ok Continue w' ->
  reachable session (mkSystem w R_Read S_Select log)
            (mkSystem w' R_Read S_Received (log ++ [chunk])).
Proof.
  intros Hs Hc Hr Hf.
  rewrite (run_ReadFromSession_read session s chunk) by assumption.
  rewrite Hf. cbn [is_nil negb]. rewrite andb_false_r. intros [= <-].
  eapply reachable_from; [eapply (step_read_ok _ _ _ _ _ chunk); reflexivity|].
  eapply reachable_from; [eapply (do_append _ s); [exact Hs|exact Hc]|].
  eapply reachable_from; [apply step_handoff; reflexivity|].
  cbn [trace openSessions]. rewrite <- !app_assoc. apply reach_refl.
Qed.

Lemma SendData_turn_steps w w' s rpc log senv :
  openSessions w !! session = Some s ->
  selected senv = Select_session session -> stream_Send senv = None ->
  SendData_turn senv w = Ok Continue w' ->
  reachable session (mkSystem w rpc S_Received log) (mkSystem w' rpc S_Select log).
Proof.
  intros Hs Hsel Hok. unfold SendData_turn.
  rewrite Hsel, run_bind, (run_SendData_drain session s) by exact Hs.
  run. rewrite Hok. intros [= <-].
  eapply reachable_from; [apply (do_drain w s); exact Hs|].
  eapply reachable_from; [apply step_send; reflexivity|].
  cbn [trace openSessions]. rewrite <- !app_assoc. apply reach_refl.
Qed.

End WithSession.



End SessionFacts.

(** * More of the code *)

(** ** The parser: ranges, composition, printing *)

Module PortsMore.
Import Ports Spec PortsFacts.

Lemma parsePort_range spec fp :
  parsePort spec = inl fp ->
  0 <= Local fp <= 65535 /\ 1 <= Remote fp <= 65535.
Proof.
  unfold parsePort.
  destruct (match Split spec ":" with
            | [p0] => Some (p0, p0)
            | [p0; p1] => Some (if String.eqb p0 "" then "0" else p0, p1)
            | _ => None
            end) as [[l r]|]; [|discriminate].
  destruct (ParseUint l 10 16) as [vl [e|]] eqn:El; [discriminate|].
  destruct (ParseUint r 10 16) as [vr [e|]] eqn:Er; [discriminate|].
  destruct (Z.eqb_spec vr 0); [discriminate|]. intros [= <-]. cbn [Local Remote].
  apply ParseUint_port, port_number_range in El, Er.
  rewrite !uint16_port by lia. lia.
Qed.

Lemma ParsePorts_loop_acc ports : forall acc,
  ParsePorts_loop ports acc =
  match ParsePorts_loop ports [] with
  | (fps, None) => (acc ++ fps, None)
  | (_, Some e) => ([], Some e)
  end.
Proof.
  induction ports as [|p ports IH]; intros acc; simpl.
  - now rewrite app_nil_r.
  - destruct (parsePort p) as [fp|e]; [|reflexivity].
    rewrite (IH (acc ++ [fp])), (IH [fp]).
    destruct (ParsePorts_loop ports []) as [fps [e|]]; [reflexivity|].
    now rewrite <- app_assoc.
Qed.

Lemma ParsePorts_range ports fps :
  ParsePorts ports = (fps, None) ->
  Forall2 (fun spec fp => parsePort spec = inl fp) ports fps /\
  Forall (fun fp => 0 <= Local fp <= 65535 /\ 1 <= Remote fp <= 65535) fps.
Proof.
  unfold ParsePorts. intros H.
  destruct (ParsePorts_loop_cases ports []) as [(fps' & H1 & H2)|(b & sp & a & e & _ & _ & _ & H1)];
    [|congruence].
  rewrite H in H1. injection H1 as ->. split; [exact H2|].
  clear H. induction H2 as [|p fp ps fps Hp _ IH]; constructor; [|exact IH].
  now apply (parsePort_range p).
Qed.

(** X1.  No port that [ParsePorts] returns is out of range: the local port
    fits in 16 bits, the remote port too and is not 0, so that the
    conversions to [uint16] never wrap; there is one pair per
    specification, in the order of the specifications, and each pair is
    the one its specification gives when parsed alone. *)
Theorem ParsePorts_pairs_in_range ports fps :
  ParsePorts ports = (fps, None) ->
  length fps = length ports /\
  Forall (fun fp => 0 <= Local fp <= 65535 /\ 1 <= Remote fp <= 65535) fps /\
  Forall2 (fun spec fp => ParsePorts [spec] = ([fp], None)) ports fps.
Proof.
  intros H. destruct (ParsePorts_range ports fps H) as [H2 Hr]. split; [|split].
  - symmetry. eapply Forall2_length. exact H2.
  - exact Hr.
  - eapply Forall2_impl; [exact H2|]. intros p fp Hp.
    unfold ParsePorts. cbn. now rewrite Hp.
Qed.

Lemma ParsePorts_pairs_in_range_witness :
  length [mkForwardedPort 0 443; mkForwardedPort 8080 80] = length [":443"; "8080:80"] /\
  Forall (fun fp => 0 <= Local fp <= 65535 /\ 1 <= Remote fp <= 65535)
         [mkForwardedPort 0 443; mkForwardedPort 8080 80].
Proof.
  pose proof (ParsePorts_pairs_in_range [":443"; "8080:80"] _ eq_refl) as (H1 & H2 & _).
  exact (conj H1 H2).
Defined.

(** X2.  Parsing two lists one after the other: [ParsePorts] of [a ++ b]
    gives the pairs of [a] followed by the pairs of [b], or the first
    error met, an error of [a] before one of [b]. *)
Theorem ParsePorts_app a b :
  ParsePorts (a ++ b) =
  match ParsePorts a with
  | (fa, None) =>
      match ParsePorts b with
      | (fb, None) => (fa ++ fb, None)
      | (_, Some e) => ([], Some e)
      end
  | (_, Some e) => ([], Some e)
  end.
Proof.
  unfold ParsePorts. generalize (@nil ForwardedPort) at 1 2.
  induction a as [|p a IH]; intros acc; simpl.
  - rewrite (ParsePorts_loop_acc b acc). reflexivity.
  - destruct (parsePort p) as [fp|e]; [|reflexivity]. apply IH.
Qed.

(** *** Printing and parsing *)

Lemma all_digits_string_of_uint d : all_digits (NilEmpty.string_of_uint d) = true.
Proof. induction d; simpl; auto. Qed.

Lemma decimal_string_of_uint_acc d : forall p,
  decimal (NilEmpty.string_of_uint d) (Z.pos p) = Z.pos (Pos.of_uint_acc d p).
Proof.
  induction d; intros p; cbn [NilEmpty.string_of_uint decimal Pos.of_uint_acc];
    [reflexivity|..];
    match goal with
    | |- decimal _ ?a = _ =>
        lazymatch goal with
        | |- _ = Z.pos (Pos.of_uint_acc _ ?q) =>
            replace a with (Z.pos q) by (cbn; lia); apply IHd
        end
    end.
Qed.

Lemma decimal_string_of_uint d :
  decimal (NilEmpty.string_of_uint d) 0 = Z.of_N (Pos.of_uint d).
Proof.
  induction d; cbn [NilEmpty.string_of_uint decimal Pos.of_uint];
    [reflexivity| exact IHd |..];
    match goal with
    | |- decimal _ ?a = Z.of_N (N.pos (Pos.of_uint_acc _ ?q)) =>
        replace a with (Z.pos q) by (cbn; lia); apply decimal_string_of_uint_acc
    end.
Qed.

(** What [%d] prints for a port is a port number, and its own. *)
Lemma port_number_Sprintf_d n : 0 <= n <= 65535 -> port_number (Kube.Sprintf_d n) n.
Proof.
  intros Hn. unfold Kube.Sprintf_d, port_number.
  destruct n as [|p|p]; [repeat split; (discriminate || lia)| |lia].
  cbn [Z.to_int NilZero.string_of_int].
  pose proof (Unsigned.to_uint_nonnil p) as Hnil.
  assert (NilZero.string_of_uint (Pos.to_uint p) = NilEmpty.string_of_uint (Pos.to_uint p))
    as -> by (destruct (Pos.to_uint p); (contradiction || reflexivity)).
  split; [destruct (Pos.to_uint p); (contradiction || discriminate)|].
  split; [apply all_digits_string_of_uint|].
  split; [|lia].
  now rewrite decimal_string_of_uint, DecimalPos.Unsigned.of_to.
Qed.

(** X3.  Printing a pair of ports with ["%d:%d"], as [PortForward] does for
    the port of the tunnel, gives a specification that [ParsePorts] reads
    back as that pair: every pair with ports of 16 bits and a remote port
    above 0 is the parse of some specification. *)
Theorem ParsePorts_Sprintf fps :
  Forall (fun fp => 0 <= Local fp <= 65535 /\ 1 <= Remote fp <= 65535) fps ->
  ParsePorts (map (fun fp => Kube.Sprintf_d_d (Local fp) (Remote fp)) fps) = (fps, None).
Proof.
  intros H. unfold ParsePorts. apply (ParsePorts_loop_denotes _ fps).
  induction H as [|[l r] fps [Hl Hr] _ IH]; cbn [map]; constructor; [|exact IH].
  cbn [Local Remote] in *. unfold Kube.Sprintf_d_d.
  apply denotes_LOCAL_REMOTE; [apply port_number_Sprintf_d; lia
                             |apply port_number_Sprintf_d; lia|lia].
Qed.

Lemma ParsePorts_Sprintf_witness :
  ParsePorts [Kube.Sprintf_d_d 28688 28688; Kube.Sprintf_d_d 0 80] =
  ([mkForwardedPort 28688 28688; mkForwardedPort 0 80], None).
Proof.
  apply (ParsePorts_Sprintf [mkForwardedPort 28688 28688; mkForwardedPort 0 80]).
  repeat constructor; cbn; lia.
Defined.

End PortsMore.

(** ** The loops of the tunnel *)

Module TurnMore.
Import TurnFacts.

Section WithLibraries.
Context `{XE : XErrors} `{UU : UUIDs}.

(** *** The Receive Loop *)

(** X5.  A frame that asks to close a session the registry knows closes
    it: the session is marked not open, [Close()] runs, and the payload of
    the frame, if it has one, is not written to the local socket. *)
Theorem ReceiveData_close_frame_drops_payload port env w m id perr s0 :
  st_Recv env = (m, None) ->
  Done (st_Context env) = false ->
  uuid_Parse (resp_RequestId m) = (id, perr) ->
  openSessions w !! id = Some s0 ->
  resp_ShouldClose m = true ->
  ReceiveData_turn port env w =
  Ok Continue
     (mkWorld (<[id := mkSession (Id s0) (Buf s0) false true]> (openSessions w))
              (trace w ++ [StreamRecv; SessionClose id])).
Proof.
  intros H Hd Hp Hs Hc.
  unfold ReceiveData_turn. run. rewrite H, Hd, Hp. run.
  unfold GetSession. cbn [openSessions]. rewrite Hs, Hc. run.
  rewrite (run_deref id s0) by exact Hs. run.
  rewrite (run_handleStreamData m id (set_Open false s0))
    by (cbn [openSessions]; apply lookup_insert_eq).
  run. unfold handleStreamData_closes, handleStreamData_trace.
  cbn [set_Open Open negb orb set_Closed Id Buf].
  rewrite insert_insert_eq, <- app_assoc. reflexivity.
Qed.







Lemma ReceiveData_turn_total port env w :
  exists r w', ReceiveData_turn port env w = Ok r w' /\
               (r = Continue <-> stops env = false).
Proof.
  unfold stops. destruct (st_Recv env) as [m [e|]] eqn:H; cbn [snd is_nil negb orb].
  - rewrite (run_ReceiveData_recv_failed port env w m e H).
    do 2 eexists. split; [reflexivity|]. split; discriminate.
  - destruct (Done (st_Context env)) eqn:Hd.
    + rewrite (run_ReceiveData_done port env w m H Hd).
      do 2 eexists. split; [reflexivity|]. split; discriminate.
    + destruct (ReceiveData_turn_continues port env w m H Hd) as [w' ->].
      do 2 eexists. split; [reflexivity|]. split; reflexivity.
Qed.

Lemma ReceiveData_total port envs : forall w,
  exists r w',
    ReceiveData port envs w = Ok r w' /\
    (r = None <-> Forall (fun env => stops env = false) envs).
Proof.
  induction envs as [|env envs IH]; intros w.
  - exists None, w. split; [reflexivity|]. split; auto.
  - cbn [ReceiveData]. rewrite run_bind.
    destruct (ReceiveData_turn_total port env w) as (c & w1 & -> & Hc).
    destruct c as [|r].
    + destruct (IH w1) as (r & w' & -> & Hr).
      exists r, w'. split; [reflexivity|].
      assert (stops env = false) as Hs by now apply Hc.
      rewrite Hr. split; [now constructor|now inversion 1].
    + exists (Some r), w1. split; [reflexivity|].
      split; [discriminate|]. inversion 1; subst.
      assert (@Return error r = Continue) by now apply Hc. discriminate.
Qed.

Lemma ReceiveData_after_stop port before env after : forall w,
  stops env = true ->
  ReceiveData port (before ++ env :: after) w = ReceiveData port (before ++ [env]) w.
Proof.
  intros w He. revert w. induction before as [|b before IH]; intros w.
  - cbn [app ReceiveData]. rewrite !run_bind.
    destruct (ReceiveData_turn_total port env w) as (c & w1 & -> & Hc).
    destruct c; [|reflexivity].
    assert (stops env = false) by now apply Hc. congruence.
  - cbn [app ReceiveData]. rewrite !run_bind.
    destruct (ReceiveData_turn port b w) as [[|r] w1|]; auto.
Qed.

(** X7.  The Receive Loop never dereferences a session that is not there,
    whatever the frames and the registry.  It returns at the first turn
    whose [st.Recv()] fails or that finds the context done, and at no
    other: after turns none of which stops it is still receiving, and what
    the stream would answer after a turn that stops is never asked. *)
Theorem ReceiveData_returns_at_the_first_stop port envs w :
  (exists r w',
     ReceiveData port envs w = Ok r w' /\
     (r = None <-> Forall (fun env => stops env = false) envs)) /\
  (forall before env after,
      envs = before ++ env :: after -> stops env = true ->
      ReceiveData port envs w = ReceiveData port (before ++ [env]) w).
Proof.
  split; [apply ReceiveData_total|].
  intros before env after -> He. now apply ReceiveData_after_stop.
Qed.

(** *** The Send Loop *)

Lemma SendData_drain_missing sid w :
  openSessions w !! sid = None -> SendData_drain sid w = Panic.
Proof.
  intros Hs. unfold SendData_drain. rewrite run_bind, run_emit.
  cbv beta iota. rewrite run_bind. unfold deref. cbn [openSessions]. now rewrite Hs.
Qed.

Lemma SendData_turn_cases senv w r w' :
  SendData_turn senv w = Ok r w' ->
  match r with
  | Continue => exists sid, selected senv = Select_session sid /\ stream_Send senv = None
  | Return None =>
      selected senv = Select_Done /\
      (errors_Is (Err (stream_Context senv)) Canceled = true \/
       Err (stream_Context senv) = None)
  | Return (Some e) =>
      (selected senv = Select_Done /\ Err (stream_Context senv) = Some e /\
       errors_Is (Some e) Canceled = false) \/
      (exists sid, selected senv = Select_session sid /\ stream_Send senv = Some e)
  end.
Proof.
  unfold SendData_turn. destruct (selected senv) as [|sid] eqn:Hsel.
  - destruct (errors_Is _ _) eqn:Hc; intros [= <- _]; [now auto|].
    destruct (Err (stream_Context senv)) as [e|] eqn:He; [left|]; auto.
  - destruct (openSessions w !! sid) as [s|] eqn:Hs.
    + rewrite run_bind, (run_SendData_drain sid s) by exact Hs. run.
      destruct (stream_Send senv) as [e|] eqn:Hsend; intros [= <- _]; eauto.
    + rewrite run_bind, SendData_drain_missing by exact Hs. discriminate.
Qed.

(** X8.  The Send Loop returns nil only when it is cancelled.  If
    [SendData] returns nil, every turn before its last took a session off
    the channel and sent its frame without an error, and the last found
    the context of the stream done with [context.Canceled]; an error of
    [stream.Send] is never swallowed. *)
Theorem SendData_nil_means_cancelled envs : forall w w',
  SendData envs w = Ok (Some None) w' ->
  exists before env after,
    envs = before ++ env :: after /\
    Forall (fun e => exists sid, selected e = Select_session sid /\ stream_Send e = None)
           before /\
    selected env = Select_Done /\
    (errors_Is (Err (stream_Context env)) Canceled = true \/
     Err (stream_Context env) = None).
Proof.
  induction envs as [|env envs IH]; intros w w'; [discriminate|].
  cbn [SendData]. rewrite run_bind.
  destruct (SendData_turn env w) as [[|r] w1|] eqn:Hturn; [| |discriminate].
  - intros H. destruct (IH _ _ H) as (before & e & after & -> & Hb & Hsel & Herr).
    exists (env :: before), e, after. split; [reflexivity|]. split; [|now split].
    constructor; [|exact Hb]. exact (SendData_turn_cases _ _ _ _ Hturn).
  - rewrite run_ret. intros [= -> <-].
    exists [], env, envs. split; [reflexivity|]. split; [constructor|].
    exact (SendData_turn_cases _ _ _ _ Hturn).
Qed.

(** *** The first frame of a pair *)

Lemma int32_port n : 0 <= n <= 65535 -> int32 n = n.
Proof.
  intros H. unfold int32. change (2 ^ 31) with 2147483648.
  change (2 ^ 32) with 4294967296. rewrite Z.mod_small by lia. lia.
Qed.

(** X4.  The frame that initiates a pair asks the server for the remote
    port the user wrote: for every pair [ParsePorts] returns, the
    conversion to [int32] changes nothing, and the port asked for is
    between 1 and 65535, over TCP. *)
Theorem Tunnel_req_asks_for_the_remote_port ports fps :
  Ports.ParsePorts ports = (fps, None) ->
  Forall (fun fp => Port (Tunnel_req fp) = Ports.Remote fp /\
                    1 <= Port (Tunnel_req fp) <= 65535 /\
                    Scheme (Tunnel_req fp) = TCP) fps.
Proof.
  intros H. destruct (PortsMore.ParsePorts_range ports fps H) as [_ Hr].
  eapply Forall_impl; [exact Hr|]. intros fp [_ Hfp]. cbn [Tunnel_req Port Scheme].
  rewrite int32_port by lia. repeat split; lia.
Qed.

End WithLibraries.

Lemma ReceiveData_close_frame_drops_payload_witness :
  ReceiveData_turn (XE := xerrors_strict) (UU := uuid_decimal) 8080
    (mkRecvEnv (mkResponse "7" [Byte.x68; Byte.x69] true, None) Background None None None None)
    (mkWorld {[7%N := mkSession 7%N [Byte.x01] true false]} []) =
  Ok Continue
     (mkWorld (<[7%N := mkSession 7%N [Byte.x01] false true]>
                 {[7%N := mkSession 7%N [Byte.x01] true false]})
              [StreamRecv; SessionClose 7%N]).
Proof.
  exact (ReceiveData_close_frame_drops_payload (XE := xerrors_strict) (UU := uuid_decimal)
           8080
           (mkRecvEnv (mkResponse "7" [Byte.x68; Byte.x69] true, None)
                      Background None None None None)
           (mkWorld {[7%N := mkSession 7%N [Byte.x01] true false]} [])
           _ 7%N None (mkSession 7%N [Byte.x01] true false)
           eq_refl eq_refl eq_refl (lookup_singleton_eq _ _) eq_refl).
Defined.


Lemma SendData_nil_means_cancelled_witness :
  exists before env after,
    [mkSendEnv (Select_session 7%N) Background None;
     mkSendEnv Select_Done (cancel Background None) None] = before ++ env :: after /\
    Forall (fun e => exists sid, selected e = Select_session sid /\ stream_Send e = None)
           before /\
    selected env = Select_Done /\
    (errors_Is (Err (stream_Context env)) Canceled = true \/
     Err (stream_Context env) = None).
Proof.
  eapply (SendData_nil_means_cancelled (UU := uuid_decimal) _
            (mkWorld {[7%N := fresh_session]} [])).
  reflexivity.
Defined.

Lemma Tunnel_req_asks_for_the_remote_port_witness :
  Forall (fun fp => Port (Tunnel_req fp) = Ports.Remote fp /\
                    1 <= Port (Tunnel_req fp) <= 65535 /\
                    Scheme (Tunnel_req fp) = TCP)
         [Ports.mkForwardedPort 0 443; Ports.mkForwardedPort 8080 80].
Proof. exact (Tunnel_req_asks_for_the_remote_port [":443"; "8080:80"] _ eq_refl). Defined.

End TurnMore.

(** ** Closing a session towards the peer *)

Module ClosingFacts.
Import TurnFacts SessionFacts.

Lemma close_is_final_snoc fs g :
  close_is_final fs ->
  (Exists (fun f => ShouldClose f = true) fs -> ShouldClose g = true) ->
  close_is_final (fs ++ [g]).
Proof.
  intros Hfs Hg pre f post Heq Hf.
  induction post as [|x post' _] using rev_ind; [constructor|].
  rewrite app_comm_cons, app_assoc in Heq.
  apply app_inj_tail in Heq as [-> <-].
  apply Forall_app; split.
  - now apply (Hfs pre f post').
  - constructor; [|constructor]. apply Hg.
    apply Exists_app. right. now constructor.
Qed.

Section WithSession.
Context `{UU : UUIDs}.
Variable session : UUID.

Lemma frames_quiet t t' :
  frames_of session t' = [] ->
  frames_of session (t ++ t') = frames_of session t.
Proof. intros H. now rewrite frames_of_app, H, app_nil_r. Qed.

Lemma frames_frame t f :
  RequestId f = uuid_String session ->
  frames_of session (t ++ [StreamSend f None]) = frames_of session t ++ [f].
Proof.
  intros H. rewrite frames_of_app. f_equal.
  cbn. now rewrite H, String.eqb_refl.
Qed.

Lemma frames_other t f e :
  RequestId f <> uuid_String session ->
  frames_of session (t ++ [StreamSend f e]) = frames_of session t.
Proof.
  intros H. apply frames_quiet. cbn. destruct e; [reflexivity|].
  apply String.eqb_neq in H. now rewrite H.
Qed.

Lemma registered_closing sys :
  registered session sys -> closing session (trace (world sys)) sys.
Proof.
  intros (Hs & Hr & Hsp). exists (mkSession session [] true false), [].
  cbv zeta. rewrite Hr, Hsp, app_nil_r.
  repeat split; try assumption; try discriminate.
  - intros [|? ?] ? ? [=].
  - inversion 1.
  - intros [|]; discriminate.
Qed.

Lemma initial_registered sys : initial session sys -> registered session sys.
Proof. intros (Hs & _ & Hr & Hsp & _). now repeat split. Qed.

(** The state of the session after a step, the trace since the start
    being the one before the step and what the step added. *)
Ltac settle s Ht :=
  exists s; eexists; cbv zeta;
  cbn [world reader sender conn_log openSessions trace
       set_Open set_Buf set_Closed Buf Id Open Data RequestId ShouldClose];
  split; [rewrite Ht, <- ?app_assoc; reflexivity|];
  split; [|split; [|split; [|split; [|split; [|split]]]]].

(** The parts of [closing] that a step leaves as they were. *)
Ltac kept Hresp Hrd Hlast :=
  first
    [ assumption
    | apply lookup_insert_eq
    | (intros; reflexivity)
    | (let r := fresh "r" in
       let H := fresh "H" in
       intros r H;
       first [ discriminate H
             | destruct (Hresp r H) as (? & ? & ?); repeat split; auto; fail ])
    | (let H := fresh "H" in
       intros [H|H]; first [discriminate H | apply Hrd; auto; fail])
    | (let H := fresh "H" in
       intros H; first [discriminate H | apply Hlast; exact H])
    | idtac ].

Lemma step_closing t0 sys sys' :
  step session sys sys' -> closing session t0 sys -> closing session t0 sys'.
Proof.
  intros Hstep (s & t & Ht & Hs & Hid & Hfin & Hex & Hresp & Hrd & Hlast).
  cbv zeta in *.
  destruct Hstep; cbn [world reader sender conn_log] in *.
  - (* read_ok *)
    injection H as <-. settle (s) Ht;
      rewrite ?frames_quiet by reflexivity; kept Hresp Hrd Hlast.
  - (* read_err *)
    revert H. unfold ReadFromSession_failed. run.
    rewrite (run_deref session s) by exact Hs. run. intros [= <-].
    settle (set_Open false s) Ht;
      rewrite ?frames_quiet by reflexivity; kept Hresp Hrd Hlast.
  - (* select_done *)
    settle (s) Ht; rewrite ?app_nil_r; kept Hresp Hrd Hlast.
  - (* append *)
    rewrite Hs in H. injection H as <-.
    rewrite (run_ReadFromSession_append session s) in H1 by exact Hs.
    injection H1 as _ <-.
    settle (set_Buf (Buf s ++ (if is_nil (@None err) then chunk else [])) s) Ht;
      rewrite ?frames_quiet by reflexivity; kept Hresp Hrd Hlast.
  - (* append_fault *)
    rewrite Hs in H. injection H as <-.
    rewrite (run_ReadFromSession_append session s) in H1 by exact Hs.
    injection H1 as Hf <-.
    settle (set_Buf (Buf s ++ (if is_nil fault then chunk else [])) s) Ht;
      rewrite ?frames_quiet by reflexivity; kept Hresp Hrd Hlast.
  - (* handoff *)
    injection H as <-.
    settle (s) Ht; rewrite ?frames_quiet by reflexivity; kept Hresp Hrd Hlast.
    destruct final; intros [H|H]; try discriminate H. apply Hrd. now left.
  - (* drain *)
    rewrite (run_SendData_drain session s) in H by exact Hs. injection H as <- <-.
    settle (set_Buf [] s) Ht;
      rewrite ?frames_quiet by reflexivity; kept Hresp Hrd Hlast.
    + intros resp [= <-]. cbn [RequestId ShouldClose]. rewrite Hid.
      split; [reflexivity|]. split.
      * now intros ->%negb_true_iff.
      * intros Hx. now rewrite (Hex Hx).
    + intros Hr. now rewrite (Hrd (or_intror Hr)).
  - (* drain_err *)
    rewrite (run_SendData_drain session s) in H by exact Hs. discriminate.
  - (* send *)
    injection H as <-. destruct (Hresp resp eq_refl) as (Hrid & Hopen & Hmono).
    settle (s) Ht; rewrite ?frames_frame by exact Hrid; kept Hresp Hrd Hlast.
    + now apply close_is_final_snoc.
    + intros [Hx|Hx]%Exists_app; [now apply Hex|].
      inversion Hx as [? ? Hc|? ? Hc]; subst; [now apply Hopen|inversion Hc].
    + intros Hr. exists (frames_of session t), resp. split; [reflexivity|].
      now apply Hlast.
  - (* send_failed *)
    injection H as <-.
    settle (s) Ht; rewrite ?frames_quiet by reflexivity; kept Hresp Hrd Hlast.
  - (* sender_done *)
    settle (s) Ht; rewrite ?app_nil_r; kept Hresp Hrd Hlast.
  - (* remote_close *)
    rewrite Hs in H. injection H as <-. injection H0 as <-.
    settle (set_Open false s) Ht; rewrite ?app_nil_r; kept Hresp Hrd Hlast.
  - (* handle *)
    rewrite (run_handleStreamData m session s) in H by exact Hs. injection H as <-.
    assert (frames_of session (t ++ handleStreamData_trace m session s cw) =
            frames_of session t) as Hsame
      by now rewrite frames_of_app, frames_of_handleStreamData, app_nil_r.
    destruct (handleStreamData_closes m s cw).
    + settle (set_Closed s) Ht; rewrite ?Hsame; kept Hresp Hrd Hlast.
    + settle (s) Ht; rewrite ?Hsame; kept Hresp Hrd Hlast.
  - (* other_frame *)
    injection H0 as <-.
    settle (s) Ht; rewrite ?frames_other by assumption; kept Hresp Hrd Hlast.
Qed.

Lemma reachable_closing sys0 sys :
  registered session sys0 -> reachable session sys0 sys ->
  closing session (trace (world sys0)) sys.
Proof.
  intros H0. induction 1 as [|sys sys' _ IH Hstep].
  - now apply registered_closing.
  - eapply step_closing; eassumption.
Qed.

(** X9.  Closing is final for a session the registry holds.  Take the
    system from the moment [NewSessionFromStream] has registered the
    session, whatever went out under its id before, and follow its reader
    beside the Send Loop, with the Receive Loop closing the session or
    writing to its socket at any time and frames of other ids going out on
    the stream.  Among the frames sent under the id of the session from
    that moment on, all of them by the Send Loop, one that says
    [ShouldClose] is followed only by frames that say so too.  What the
    Receive Loop sends under an id the registry does not hold, before the
    session is registered or after the registry has dropped it, is not in
    these frames. *)
Theorem ShouldClose_is_final sys0 sys :
  registered session sys0 ->
  reachable session sys0 sys ->
  exists t,
    trace (world sys) = trace (world sys0) ++ t /\
    close_is_final (frames_of session t).
Proof.
  intros H0 Hr.
  destruct (reachable_closing sys0 sys H0 Hr) as (s & t & Ht & _ & _ & Hfin & _).
  exists t. split; [exact Ht|exact Hfin].
Qed.

(** X10.  The peer learns that the local connection ended.  Once the
    reader has returned after a failed read (the end of the connection
    among them) and the Send Loop has sent what it was handed, the last
    frame sent for the session says [ShouldClose]. *)
Theorem last_frame_says_ShouldClose sys0 sys :
  initial session sys0 ->
  reachable session sys0 sys ->
  reader sys = R_Returned ->
  sender sys = S_Select \/ sender sys = S_Returned ->
  exists pre f,
    frames_of session (trace (world sys)) = pre ++ [f] /\ ShouldClose f = true.
Proof.
  intros H0 Hr Hrd Hsd.
  destruct (reachable_closing sys0 sys (initial_registered _ H0) Hr)
    as (s & t & Ht & _ & _ & _ & _ & _ & _ & Hlast).
  specialize (Hlast Hrd). cbv zeta in Hlast.
  destruct H0 as (_ & Hf0 & _).
  rewrite Ht, frames_of_app, Hf0. cbn [app].
  destruct Hsd as [Hsd|Hsd]; rewrite Hsd in Hlast; exact Hlast.
Qed.

End WithSession.

Lemma fresh_system_initial : initial (UU := uuid_decimal) 7%N fresh_system.
Proof. repeat split; apply lookup_singleton_eq. Qed.

Lemma ended_system_reachable :
  reachable (UU := uuid_decimal) 7%N fresh_system ended_system.
Proof.
  eapply reachable_from.
  { apply (do_read_err 7%N _ fresh_session). apply lookup_singleton_eq. }
  eapply reachable_from.
  { apply step_handoff. reflexivity. }
  eapply reachable_from.
  { apply do_drain. apply lookup_insert_eq. }
  eapply reachable_from.
  { apply step_send. reflexivity. }
  apply reach_refl.
Qed.

Lemma redialled_system_registered : registered 7%N redialled_system.
Proof. repeat split; apply lookup_singleton_eq. Qed.

Lemma redialled_ended_reachable :
  reachable (UU := uuid_decimal) 7%N redialled_system redialled_ended.
Proof.
  eapply reachable_from.
  { eapply (step_read_ok 7%N _ _ _ _ [Byte.x68]). reflexivity. }
  eapply reachable_from.
  { eapply (do_append 7%N _ fresh_session); [apply lookup_singleton_eq|reflexivity]. }
  eapply reachable_from.
  { apply step_handoff. reflexivity. }
  eapply reachable_from.
  { apply do_drain. apply lookup_insert_eq. }
  eapply reachable_from.
  { apply step_send. reflexivity. }
  eapply reachable_from.
  { apply do_read_err. apply lookup_insert_eq. }
  eapply reachable_from.
  { apply step_handoff. reflexivity. }
  eapply reachable_from.
  { apply do_drain. apply lookup_insert_eq. }
  eapply reachable_from.
  { apply step_send. reflexivity. }
  apply reach_refl.
Qed.

Lemma ShouldClose_is_final_witness :
  exists t,
    trace (world redialled_ended) = trace (world redialled_system) ++ t /\
    close_is_final (frames_of (UU := uuid_decimal) 7%N t).
Proof.
  exact (ShouldClose_is_final (UU := uuid_decimal) 7%N
           redialled_system redialled_ended
           redialled_system_registered redialled_ended_reachable).
Defined.

Lemma last_frame_says_ShouldClose_witness :
  exists pre f,
    frames_of (UU := uuid_decimal) 7%N (trace (world ended_system)) = pre ++ [f] /\
    ShouldClose f = true.
Proof.
  exact (last_frame_says_ShouldClose (UU := uuid_decimal) 7%N
           fresh_system ended_system fresh_system_initial ended_system_reachable
           eq_refl (or_introl eq_refl)).
Defined.

End ClosingFacts.

(** ** The cluster side *)

Module KubeFacts.
Import Kube KubeSpec.

(** *** The namespace of a definition *)

Lemma DefaultNS_fields c kd :
  APIVersion (fst (DefaultNS c kd)) = APIVersion kd /\
  Kind (fst (DefaultNS c kd)) = Kind kd /\
  Name (fst (DefaultNS c kd)) = Name kd.
Proof.
  unfold DefaultNS. destruct (negb _); [now auto|].
  destruct (negb _); [now auto|]. now destruct (ClientConfig_Namespace c).
Qed.

Lemma DefaultNS_again c kd kd' :
  DefaultNS c kd = (kd', None) -> DefaultNS c kd' = (kd', None).
Proof.
  unfold DefaultNS.
  destruct (String.eqb_spec (Namespace kd) "") as [Hk|Hk]; cbn [negb].
  - destruct (String.eqb_spec (namespace c) "") as [Hc|Hc]; cbn [negb].
    + destruct (ClientConfig_Namespace c) as [ns e] eqn:Hns. intros [= <- ->].
      cbn [SetNamespace Namespace].
      destruct (String.eqb_spec ns "") as [Hn|Hn]; cbn [negb]; [|reflexivity].
      reflexivity.
    + intros [= <-]. cbn [SetNamespace Namespace].
      destruct (String.eqb_spec (namespace c) ""); [contradiction|reflexivity].
  - intros [= <-]. destruct (String.eqb_spec (Namespace kd) ""); [contradiction|reflexivity].
Qed.

Lemma dynamicResource_again c kd dr kd' :
  dynamicResource c kd = (inl dr, kd') -> dynamicResource c kd' = (inl dr, kd').
Proof.
  unfold dynamicResource.
  destruct (Mapper_RESTMapping c (APIVersion kd) (Kind kd)) as [mapping|e] eqn:Hm;
    [|discriminate].
  destruct (Scope_Name mapping) eqn:Hscope.
  - destruct (DefaultNS c kd) as [kd1 [e|]] eqn:Hns; [discriminate|].
    intros [= <- <-].
    destruct (DefaultNS_fields c kd) as (Ha & Hk & _). rewrite Hns in Ha, Hk.
    cbn [fst] in Ha, Hk. rewrite Ha, Hk, Hm, Hscope.
    now rewrite (DefaultNS_again c kd kd1 Hns).
  - intros [= <- <-]. cbn [SetNamespace APIVersion Kind]. now rewrite Hm, Hscope.
Qed.

(** X11.  [dynamicResource] settles the namespace of a definition.  When
    it answers an interface, that interface is bound to the namespace the
    definition is left with, which is the definition's own if it had one,
    else the one of the [--namespace] flag if there is one; a cluster-wide
    kind loses its namespace.  Nothing else of the definition changes, and
    asking again for the definition as it was left, as [KubeDelete] does
    after [KubeApply], answers the same interface and changes nothing. *)
Theorem dynamicResource_settles_the_namespace c kd dr kd' :
  dynamicResource c kd = (inl dr, kd') ->
  dynamicResource c kd' = (inl dr, kd') /\
  (APIVersion kd' = APIVersion kd /\ Kind kd' = Kind kd /\ Name kd' = Name kd) /\
  match dr_Namespace dr with
  | Some ns =>
      Namespace kd' = ns /\
      (Namespace kd <> "" -> ns = Namespace kd) /\
      (Namespace kd = "" -> namespace c <> "" -> ns = namespace c)
  | None => Namespace kd' = ""
  end.
Proof.
  intros H. split; [now apply (dynamicResource_again c kd)|].
  revert H. unfold dynamicResource.
  destruct (Mapper_RESTMapping c (APIVersion kd) (Kind kd)) as [mapping|e]; [|discriminate].
  destruct (Scope_Name mapping).
  - destruct (DefaultNS c kd) as [kd1 [e|]] eqn:Hns; [discriminate|].
    intros [= <- <-]. cbn [dr_Namespace].
    destruct (DefaultNS_fields c kd) as (Ha & Hk & Hn). rewrite Hns in Ha, Hk, Hn.
    split; [now auto|]. split; [reflexivity|].
    revert Hns. unfold DefaultNS.
    destruct (String.eqb_spec (Namespace kd) "") as [Hk'|Hk']; cbn [negb].
    + destruct (String.eqb_spec (namespace c) "") as [Hc|Hc]; cbn [negb].
      * destruct (ClientConfig_Namespace c). intros [= <- _]. split; contradiction.
      * intros [= <-]. split; [contradiction|reflexivity].
    + intros [= <-]. split; [reflexivity|contradiction].
  - intros [= <- <-]. cbn. auto.
Qed.

Lemma dynamicResource_settles_the_namespace_witness :
  dynamicResource (example_client (fun _ => false))
    (mkKubeDef "v1" "Pod" "kgrok" "default") =
  (inl (mkResourceInterface "pods" (Some "default")), mkKubeDef "v1" "Pod" "kgrok" "default").
Proof.
  exact (proj1 (dynamicResource_settles_the_namespace (example_client (fun _ => false))
                  (mkKubeDef "v1" "Pod" "kgrok" "") _ _ eq_refl)).
Defined.

(** *** The iterator over the documents *)

Section Iterating.
Variable L : YAMLLib.
Context {S : Type}.
Variable yield : yielded -> S -> S * bool.

(** X12.  A document that begins with a line break is dropped whole,
    whatever follows the line break: the iterator runs as on the buffer
    without such documents. *)
Theorem YieldKubeDef_drops_blank_led_documents docs final s :
  YieldKubeDef_loop L yield docs final s =
  YieldKubeDef_loop L yield (List.filter (fun buf => negb (blank buf)) docs) final s.
Proof.
  revert s. induction docs as [|buf docs IH]; intros s; [reflexivity|].
  destruct buf as [|b buf]; [reflexivity|].
  cbn [List.filter blank]. destruct (Byte.eqb b Byte.x0a) eqn:Hb; cbn [negb].
  - cbn [YieldKubeDef_loop]. rewrite Hb. apply IH.
  - cbn [YieldKubeDef_loop]. rewrite Hb.
    destruct (decoder_Decode L (b :: buf)) as [kd [e|]]; [reflexivity|].
    destruct (yield (Decoded kd None) s) as [s' more]. destruct more; [apply IH|reflexivity].
Qed.

(** A property of the states the loop goes through carries over to the
    state it ends in: [Q] holds as long as the body is handed a definition
    and asks for more, [P] of whatever the body leaves. *)
Lemma YieldKubeDef_loop_ind (Q P : S -> Prop) :
  (forall y s, Q s -> P (fst (yield y s))) ->
  (forall kd s, Q s -> snd (yield (Decoded kd None) s) = true ->
                Q (fst (yield (Decoded kd None) s))) ->
  (forall s, Q s -> P s) ->
  forall docs final s s',
    Q s -> YieldKubeDef_loop L yield docs final s = Some s' -> P s'.
Proof.
  intros Hbody Hmore Hend docs final. induction docs as [|buf docs IH]; intros s s' Hq.
  - cbn. destruct (err_eqb final EOF); intros [= <-]; [now apply Hend|].
    now apply Hbody.
  - destruct buf as [|b buf]; [discriminate|]. cbn [YieldKubeDef_loop].
    destruct (Byte.eqb b Byte.x0a); [now apply IH|].
    destruct (decoder_Decode L (b :: buf)) as [kd [e|]].
    + intros [= <-]. now apply Hbody.
    + pose proof (Hbody (Decoded kd None) s Hq) as Hp.
      pose proof (Hmore kd s Hq) as Hm.
      destruct (yield (Decoded kd None) s) as [s1 more]. cbn [fst snd] in *.
      destruct more; [apply IH; now apply Hm|]. now intros [= <-].
Qed.

End Iterating.

Lemma err_eqb_eq a : forall b, err_eqb a b = true -> a = b.
Proof.
  induction a; intros [] H; cbn in H; try discriminate; try reflexivity.
  - now apply String.eqb_eq in H as ->.
  - apply andb_prop in H as [H1 H2]. now rewrite (IHa1 _ H1), (IHa2 _ H2).
  - apply andb_prop in H as [H1 H2]. now rewrite (IHa1 _ H1), (IHa2 _ H2).
Qed.

Lemma YieldKubeDef_never_yields_EOF L docs final : forall ys0 ys,
  Forall (fun y => y <> Unread EOF) ys0 ->
  YieldKubeDef_loop L collect docs final ys0 = Some ys ->
  Forall (fun y => y <> Unread EOF) ys.
Proof.
  induction docs as [|buf docs IH]; intros ys0 ys H0.
  - cbn. destruct (err_eqb final EOF) eqn:He; intros [= <-]; [exact H0|].
    apply Forall_app. split; [exact H0|]. constructor; [|constructor].
    intros [= ->]. discriminate.
  - destruct buf as [|b buf]; [discriminate|]. cbn [YieldKubeDef_loop].
    destruct (Byte.eqb b Byte.x0a); [now apply IH|].
    destruct (decoder_Decode L (b :: buf)) as [kd [e|]]; cbn [collect fst].
    + intros [= <-]. apply Forall_app. split; [exact H0|].
      constructor; [discriminate|constructor].
    + apply IH. apply Forall_app. split; [exact H0|].
      constructor; [discriminate|constructor].
Qed.

(** X13.  An error ends the iteration: whatever the iterator hands over
    before its last item is a decoded definition without an error, even
    to a body that always asks for more; and the end of the buffer is not
    handed over as an error. *)
Theorem YieldKubeDef_error_is_last L docs final ys :
  YieldKubeDef_loop L collect docs final [] = Some ys ->
  (forall pre y post, ys = pre ++ y :: post -> post <> [] ->
     exists kd, y = Decoded kd None) /\
  Forall (fun y => y <> Unread EOF) ys.
Proof.
  intros H. split.
  - revert H.
    apply (YieldKubeDef_loop_ind L collect
             (fun ys => Forall (fun y => exists kd, y = Decoded kd None) ys)
             (fun ys => forall pre y post, ys = pre ++ y :: post -> post <> [] ->
                        exists kd, y = Decoded kd None)).
    + intros y s Hs. cbn [collect fst snd].
      intros pre y' post Heq Hne.
      induction post as [|x post _] using rev_ind; [contradiction|].
      rewrite app_comm_cons, app_assoc in Heq. apply app_inj_tail in Heq as [-> _].
      rewrite Forall_forall in Hs. apply Hs. apply elem_of_app. right. left.
    + intros kd s Hs _. cbn [collect fst]. apply Forall_app. split; [exact Hs|].
      constructor; [eauto|constructor].
    + intros s Hs pre y post -> _. rewrite Forall_forall in Hs.
      apply Hs. apply elem_of_app. right. left.
    + constructor.
  - apply (YieldKubeDef_never_yields_EOF L docs final [] ys); [constructor|exact H].
Qed.

Lemma YieldKubeDef_error_is_last_witness :
  Forall (fun y => y <> Unread EOF)
         [Decoded (mkKubeDef "v1" "Service" "kgrok" "") None;
          Decoded (mkKubeDef "" "" "" "") (Some (Msg "cannot decode"))].
Proof.
  exact (proj2 (YieldKubeDef_error_is_last example_lib
                  [[Byte.x73]; [Byte.x7a]; [Byte.x70]] EOF _ eq_refl)).
Defined.

(** *** Waiting for the pod *)

Lemma WaitReady_range_waits before rest :
  Forall waits before -> WaitReady_range (before ++ rest) = WaitReady_range rest.
Proof.
  induction 1 as [|ev before (phase & -> & Hp) _ IH]; [reflexivity|].
  cbn [app WaitReady_range]. destruct phase as [p|]; [|exact IH].
  destruct (String.eqb_spec p "Running") as [->|_]; [now contradiction Hp|exact IH].
Qed.

Lemma WaitReady_range_cases events :
  exists before,
    Forall waits before /\
    match WaitReady_range events with
    | Some (Some e) =>
        exists phase after, events = before ++ Unstructured phase (Some e) :: after
    | Some None =>
        events = before \/
        exists after, events = before ++ Unstructured (Some "Running") None :: after
    | None => exists after, events = before ++ OtherObject :: after
    end.
Proof.
  induction events as [|ev events (before & Hb & IH)].
  - exists []. split; [constructor|]. now left.
  - destruct ev as [phase [e|]|].
    + exists []. split; [constructor|]. cbn. eauto.
    + assert (phase <> Some "Running" ->
              exists before0,
                Forall waits before0 /\
                match WaitReady_range events with
                | Some (Some e) =>
                    exists ph after,
                      Unstructured phase None :: events =
                      before0 ++ Unstructured ph (Some e) :: after
                | Some None =>
                    Unstructured phase None :: events = before0 \/
                    exists after,
                      Unstructured phase None :: events =
                      before0 ++ Unstructured (Some "Running") None :: after
                | None =>
                    exists after,
                      Unstructured phase None :: events = before0 ++ OtherObject :: after
                end) as Hgo.
      { intros Hp. exists (Unstructured phase None :: before).
        split; [constructor; [now exists phase|exact Hb]|].
        destruct (WaitReady_range events) as [[e|]|].
        - destruct IH as (ph & after & ->). now exists ph, after.
        - destruct IH as [->|(after & ->)]; [now left|right; now exists after].
        - destruct IH as (after & ->). now exists after. }
      cbn [WaitReady_range]. destruct phase as [p|]; [|apply Hgo; discriminate].
      destruct (String.eqb_spec p "Running") as [->|Hp]; [|apply Hgo; congruence].
      exists []. split; [constructor|]. right. now exists events.
    + exists []. split; [constructor|]. now exists events.
Qed.

(** X14.  [WaitReady] watches the pod by its name in its namespace.  It
    goes over the events whose phase is read, or is not there, and is not
    Running, up to the first event of another kind, which decides: it
    returns the error of an event whose phase cannot be read; it panics
    on an event whose object is not unstructured; it returns nil on an
    event in phase Running.  It returns the error of the watch itself, if
    there is one, and nil when the watch ends with no such event: a pod
    that never runs is not an error. *)
Theorem WaitReady_outcomes c pod log :
  let selector := ("metadata.name=" ++ Name pod)%string in
  let answer := dr_Watch (DynamicClient c) log (Namespace pod) selector in
  let log' := log ++ [Watch (Namespace pod) selector] in
  let stopped_by ev :=
    fst answer = None /\
    exists before after, snd answer = before ++ ev :: after /\ Forall waits before in
  (forall e, WaitReady c pod log = Some (Some e, log') <->
             fst answer = Some e \/ exists phase, stopped_by (Unstructured phase (Some e))) /\
  (WaitReady c pod log = None <-> stopped_by OtherObject) /\
  (WaitReady c pod log = Some (None, log') <->
   stopped_by (Unstructured (Some "Running") None) \/
   (fst answer = None /\ Forall waits (snd answer))) /\
  (forall r l, WaitReady c pod log = Some (r, l) -> l = log').
Proof.
  cbv zeta. unfold WaitReady.
  destruct (dr_Watch _ _ _ _) as [[x|] events]; cbn [fst snd].
  { split; [|split; [|split]].
    - intros e. split; [intros [= ->]; now left|].
      intros [[= ->]|(_ & [=] & _)]. reflexivity.
    - split; [discriminate|]. now intros [[=] _].
    - split; [discriminate|]. now intros [[[=] _]|[[=] _]].
    - now intros r l [= _ <-]. }
  destruct (WaitReady_range_cases events) as (before & Hb & Hcases).
  split; [|split; [|split]].
  - intros e. split.
    + destruct (WaitReady_range events) as [[e0|]|]; [|discriminate|discriminate].
      intros [= ->]. destruct Hcases as (phase & after & ->).
      right. exists phase. split; [reflexivity|]. now exists before, after.
    + intros [[=]|(phase & _ & before' & after & -> & Hb')].
      now rewrite (WaitReady_range_waits _ _ Hb').
  - split.
    + destruct (WaitReady_range events) as [[e0|]|]; [discriminate|discriminate|].
      intros _. destruct Hcases as (after & ->).
      split; [reflexivity|]. now exists before, after.
    + intros (_ & before' & after & -> & Hb').
      now rewrite (WaitReady_range_waits _ _ Hb').
  - split.
    + destruct (WaitReady_range events) as [[e0|]|]; [discriminate| |discriminate].
      intros _. destruct Hcases as [->|(after & ->)].
      * right. now split.
      * left. split; [reflexivity|]. now exists before, after.
    + intros [(_ & before' & after & -> & Hb')|[_ Hw]].
      * rewrite (WaitReady_range_waits _ _ Hb'). cbn. reflexivity.
      * rewrite <- (app_nil_r events), (WaitReady_range_waits _ _ Hw). reflexivity.
  - intros r l. destruct (WaitReady_range events) as [e|]; [|discriminate].
    now intros [= _ <-].
Qed.

Lemma WaitReady_range_returns events :
  Forall is_Unstructured events -> WaitReady_range events <> None.
Proof.
  induction 1 as [|ev events Hev _ IH]; [discriminate|].
  destruct ev as [phase [e|]|]; [discriminate| |contradiction].
  cbn [WaitReady_range]. destruct phase as [p|]; [|exact IH].
  destruct (String.eqb p "Running"); [discriminate|exact IH].
Qed.

(** *** The host of the port forward *)

Lemma TrimLeft_https h : TrimLeft ("https://" ++ h) "htps:/" = TrimLeft h "htps:/".
Proof. reflexivity. Qed.

Lemma TrimLeft_shorter s cutset : (String.length (TrimLeft s cutset) <= String.length s)%nat.
Proof.
  induction s as [|c s IH]; cbn [TrimLeft]; [lia|].
  destruct (in_cutset cutset c); cbn [String.length]; lia.
Qed.

(** X15.  The host [PortForward] dials is the host of the configuration
    with its leading [h], [t], [p], [s], [:] and [/] cut off, not with
    its scheme cut off: for [https://] followed by a host, it is that
    host only when the host begins with none of these six characters. *)
Theorem hostIP_cuts_into_the_host ns client ns_answer mapper h :
  let c := mkClient ns client ("https://" ++ h) ns_answer mapper in
  hostIP c = TrimLeft h "htps:/" /\
  (hostIP c = h <->
   match h with
   | EmptyString => True
   | String a _ => in_cutset "htps:/" a = false
   end).
Proof.
  cbv zeta. unfold hostIP. cbn [Config_Host]. rewrite TrimLeft_https.
  split; [reflexivity|].
  destruct h as [|a h]; [now split|]. cbn [TrimLeft].
  destruct (in_cutset "htps:/" a) eqn:Ha.
  - split; [|discriminate]. intros Heq.
    pose proof (TrimLeft_shorter h "htps:/") as Hlen. rewrite Heq in Hlen.
    cbn [String.length] in Hlen. lia.
  - now split.
Qed.

(** *** Applying the definitions *)

Lemma kept_snoc defs kd : kept (defs ++ [kd]) = <[Kind kd := kd]> (kept defs).
Proof. unfold kept. now rewrite fold_left_app. Qed.

Lemma last_of_kind_snoc defs x kd :
  Kind x <> Kind kd -> (last_of_kind (defs ++ [x]) kd <-> last_of_kind defs kd).
Proof.
  intros Hk. split.
  - intros (pre & post & Heq & Hpost).
    induction post as [|y post _] using rev_ind.
    + apply app_inj_tail in Heq as [_ ->]. now contradiction Hk.
    + rewrite app_comm_cons, app_assoc in Heq. apply app_inj_tail in Heq as [-> _].
      exists pre, post. split; [reflexivity|]. now apply Forall_app in Hpost as [? _].
  - intros (pre & post & -> & Hpost). exists pre, (post ++ [x]).
    split; [now rewrite <- app_assoc|].
    apply Forall_app. split; [exact Hpost|]. now constructor.
Qed.

Lemma kept_lookup defs : forall k kd,
  kept defs !! k = Some kd <-> Kind kd = k /\ last_of_kind defs kd.
Proof.
  induction defs as [|x defs IH] using rev_ind; intros k kd.
  - unfold kept. cbn. rewrite lookup_empty. split; [discriminate|].
    intros (_ & [|? ?] & ? & [=] & _).
  - rewrite kept_snoc. destruct (String.eqb_spec (Kind x) k) as [<-|Hk].
    + rewrite lookup_insert_eq. split.
      * intros [= <-]. split; [reflexivity|]. exists defs, []. now split.
      * intros (Hkd & pre & post & Heq & Hpost).
        induction post as [|y post _] using rev_ind.
        -- now apply app_inj_tail in Heq as [_ ->].
        -- rewrite app_comm_cons, app_assoc in Heq. apply app_inj_tail in Heq as [_ ->].
           apply Forall_app in Hpost as [_ Hy]. inversion Hy; subst. congruence.
    + rewrite lookup_insert_ne by exact Hk. rewrite IH. split.
      * intros [<- Hl]. split; [reflexivity|]. now apply last_of_kind_snoc.
      * intros [<- Hl]. split; [reflexivity|]. now apply last_of_kind_snoc in Hl.
Qed.

Lemma applied_app l1 l2 : applied (l1 ++ l2) = applied l1 ++ applied l2.
Proof. unfold applied. apply omap_app. Qed.

Lemma applied_accepted c calls :
  Forall (accepted c) calls -> length (applied calls) = length calls.
Proof.
  induction 1 as [|x calls (dr & kd & -> & _) _ IH]; [reflexivity|].
  cbn. now rewrite <- IH.
Qed.

Lemma accepted_is_Apply c calls : Forall (accepted c) calls -> Forall is_Apply calls.
Proof. intros H. eapply Forall_impl; [exact H|]. now intros x (dr & kd & -> & _). Qed.

Lemma dynamicResource_Name c kd : Name (snd (dynamicResource c kd)) = Name kd.
Proof.
  unfold dynamicResource.
  destruct (Mapper_RESTMapping c _ _) as [mapping|e]; [|reflexivity].
  destruct (Scope_Name mapping); [|reflexivity].
  destruct (DefaultNS_fields c kd) as (_ & _ & Hn).
  now destruct (DefaultNS c kd) as [kd1 [e|]].
Qed.

(** What the loop of [KubeApply] keeps true as long as it goes on, and
    what it leaves. *)
Lemma KubeApply_body_returns c log0 y st :
  returned st = None ->
  KubeApply_returns c log0 (Some (kds st)) None (apply_log st) ->
  let st' := fst (KubeApply_body c y st) in
  match returned st' with
  | Some (res, err) => KubeApply_returns c log0 res err (apply_log st')
  | None =>
      KubeApply_returns c log0 (Some (kds st')) None (apply_log st') /\
      snd (KubeApply_body c y st) = true
  end /\
  (snd (KubeApply_body c y st) = true -> returned st' = None).
Proof.
  intros Hret (calls & Hlog & Hacc & Hkds). cbv zeta.
  assert (KubeApply_returns c log0 (Some (kds st)) None (apply_log st)) as Hsame
    by (exists calls; auto).
  unfold KubeApply_body.
  destruct y as [kd [e|]|e]; cbn [fst snd returned apply_log kds];
    try (split; [exists calls; auto|discriminate]).
  destruct (dynamicResource c kd) as [[dr|e] kd'] eqn:Hdr;
    cbn [fst snd returned apply_log kds]; [|split; [exists calls; auto|discriminate]].
  pose proof (dynamicResource_again c kd dr kd' Hdr) as Hagain.
  destruct (dr_Apply _ _ _ _ _) as [x|]; cbn [fst snd returned apply_log kds].
  - split; [|discriminate].
    exists (calls ++ [Apply dr (Name kd') kd' (Some x)]).
    split; [now rewrite Hlog, app_assoc|]. exists calls, dr, kd', x. auto.
  - split; [|reflexivity]. split; [|reflexivity].
    exists (calls ++ [Apply dr (Name kd') kd' None]).
    split; [now rewrite Hlog, app_assoc|]. split.
    + apply Forall_app. split; [exact Hacc|]. constructor; [|constructor].
      exists dr, kd'. auto.
    + rewrite applied_app. cbn [applied omap]. cbn. rewrite kept_snoc. now rewrite Hkds.
Qed.

Lemma KubeApply_result L c yaml log0 res err log :
  KubeApply L c yaml log0 = Some (res, err, log) ->
  KubeApply_returns c log0 res err log.
Proof.
  unfold KubeApply, YieldKubeDef.
  destruct (multidocReader L yaml) as [docs final].
  destruct (YieldKubeDef_loop _ _ _ _ _) as [st|] eqn:Hloop; [|discriminate].
  assert (match returned st with
          | Some (res, err) => KubeApply_returns c log0 res err (apply_log st)
          | None => KubeApply_returns c log0 (Some (kds st)) None (apply_log st)
          end) as Hst.
  { revert Hloop.
    apply (YieldKubeDef_loop_ind L (KubeApply_body c)
             (fun st => returned st = None /\
                        KubeApply_returns c log0 (Some (kds st)) None (apply_log st))
             (fun st => match returned st with
                        | Some (res, err) => KubeApply_returns c log0 res err (apply_log st)
                        | None => KubeApply_returns c log0 (Some (kds st)) None (apply_log st)
                        end)).
    - intros y s [Hr Hk].
      destruct (KubeApply_body_returns c log0 y s Hr Hk) as [H _].
      destruct (returned (fst (KubeApply_body c y s))) as [[r e]|]; [exact H|apply H].
    - intros kd s [Hr Hk] Hmore.
      destruct (KubeApply_body_returns c log0 (Decoded kd None) s Hr Hk) as [H Hnone].
      specialize (Hnone Hmore). rewrite Hnone in H. split; [exact Hnone|apply H].
    - intros s [Hr Hk]. now rewrite Hr.
    - split; [reflexivity|]. exists []. cbn. rewrite app_nil_r. repeat split. constructor. }
  destruct (returned st) as [[r e]|]; intros [= <- <- <-]; exact Hst.
Qed.

(** X16.  The map of [KubeApply] holds one definition per kind: under each
    kind the last definition of that kind that was applied, so that of
    two definitions of one kind the first is not in the map.  [KubeApply]
    makes no call but [Apply], and stops at the first refusal; after a
    refusal the map returned is nil, although the definitions before it
    were applied. *)
Theorem KubeApply_keeps_the_last_of_each_kind L c yaml res err log :
  KubeApply L c yaml [] = Some (res, err, log) ->
  Forall is_Apply log /\
  match res with
  | Some m =>
      length (applied log) = length log /\
      forall k kd, m !! k = Some kd <-> Kind kd = k /\ last_of_kind (applied log) kd
  | None =>
      exists log0 dr kd x,
        log = log0 ++ [Apply dr (Name kd) kd (Some x)] /\ err = Some x /\
        length (applied log0) = length log0
  end.
Proof.
  intros H. destruct (KubeApply_result _ _ _ _ _ _ _ H) as (calls & -> & Hres).
  cbn [app]. destruct res as [m|].
  - destruct Hres as [Hacc ->]. split; [now apply (accepted_is_Apply c)|].
    split; [now apply (applied_accepted c)|]. intros k kd. apply kept_lookup.
  - destruct Hres as (calls0 & dr & kd & x & -> & -> & Hacc & _). split.
    + apply Forall_app. split; [now apply (accepted_is_Apply c)|].
      constructor; [exact I|constructor].
    + exists calls0, dr, kd, x. split; [reflexivity|]. split; [reflexivity|].
      now apply (applied_accepted c).
Qed.

Lemma KubeApply_keeps_the_last_of_each_kind_witness :
  exists log0 dr kd x,
    [Apply (mkResourceInterface "services" (Some "default")) "kgrok"
           (mkKubeDef "v1" "Service" "kgrok" "default") None;
     Apply (mkResourceInterface "pods" (Some "default")) "kgrok"
           (mkKubeDef "v1" "Pod" "kgrok" "default") (Some (Msg "forbidden"))] =
    log0 ++ [Apply dr (Name kd) kd (Some x)] /\
    Some (Msg "forbidden") = Some x /\
    length (applied log0) = length log0.
Proof.
  exact (proj2 (KubeApply_keeps_the_last_of_each_kind example_lib
                  (example_client (fun kd => String.eqb (Kind kd) "Pod"))
                  [Byte.x73; Byte.x70] None _ _ eq_refl)).
Defined.

(** *** Deleting the definitions *)

Lemma KubeDelete_range_all c items : forall errs log,
  Forall (fun kd => exists dr, fst (dynamicResource c kd) = inl dr) items ->
  exists calls,
    KubeDelete_range c items errs log = (inr (errs ++ map answer_of calls), log ++ calls) /\
    Forall2 (deletes c) items calls.
Proof.
  induction items as [|kd items IH]; intros errs log Hm.
  - exists []. cbn. rewrite !app_nil_r. split; [reflexivity|constructor].
  - inversion Hm as [|? ? [dr Hdr] Hrest]; subst. cbn [KubeDelete_range].
    pose proof (dynamicResource_Name c kd) as Hname.
    destruct (dynamicResource c kd) as [[dr'|e] kd'] eqn:Hkd; cbn [fst snd] in *;
      [|discriminate].
    injection Hdr as ->. rewrite Hname.
    destruct (IH (errs ++ [dr_Delete (DynamicClient c) log dr (Name kd)])
                 (log ++ [Delete dr (Name kd) (dr_Delete (DynamicClient c) log dr (Name kd))])
                 Hrest) as (calls & -> & Hcalls).
    exists (Delete dr (Name kd) (dr_Delete (DynamicClient c) log dr (Name kd)) :: calls).
    split; [cbn [map answer_of]; now rewrite <- !app_assoc|].
    constructor; [|exact Hcalls]. exists dr, (dr_Delete (DynamicClient c) log dr (Name kd)).
    rewrite Hkd. now split.
Qed.

Lemma KubeDelete_range_stop c before kd after e : forall errs log,
  Forall (fun kd => exists dr, fst (dynamicResource c kd) = inl dr) before ->
  fst (dynamicResource c kd) = inr e ->
  exists calls,
    KubeDelete_range c (before ++ kd :: after) errs log = (inl e, log ++ calls) /\
    Forall2 (deletes c) before calls.
Proof.
  induction before as [|b before IH]; intros errs log Hm He.
  - exists []. cbn [app KubeDelete_range].
    destruct (dynamicResource c kd) as [[dr|e'] kd']; cbn [fst] in He; [discriminate|].
    injection He as ->. rewrite app_nil_r. split; [reflexivity|constructor].
  - inversion Hm as [|? ? [dr Hdr] Hrest]; subst. cbn [app KubeDelete_range].
    pose proof (dynamicResource_Name c b) as Hname.
    destruct (dynamicResource c b) as [[dr'|e'] b'] eqn:Hb; cbn [fst snd] in *;
      [|discriminate].
    injection Hdr as ->. rewrite Hname.
    destruct (IH (errs ++ [dr_Delete (DynamicClient c) log dr (Name b)])
                 (log ++ [Delete dr (Name b) (dr_Delete (DynamicClient c) log dr (Name b))])
                 Hrest He) as (calls & -> & Hcalls).
    exists (Delete dr (Name b) (dr_Delete (DynamicClient c) log dr (Name b)) :: calls).
    split; [now rewrite <- !app_assoc|].
    constructor; [|exact Hcalls]. exists dr, (dr_Delete (DynamicClient c) log dr (Name b)).
    rewrite Hb. now split.
Qed.

(** X17.  [KubeDelete] deletes the definitions one by one, each by its
    name on its own interface.  A deletion that the cluster refuses does
    not stop the next ones: its error goes with the others, one per
    definition, to [xerrors.Append].  A definition whose kind cannot be
    mapped does stop them: what comes after it is not deleted, and the
    errors of the deletions made before it are dropped for the error of
    the mapping. *)
Theorem KubeDelete_stops_only_at_an_unmapped_kind c items log :
  (Forall (fun kd => exists dr, fst (dynamicResource c kd) = inl dr) items ->
   exists calls,
     KubeDelete c items log = (inr (map answer_of calls), log ++ calls) /\
     Forall2 (deletes c) items calls) /\
  (forall before kd after e,
     items = before ++ kd :: after ->
     Forall (fun kd => exists dr, fst (dynamicResource c kd) = inl dr) before ->
     fst (dynamicResource c kd) = inr e ->
     exists calls,
       KubeDelete c items log = (inl e, log ++ calls) /\
       Forall2 (deletes c) before calls).
Proof.
  unfold KubeDelete. split.
  - intros Hm. destruct (KubeDelete_range_all c items [] log Hm) as (calls & H & Hc).
    exists calls. now split.
  - intros before kd after e -> Hm He. now apply KubeDelete_range_stop.
Qed.

(** *** [run] *)

Lemma KubeDelete_range_log c items : forall errs log,
  exists calls,
    snd (KubeDelete_range c items errs log) = log ++ calls /\ Forall is_Delete calls.
Proof.
  induction items as [|kd items IH]; intros errs log.
  - exists []. cbn. now rewrite app_nil_r.
  - cbn [KubeDelete_range]. destruct (dynamicResource c kd) as [[dr|e] kd'].
    + destruct (IH (errs ++ [dr_Delete (DynamicClient c) log dr (Name kd')])
                   (log ++ [Delete dr (Name kd') (dr_Delete (DynamicClient c) log dr (Name kd'))]))
        as (calls & -> & Hc).
      eexists (_ :: calls). split; [now rewrite <- app_assoc|].
      constructor; [exact I|exact Hc].
    + exists []. cbn. now rewrite app_nil_r.
Qed.

Lemma KubeDump_log L c buffer log0 err log :
  KubeDump L c buffer log0 = Some (err, log) ->
  exists calls, log = log0 ++ calls /\ Forall is_Printf calls.
Proof.
  unfold KubeDump, YieldKubeDef.
  destruct (multidocReader L buffer) as [docs final].
  destruct (YieldKubeDef_loop _ _ _ _ _) as [[log' err']|] eqn:Hloop; [|discriminate].
  intros [= <- <-]. revert Hloop.
  apply (YieldKubeDef_loop_ind L (KubeDump_body L c)
           (fun st => exists calls, fst st = log0 ++ calls /\ Forall is_Printf calls)
           (fun st => exists calls, fst st = log0 ++ calls /\ Forall is_Printf calls)).
  - intros y [l e] (calls & Hl & Hc). cbn [fst] in Hl. subst l. unfold KubeDump_body.
    destruct y as [kd [e'|]|e']; cbn [fst]; eauto.
    destruct (dynamicResource c kd) as [[dr|e''] kd']; cbn [fst]; eauto.
    destruct (yaml_Marshal L kd') as [buf [e''|]]; cbn [fst]; eauto.
    exists (calls ++ [Printf buf]). split; [now rewrite app_assoc|].
    apply Forall_app. split; [exact Hc|]. now constructor.
  - intros kd [l e] (calls & Hl & Hc) _. cbn [fst] in Hl. subst l. unfold KubeDump_body.
    destruct (dynamicResource c kd) as [[dr|e''] kd']; cbn [fst]; eauto.
    destruct (yaml_Marshal L kd') as [buf [e''|]]; cbn [fst]; eauto.
    exists (calls ++ [Printf buf]). split; [now rewrite app_assoc|].
    apply Forall_app. split; [exact Hc|]. now constructor.
  - auto.
  - exists []. cbn. now rewrite app_nil_r.
Qed.

Section Running.
Context `{XE : XErrors}.

Lemma run_dry_log flags env portMapping r log :
  flag_dry_run flags = true ->
  run flags env portMapping = Some (r, log) ->
  Forall is_Printf log.
Proof.
  intros Hdry. unfold run. rewrite Hdry.
  destruct (Ports.ParsePorts portMapping) as [fps [e|]]; [now intros [= _ <-]|].
  destruct (GenerateYAML _ _ _ _) as [[[yaml|] [e|]]|]; try discriminate;
    try (now intros [= _ <-]).
  destruct (NewClient _ _) as [client|e]; [|now intros [= _ <-]].
  destruct (KubeDump _ _ _ _) as [[err log']|] eqn:Hdump; [|discriminate].
  intros [= _ <-]. now destruct (KubeDump_log _ _ _ _ _ _ Hdump) as (calls & -> & Hc).
Qed.

(** X18.  A dry run touches nothing: whatever [run] does with the flag
    [--dry-run], it applies nothing, deletes nothing, watches and forwards
    nothing and starts no tunnel; all it does is print definitions. *)
Theorem dry_run_only_prints flags env portMapping r log :
  flag_dry_run flags = true ->
  run flags env portMapping = Some (r, log) ->
  Forall is_Printf log.
Proof. apply run_dry_log. Qed.

Lemma run_deployed_cases env client fps res err log r log' :
  run_deployed env client fps res err log = Some (r, log') ->
  exists mid,
    log' = log ++ mid /\
    Forall (fun x => ~ is_Apply x /\ ~ is_Delete x) mid /\
    (err <> None -> mid = [] /\ r = err) /\
    (r = None ->
     err = None /\
     exists pod,
       res ≫= (.!! "Pod") = Some pod /\
       mid = deployed_calls pod (hostIP client) fps /\
       Tunnel (interrupt env) port (imap (fun i fp => (fp, pair_env env i)) fps)
              (tunnel_env env) = None).
Proof.
  unfold run_deployed. destruct err as [e|].
  { intros [= <- <-]. exists []. split; [now rewrite app_nil_r|].
    split; [constructor|]. split; [now split|discriminate]. }
  assert (forall mid e l,
            l = log ++ mid -> Forall (fun x => ~ is_Apply x /\ ~ is_Delete x) mid ->
            Some (Some e, l) = Some (r, log') ->
            exists mid,
              log' = log ++ mid /\
              Forall (fun x => ~ is_Apply x /\ ~ is_Delete x) mid /\
              (@None err <> None -> mid = [] /\ r = None) /\
              (r = None ->
               @None err = None /\
               exists pod,
                 res ≫= (.!! "Pod") = Some pod /\
                 mid = deployed_calls pod (hostIP client) fps /\
                 Tunnel (interrupt env) port
                   (imap (fun i fp => (fp, pair_env env i)) fps) (tunnel_env env) = None))
    as Hfail.
  { intros mid e l -> Hmid [= <- <-]. exists mid. split; [reflexivity|].
    split; [exact Hmid|]. split; [intros H; now contradiction H|discriminate]. }
  destruct (res ≫= (.!! "Pod")) as [pod|];
    [|intros H; eapply (Hfail []); [symmetry; apply app_nil_r|constructor|exact H]].
  unfold WaitReady.
  set (w := Watch (Namespace pod) ("metadata.name=" ++ Name pod)%string).
  assert (~ is_Apply w /\ ~ is_Delete w) as Hw by (split; intros []).
  assert (Forall (fun x => ~ is_Apply x /\ ~ is_Delete x) [w]) as Hw1
    by (constructor; [exact Hw|constructor]).
  destruct (dr_Watch _ _ _ _) as [[e|] events];
    [intros H; eapply (Hfail [w]); [reflexivity|exact Hw1|exact H]|].
  destruct (WaitReady_range events) as [[e|]|];
    [intros H; eapply (Hfail [w]); [reflexivity|exact Hw1|exact H]| |discriminate].
  unfold PortForward.
  destruct (spdy_RoundTripperFor (forward_env env)) as [e|];
    [intros H; eapply (Hfail [w]); [reflexivity|exact Hw1|exact H]|].
  destruct (portforward_New (forward_env env)) as [e|];
    [intros H; eapply (Hfail [w]); [reflexivity|exact Hw1|exact H]|].
  set (f := ForwardPorts _ _ _).
  assert (Forall (fun x => ~ is_Apply x /\ ~ is_Delete x) [w; f]) as Hwf.
  { constructor; [exact Hw|]. constructor; [split; intros []|constructor]. }
  destruct (forward_select (forward_env env)) as [|[e|]].
  - intros [= <- <-]. exists (deployed_calls pod (hostIP client) fps).
    split; [unfold deployed_calls; now rewrite <- !app_assoc|].
    split; [repeat (constructor; [split; intros []|]); constructor|].
    split; [intros H; now contradiction H|].
    intros Hr. split; [reflexivity|]. exists pod. auto.
  - destruct (errors_Is (Some e) ErrLostConnectionToPod); cbn [xerrors_New];
      intros H; refine (Hfail [w; f] _ _ _ Hwf H); now rewrite <- app_assoc.
  - cbn [errors_Is xerrors_New].
    intros H; refine (Hfail [w; f] _ _ _ Hwf H); now rewrite <- app_assoc.
Qed.

Lemma run_cases flags env portMapping r log :
  flag_dry_run flags = false ->
  run flags env portMapping = Some (r, log) ->
  (log = [] /\ r <> None) \/
  exists fps client res err log1 r' log2 x,
    Ports.ParsePorts portMapping = (fps, None) /\
    NewClient (flag_namespace flags) (kubeconfig env) = inl client /\
    KubeApply_returns client [] res err log1 /\
    run_deployed env client fps res err log1 = Some (r', log2) /\
    KubeDelete client (deferred_items env res) log2 = (x, log) /\
    r = option_map inr r'.
Proof.
  intros Hdry. unfold run. rewrite Hdry.
  destruct (Ports.ParsePorts portMapping) as [fps [e|]];
    [intros [= <- <-]; left; now split|].
  destruct (GenerateYAML _ _ _ _) as [[[yaml|] [e|]]|]; try discriminate;
    try (intros [= <- <-]; left; now split).
  destruct (NewClient _ _) as [client|e] eqn:Hc; [|intros [= <- <-]; left; now split].
  destruct (KubeApply _ _ _ _) as [[[res err] log1]|] eqn:Ha; [|discriminate].
  destruct (run_deployed _ _ _ _ _ _) as [[r' log2]|] eqn:Hd; [|discriminate].
  destruct (KubeDelete _ _ _) as [x log3] eqn:Hx.
  intros [= <- <-]. right. exists fps, client, res, err, log1, r', log2, x.
  repeat split; try assumption. now apply (KubeApply_result (yaml_lib env) client yaml).
Qed.

Lemma accepted_answer c calls x :
  Forall (accepted c) calls -> In x calls -> answer_of x = None /\ is_Apply x.
Proof.
  intros H Hin. rewrite List.Forall_forall in H.
  destruct (H x Hin) as (dr & kd & -> & _). now split.
Qed.

(** X19.  A refused [Apply] leaves what was applied before it in the
    cluster.  If the cluster refuses one of the definitions, [run] returns
    that refusal, and the log of its calls ends there: the definitions
    applied before the refused one are not deleted, for [KubeApply]
    answered a nil map and the deferred [KubeDelete] ranges over that. *)
Theorem run_deletes_nothing_after_a_refused_Apply flags env portMapping r log dr n kd x :
  run flags env portMapping = Some (r, log) ->
  In (Apply dr n kd (Some x)) log ->
  r = Some (inr x) /\
  Forall is_Apply log /\
  exists log0, log = log0 ++ [Apply dr n kd (Some x)].
Proof.
  intros Hrun Hin. destruct (flag_dry_run flags) eqn:Hdry.
  { pose proof (run_dry_log flags env portMapping r log Hdry Hrun) as Hp.
    rewrite List.Forall_forall in Hp. now destruct (Hp _ Hin). }
  destruct (run_cases flags env portMapping r log Hdry Hrun)
    as [[-> _]|(fps & client & res & err & log1 & r' & log2 & y & _ & _ & Ha & Hd & Hx & ->)];
    [now destruct Hin|].
  destruct Ha as (calls & -> & Hres). cbn [app] in *.
  destruct (run_deployed_cases _ _ _ _ _ _ _ _ Hd) as (mid & -> & Hmid & Herr & _).
  destruct res as [m|].
  - destruct (KubeDelete_range_log client (deferred_items env (Some m)) [] (calls ++ mid))
      as (dels & Hlog & Hdels).
    unfold KubeDelete in Hx. rewrite Hx in Hlog. cbn [snd] in Hlog. subst log.
    destruct Hres as [Hacc _]. exfalso.
    apply in_app_or in Hin as [Hin|Hin]; [apply in_app_or in Hin as [Hin|Hin]|].
    + now destruct (accepted_answer client calls _ Hacc Hin).
    + rewrite List.Forall_forall in Hmid. destruct (Hmid _ Hin) as [Hn _]. now apply Hn.
    + rewrite List.Forall_forall in Hdels. now destruct (Hdels _ Hin).
  - destruct Hres as (calls0 & dr' & kd' & x' & -> & -> & Hacc & _).
    destruct (Herr ltac:(discriminate)) as [-> ->].
    cbn in Hx. injection Hx as _ <-. rewrite app_nil_r in *.
    apply in_app_or in Hin as [Hin|[Hin|[]]].
    + now destruct (accepted_answer client calls0 _ Hacc Hin).
    + injection Hin as -> -> -> ->. split; [reflexivity|]. split; [|now exists calls0].
      apply Forall_app. split; [now apply (accepted_is_Apply client)|].
      constructor; [exact I|constructor].
Qed.

Lemma applied_none mid :
  Forall (fun x => ~ is_Apply x /\ ~ is_Delete x) mid -> applied mid = [].
Proof.
  induction 1 as [|x mid [Hx _] _ IH]; [reflexivity|].
  destruct x; cbn; try exact IH. now contradiction Hx.
Qed.

Lemma applied_In c calls kd :
  Forall (accepted c) calls -> In kd (applied calls) ->
  exists dr, In (Apply dr (Name kd) kd None) calls /\ dynamicResource c kd = (inl dr, kd).
Proof.
  induction 1 as [|x calls (dr & kd0 & -> & Hdr) _ IH]; [intros []|].
  cbn. intros [<-|Hin].
  - exists dr. split; [now left|exact Hdr].
  - destruct (IH Hin) as (dr' & Hin' & Hdr'). exists dr'. split; [now right|exact Hdr'].
Qed.

Lemma last_of_kind_In defs kd : last_of_kind defs kd -> In kd defs.
Proof. intros (pre & post & -> & _). apply in_or_app. right. now left. Qed.

Lemma kept_values defs kd :
  In kd (map snd (map_to_list (kept defs))) <-> last_of_kind defs kd.
Proof.
  rewrite in_map_iff. split.
  - intros ([k kd'] & <- & Hin). cbn [snd].
    apply list_elem_of_In, elem_of_map_to_list in Hin. now apply kept_lookup in Hin.
  - intros Hl. exists (Kind kd, kd). split; [reflexivity|].
    apply list_elem_of_In, elem_of_map_to_list. now apply kept_lookup.
Qed.

Lemma kept_values_NoDup defs : NoDup (map snd (map_to_list (kept defs))).
Proof.
  apply (NoDup_fmap_2_strong snd); [|apply NoDup_map_to_list].
  intros [k1 v1] [k2 v2] H1 H2 Heq. cbn [snd] in Heq. subst v2.
  apply elem_of_map_to_list, kept_lookup in H1 as [<- _].
  apply elem_of_map_to_list, kept_lookup in H2 as [<- _].
  reflexivity.
Qed.

Lemma Forall2_with_left {A B} (P : A -> Prop) (R : A -> B -> Prop) l k :
  Forall P l -> Forall2 R l k -> Forall2 (fun a b => P a /\ R a b) l k.
Proof.
  intros Hp H. induction H as [|a b l k Hab _ IH]; [constructor|].
  inversion Hp; subst. constructor; auto.
Qed.

(** X20.  [run] deletes what [KubeApply] kept, and nothing else.  When no
    [Apply] was refused, whatever happens afterwards (no pod among the
    definitions, the watch, the port forward or the tunnel failing, or
    the tunnel ending), the log of [run] ends with deletions, one and
    only one for each definition that is the last applied of its kind,
    by the name and on the interface of its [Apply].  For a definition
    followed by another of its kind no deletion is made. *)
Theorem run_deletes_what_KubeApply_kept flags env portMapping r log :
  flag_dry_run flags = false ->
  (forall l, Permutation (range_kds env l) l) ->
  run flags env portMapping = Some (r, log) ->
  (forall dr n kd x, ~ In (Apply dr n kd (Some x)) log) ->
  exists before deletions items,
    log = before ++ deletions /\
    Forall (fun x => ~ is_Delete x) before /\
    NoDup items /\
    (forall kd, In kd items <-> last_of_kind (applied before) kd) /\
    Forall2 (undoes before) items deletions.
Proof.
  intros Hdry Hperm Hrun Hnone.
  destruct (run_cases flags env portMapping r log Hdry Hrun)
    as [[-> _]|(fps & client & res & err & log1 & r' & log2 & y & _ & _ & Ha & Hd & Hx & ->)].
  { exists [], [], []. split; [reflexivity|]. split; [constructor|].
    split; [constructor|].
    split; [|constructor]. intros kd. split; [intros []|].
    intros ([|? ?] & ? & [=] & _). }
  destruct Ha as (calls & -> & Hres). cbn [app] in *.
  destruct (run_deployed_cases _ _ _ _ _ _ _ _ Hd) as (mid & -> & Hmid & _ & _).
  destruct res as [m|].
  2:{ exfalso. destruct Hres as (calls0 & dr & kd & x & -> & _).
      pose proof (KubeDelete_range_log client (deferred_items env None) []
                    ((calls0 ++ [Apply dr (Name kd) kd (Some x)]) ++ mid))
        as (dels & Hlog & _).
      unfold KubeDelete in Hx. rewrite Hx in Hlog. cbn [snd] in Hlog. subst log.
      apply (Hnone dr (Name kd) kd x).
      apply in_or_app. left. apply in_or_app. left. apply in_or_app. right. now left. }
  destruct Hres as [Hacc ->].
  set (items := deferred_items env (Some (kept (applied calls)))) in *.
  assert (forall kd, In kd items <-> last_of_kind (applied calls) kd) as Hitems.
  { intros kd. unfold items, deferred_items. rewrite <- kept_values. split.
    - apply Permutation_in, Hperm.
    - apply Permutation_in. symmetry. apply Hperm. }
  assert (Forall (fun kd => exists dr,
                    In (Apply dr (Name kd) kd None) calls /\
                    dynamicResource client kd = (inl dr, kd)) items) as Hsettled.
  { apply List.Forall_forall. intros kd Hin. apply Hitems in Hin.
    apply (applied_In client); [exact Hacc|]. now apply last_of_kind_In. }
  assert (Forall (fun kd => exists dr, fst (dynamicResource client kd) = inl dr) items)
    as Hmappable.
  { eapply Forall_impl; [exact Hsettled|]. intros kd (dr & _ & ->). now exists dr. }
  destruct (KubeDelete_range_all client items [] (calls ++ mid) Hmappable)
    as (dels & Hrun' & Hdels).
  unfold KubeDelete in Hx. rewrite Hx in Hrun'. injection Hrun' as _ ->.
  exists (calls ++ mid), dels, items. split; [reflexivity|]. split; [|split; [|split]].
  - apply Forall_app. split.
    + eapply Forall_impl; [exact (accepted_is_Apply client calls Hacc)|]. now intros [].
    + eapply Forall_impl; [exact Hmid|]. now intros c [_ H].
  - unfold items, deferred_items.
    rewrite Hperm. apply kept_values_NoDup.
  - intros kd. now rewrite applied_app, (applied_none mid Hmid), app_nil_r.
  - eapply Forall2_impl; [exact (Forall2_with_left _ _ _ _ Hsettled Hdels)|].
    intros kd c [(dr & Hin & Hdr) (dr' & a & Hdr' & ->)].
    rewrite Hdr in Hdr'. injection Hdr' as <-.
    exists dr, a. split; [reflexivity|]. apply in_or_app. now left.
Qed.

(** X21.  [run] returns nil only after the tunnel did.  When it returns
    nil without [--dry-run], its calls were, in this order: the
    definitions applied, none refused; the watch of the pod, which is the
    last applied definition of kind Pod; the port forward to that pod, on
    port 28688; the tunnel, on that port, for the forwarded ports parsed
    from the command line, and it returned nil; and the deletions. *)
Theorem run_returns_nil_after_the_tunnel flags env portMapping log :
  flag_dry_run flags = false ->
  run flags env portMapping = Some (None, log) ->
  exists fps host applies pod deletions,
    Ports.ParsePorts portMapping = (fps, None) /\
    localCfg_ClientConfig (kubeconfig env) = inl host /\
    log = applies ++ deployed_calls pod (TrimLeft host "htps:/") fps ++ deletions /\
    Forall is_Apply applies /\ length (applied applies) = length applies /\
    Kind pod = "Pod" /\ last_of_kind (applied applies) pod /\
    Forall is_Delete deletions /\
    Tunnel (interrupt env) port (imap (fun i fp => (fp, pair_env env i)) fps)
           (tunnel_env env) = None.
Proof.
  intros Hdry Hrun.
  destruct (run_cases flags env portMapping None log Hdry Hrun)
    as [[_ H]|(fps & client & res & err & log1 & r' & log2 & y & Hp & Hc & Ha & Hd & Hx & Hr)];
    [now contradiction H|].
  destruct r' as [e|]; [discriminate|].
  destruct Ha as (calls & -> & Hres). cbn [app] in *.
  destruct (run_deployed_cases _ _ _ _ _ _ _ _ Hd) as (mid & -> & _ & _ & Hnil).
  destruct (Hnil eq_refl) as (-> & pod & Hpod & -> & Htunnel).
  destruct res as [m|]; [|discriminate].
  destruct Hres as [Hacc ->]. cbn in Hpod. apply kept_lookup in Hpod as [Hkind Hlast].
  destruct (KubeDelete_range_log client (deferred_items env (Some (kept (applied calls)))) []
              (calls ++ deployed_calls pod (hostIP client) fps)) as (dels & Hlog & Hdels).
  unfold KubeDelete in Hx. rewrite Hx in Hlog. cbn [snd] in Hlog. subst log.
  revert Hc. unfold NewClient.
  destruct (localCfg_ClientConfig (kubeconfig env)) as [host|e]; [|discriminate].
  destruct (NewDiscoveryClientForConfig (kubeconfig env)) as [mapper|e]; [|discriminate].
  destruct (dynamic_NewForConfig (kubeconfig env)) as [dyn|e]; [|discriminate].
  intros [= <-]. unfold hostIP. cbn [Config_Host].
  exists fps, host, calls, pod, dels. rewrite <- app_assoc.
  repeat split; try assumption.
  - now apply (accepted_is_Apply _ _ Hacc).
  - now apply (applied_accepted _ _ Hacc).
Qed.

End Running.

Lemma dry_run_only_prints_witness :
  Forall is_Printf [Printf []; Printf []].
Proof.
  exact (dry_run_only_prints (XE := xerrors_strict) (mkFlags "" "" true)
           (example_env [Byte.x73; Byte.x70] (fun _ => false)) ["8080"] None _
           eq_refl eq_refl).
Defined.

Lemma run_deletes_what_KubeApply_kept_witness :
  exists before deletions items,
    example_log = before ++ deletions /\
    Forall (fun x => ~ is_Delete x) before /\
    NoDup items /\
    (forall kd, In kd items <-> last_of_kind (applied before) kd) /\
    Forall2 (undoes before) items deletions.
Proof.
  apply (run_deletes_what_KubeApply_kept (XE := xerrors_strict) (mkFlags "" "" false)
           (example_env [Byte.x73; Byte.x70] (fun _ => false)) ["8080"] None).
  - reflexivity.
  - intros l. apply Permutation_refl.
  - reflexivity.
  - intros dr n kd x Hin. cbn in Hin.
    repeat (destruct Hin as [Hin|Hin]; [discriminate Hin|]). exact Hin.
Defined.

Lemma run_returns_nil_after_the_tunnel_witness :
  exists fps host applies pod deletions,
    Ports.ParsePorts ["8080"] = (fps, None) /\
    localCfg_ClientConfig (example_kubeconfig (fun _ => false)) = inl host /\
    example_log = applies ++ deployed_calls pod (TrimLeft host "htps:/") fps ++ deletions /\
    Forall is_Apply applies /\ length (applied applies) = length applies /\
    Kind pod = "Pod" /\ last_of_kind (applied applies) pod /\
    Forall is_Delete deletions /\
    Tunnel (XE := xerrors_strict) Background port
      (imap (fun i fp => (fp, mkPairEnv Background None (fun _ => None) None None)) fps)
      (mkTunnelEnv None Background []) = None.
Proof.
  apply (run_returns_nil_after_the_tunnel (XE := xerrors_strict) (mkFlags "" "" false)
           (example_env [Byte.x73; Byte.x70] (fun _ => false)) ["8080"]); reflexivity.
Defined.

Lemma run_deletes_nothing_after_a_refused_Apply_witness :
  Forall is_Apply
    [Apply (mkResourceInterface "services" (Some "default")) "kgrok"
           (mkKubeDef "v1" "Service" "kgrok" "default") None;
     Apply (mkResourceInterface "pods" (Some "default")) "kgrok"
           (mkKubeDef "v1" "Pod" "kgrok" "default") (Some (Msg "forbidden"))] /\
  exists log0,
    [Apply (mkResourceInterface "services" (Some "default")) "kgrok"
           (mkKubeDef "v1" "Service" "kgrok" "default") None;
     Apply (mkResourceInterface "pods" (Some "default")) "kgrok"
           (mkKubeDef "v1" "Pod" "kgrok" "default") (Some (Msg "forbidden"))] =
    log0 ++ [Apply (mkResourceInterface "pods" (Some "default")) "kgrok"
                   (mkKubeDef "v1" "Pod" "kgrok" "default") (Some (Msg "forbidden"))].
Proof.
  exact (proj2 (run_deletes_nothing_after_a_refused_Apply (XE := xerrors_strict)
                  (mkFlags "" "" false)
                  (example_env [Byte.x73; Byte.x70] (fun kd => String.eqb (Kind kd) "Pod"))
                  ["8080"] _ _ _ _ _ _ eq_refl (or_intror (or_introl eq_refl)))).
Defined.

(** *** [run] returns *)

Lemma YieldKubeDef_loop_returns L {S} (yield : yielded -> S -> S * bool) docs final :
  Forall (fun buf => buf <> []) docs ->
  forall s, exists s', YieldKubeDef_loop L yield docs final s = Some s'.
Proof.
  induction 1 as [|buf docs Hbuf _ IH]; intros s.
  - cbn. destruct (err_eqb final EOF); eauto.
  - destruct buf as [|b buf]; [now contradiction Hbuf|]. cbn [YieldKubeDef_loop].
    destruct (Byte.eqb b Byte.x0a); [apply IH|].
    destruct (decoder_Decode L (b :: buf)) as [kd [e|]]; [eauto|].
    destruct (yield (Decoded kd None) s) as [s' more]. destruct more; [apply IH|eauto].
Qed.

Lemma GenerateYAML_returns tplt path args env :
  GenerateYAML tplt path args env <> None ->
  (exists e, GenerateYAML tplt path args env = Some (None, Some e)) \/
  (exists yaml err, GenerateYAML tplt path args env = Some (Some yaml, err)).
Proof.
  unfold GenerateYAML.
  destruct (Stdin_Stat env) as [size [e|]]; [left; eauto|].
  destruct (if 0 <? size then ReadAll_Stdin env
            else if negb (String.eqb path "") then ReadFile env path
            else (tplt, None)) as [t [e|]]; [left; eauto|].
  destruct (Execute env t args) as [[buffer err]|]; [|contradiction].
  right. eauto.
Qed.

Section Returning.
Context `{XE : XErrors}.

(** X22.  [run] returns unless it panics at one of three places: in
    [GenerateYAML], when the template does not parse ([template.Must]);
    in [YieldKubeDef], when the reader of the documents hands over an
    empty one ([buf[0]]); in [WaitReady], when the object of an event is
    not unstructured.  If on this command line [GenerateYAML] does not
    panic, the documents of what it rendered are not empty, and the
    events of the watch that [WaitReady] starts carry unstructured
    objects, then whatever the cluster answers and however the tunnel
    ends, every call that [run] waits for being answered, [run] returns,
    with an error or with nil. *)
Theorem run_returns flags env portMapping :
  let generated fps :=
    GenerateYAML (tplt env) (flag_template flags) (mkArgs port name fps)
                 (template_env env) in
  (forall fps, Ports.ParsePorts portMapping = (fps, None) -> generated fps <> None) ->
  (forall fps yaml,
      Ports.ParsePorts portMapping = (fps, None) ->
      generated fps = Some (Some yaml, None) ->
      Forall (fun buf => buf <> []) (fst (multidocReader (yaml_lib env) yaml))) ->
  (forall fps yaml client definitions log pod,
      Ports.ParsePorts portMapping = (fps, None) ->
      generated fps = Some (Some yaml, None) ->
      NewClient (flag_namespace flags) (kubeconfig env) = inl client ->
      KubeApply (yaml_lib env) client yaml [] = Some (Some definitions, None, log) ->
      definitions !! "Pod" = Some pod ->
      Forall is_Unstructured
        (snd (dr_Watch (DynamicClient client) log (Namespace pod)
                       ("metadata.name=" ++ Name pod)%string))) ->
  exists r log, run flags env portMapping = Some (r, log).
Proof.
  intros generated Hgen Hdocs Hwatch. unfold run.
  destruct (Ports.ParsePorts portMapping) as [fps [e|]]; [eauto|].
  specialize (Hgen fps eq_refl). specialize (Hdocs fps).
  specialize (Hwatch fps). subst generated. cbv beta in *.
  destruct (GenerateYAML_returns _ _ _ _ Hgen) as [[e Hg]|(yaml & err & Hg)];
    rewrite Hg in *; [eauto|].
  destruct err as [e|]; [eauto|].
  specialize (Hdocs yaml eq_refl eq_refl). specialize (Hwatch yaml).
  destruct (NewClient _ _) as [client|e]; [|eauto].
  specialize (Hwatch client).
  destruct (flag_dry_run flags).
  - unfold KubeDump, YieldKubeDef.
    destruct (multidocReader (yaml_lib env) yaml) as [docs final]. cbn [fst] in Hdocs.
    destruct (YieldKubeDef_loop_returns (yaml_lib env)
                (KubeDump_body (yaml_lib env) client) docs final Hdocs ([], None))
      as [[log err] ->]. eauto.
  - assert (exists res, KubeApply (yaml_lib env) client yaml [] = Some res) as [res Ha].
    { unfold KubeApply, YieldKubeDef.
      destruct (multidocReader (yaml_lib env) yaml) as [docs final]. cbn [fst] in Hdocs.
      destruct (YieldKubeDef_loop_returns (yaml_lib env)
                  (KubeApply_body client) docs final Hdocs (mkApplyState ∅ [] None))
        as [st ->].
      destruct (returned st) as [[m e]|]; eauto. }
    rewrite Ha. destruct res as [[definitions err] log].
    assert (exists r log2,
              run_deployed env client fps definitions err log = Some (r, log2))
      as (r & log2 & ->).
    { unfold run_deployed. destruct err as [e|]; [eauto|].
      destruct definitions as [m|]; cbn [mbind option_bind]; [|eauto].
      destruct (m !! "Pod") as [pod|] eqn:Hpod; [|eauto].
      specialize (Hwatch m log pod eq_refl eq_refl eq_refl Ha Hpod).
      unfold WaitReady.
      destruct (dr_Watch _ _ _ _) as [[e|] events]; [eauto|]. cbn [snd] in Hwatch.
      pose proof (WaitReady_range_returns events Hwatch) as Hr.
      destruct (WaitReady_range events) as [[e|]|]; [eauto| |contradiction].
      destruct (PortForward _ _ _ _ _) as [[e|] log3]; eauto. }
    destruct (KubeDelete _ _ _) as [x log3]. eauto.
Qed.

End Returning.

Lemma example_lib_documents buffer :
  Forall (fun buf => buf <> []) (fst (multidocReader example_lib buffer)).
Proof. cbn. induction buffer; constructor; [discriminate|assumption]. Qed.

Lemma run_returns_witness :
  exists r log,
    run (XE := xerrors_strict) (mkFlags "" "" false)
        (example_env [Byte.x73; Byte.x70] (fun _ => false)) ["8080"] = Some (r, log).
Proof.
  apply (run_returns (XE := xerrors_strict)).
  - intros fps _. discriminate.
  - intros fps yaml _ _. apply example_lib_documents.
  - intros fps yaml client definitions log pod _ _ [= <-] _ _.
    repeat constructor.
Defined.

End KubeFacts.
